(** * withAutoMarkdown: markdown shortcuts of the note editor

    A shallow embedding of [src/editor/plugins/withAutoMarkdown.ts].

    The plugin overrides two methods of a Slate editor, [insertText] and
    [deleteBackward].  The file is organised as the source is:

    - [Js]       JavaScript strings (sequences of UTF-16 code units) and the
                 fragment of JavaScript regular expressions the two shortcut
                 tables are written in, with the backtracking semantics of
                 [String.prototype.match];
    - [Slate]    the document tree, points, ranges and the Slate primitives
                 the plugin calls;
    - [AutoMarkdown]  the tables [BLOCK_SHORTCUTS] and [INLINE_SHORTCUTS], the
                 helper [deleteText] and the two overridden methods, written
                 over the methods they capture from the editor they wrap. *)

From Stdlib Require Import List Arith NArith Bool String Ascii Lia.
Import ListNotations.

Set Implicit Arguments.
Set Warnings "-register-all".
Local Open Scope nat_scope.
Local Open Scope list_scope.

(* ------------------------------------------------------------------ *)
(** ** JavaScript strings and regular expressions *)

Module Js.

(** A JavaScript string is a sequence of UTF-16 code units. *)
Definition char := N.
Definition str := list char.

Definition char_eqb (a b : char) : bool := N.eqb a b.

Fixpoint lit (s : string) : str :=
  match s with
  | EmptyString => []
  | String a s' => N_of_ascii a :: lit s'
  end.

Fixpoint str_eqb (a b : str) : bool :=
  match a, b with
  | [], [] => true
  | x :: a', y :: b' => char_eqb x y && str_eqb a' b'
  | _, _ => false
  end.

(** Code units used by the tables. *)
Definition c_star : char := 42%N.      (* * *)
Definition c_plus : char := 43%N.      (* + *)
Definition c_minus : char := 45%N.     (* - *)
Definition c_dot : char := 46%N.       (* . *)
Definition c_gt : char := 62%N.        (* > *)
Definition c_hash : char := 35%N.      (* # *)
Definition c_under : char := 95%N.     (* _ *)
Definition c_tick : char := 96%N.      (* ` *)
Definition c_lbrack : char := 91%N.    (* [ *)
Definition c_rbrack : char := 93%N.    (* ] *)
Definition c_lparen : char := 40%N.    (* ( *)
Definition c_rparen : char := 41%N.    (* ) *)
Definition c_space : char := 32%N.

(** [\s]: WhiteSpace and LineTerminator code units of ECMAScript. *)
Definition is_space (c : char) : bool :=
  ((9 <=? c) && (c <=? 13) || (c =? 32) || (c =? 160) || (c =? 5760)
   || (8192 <=? c) && (c <=? 8202) || (c =? 8232) || (c =? 8233)
   || (c =? 8239) || (c =? 8287) || (c =? 12288) || (c =? 65279))%N.

(** [.] without the [s] flag: anything but a line terminator. *)
Definition is_dot (c : char) : bool :=
  negb ((c =? 10) || (c =? 13) || (c =? 8232) || (c =? 8233))%N.

(** [[0-9]] *)
Definition is_digit (c : char) : bool := ((48 <=? c) && (c <=? 57))%N.

(** [[^x]] *)
Definition is_not (x : char) (c : char) : bool := negb (char_eqb c x).

(** The regular expressions of the tables: literals, classes, the
    assertions [^] and [$] (no [m] flag), sequence, alternation, a greedy
    [+] over a class, and numbered capture groups.  [(?:r)] is [r]. *)
Inductive regex : Type :=
| Eps
| Chr (c : char)
| Class (p : char -> bool)
| Bol
| Eol
| Seq (r1 r2 : regex)
| Alt (r1 r2 : regex)
| Plus (p : char -> bool)
| Group (n : nat) (r : regex).

(** Matcher state, as in the ECMAScript semantics: the index reached, the
    input left from there, and the captures made so far. *)
Record mstate : Type := MState {
  m_index : nat;
  m_rest : str;
  m_caps : list (nat * str)
}.

Definition cont (A : Type) := mstate -> option A.

(** Greedy [p+] from state [(i, s, caps)]: take as many as possible, give
    one back at a time while the continuation fails. *)
Fixpoint plus_loop (A : Type) (p : char -> bool) (i : nat) (s : str)
    (caps : list (nat * str)) (k : cont A) : option A :=
  match s with
  | [] => None
  | c :: s' =>
      if p c then
        match plus_loop p (S i) s' caps k with
        | Some r => Some r
        | None => k (MState (S i) s' caps)
        end
      else None
  end.

Fixpoint run (A : Type) (r : regex) (x : mstate) (k : cont A) : option A :=
  match r with
  | Eps => k x
  | Chr c =>
      match m_rest x with
      | d :: s' =>
          if char_eqb d c then k (MState (S (m_index x)) s' (m_caps x))
          else None
      | [] => None
      end
  | Class p =>
      match m_rest x with
      | d :: s' =>
          if p d then k (MState (S (m_index x)) s' (m_caps x)) else None
      | [] => None
      end
  | Bol => if Nat.eqb (m_index x) 0 then k x else None
  | Eol => match m_rest x with [] => k x | _ :: _ => None end
  | Seq r1 r2 => run r1 x (fun y => run r2 y k)
  | Alt r1 r2 =>
      match run r1 x k with
      | Some a => Some a
      | None => run r2 x k
      end
  | Plus p => plus_loop p (m_index x) (m_rest x) (m_caps x) k
  | Group n r1 =>
      run r1 x (fun y =>
        k (MState (m_index y) (m_rest y)
             ((n, firstn (m_index y - m_index x) (m_rest x)) :: m_caps y)))
  end.

(** The result array of a successful match: where it starts and ends and
    what the groups captured. *)
Record result : Type := Result {
  r_index : nat;
  r_end : nat;
  r_caps : list (nat * str)
}.

Fixpoint assoc (n : nat) (l : list (nat * str)) : option str :=
  match l with
  | [] => None
  | (m, s) :: l' => if Nat.eqb m n then Some s else assoc n l'
  end.

(** [result[n]] for a group that took part in the match. *)
Definition group (res : result) (n : nat) : str :=
  match assoc n (r_caps res) with Some s => s | None => [] end.

(** Leftmost match: try each start index in turn, from [i] on. *)
Fixpoint search (r : regex) (i : nat) (s : str) : option result :=
  match run r (MState i s []) (fun y => Some (Result i (m_index y) (m_caps y))) with
  | Some res => Some res
  | None =>
      match s with
      | [] => None
      | _ :: s' => search r (S i) s'
      end
  end.

(** [s.match(r)] for a regular expression without the [g] flag. *)
Definition match_ (s : str) (r : regex) : option result := search r 0 s.

Fixpoint seq (l : list regex) : regex :=
  match l with
  | [] => Eps
  | [r] => r
  | r :: l' => Seq r (seq l')
  end.

End Js.

(* ------------------------------------------------------------------ *)
(** ** The document tree and the Slate primitives the plugin calls

    The plugin imports [Editor], [Element], [Transforms], [Range],
    [Point], [Text] and [Path] from the [slate] package.  This module
    models the documents and the primitives on them.  Offsets are
    natural numbers: for a single typed character the plugin never
    computes a negative one, since a match lies inside the text before
    the caret plus that character. *)

Module Slate.
Import Js.

(** The marks the plugin sets on a text leaf: [{ [type]: true }] for
    [type] one of bold, italic, code. *)
Inductive Mark : Type := Bold | Italic | Code.

Record Marks : Type := MkMarks { bold : bool; italic : bool; code : bool }.

Definition no_marks : Marks := MkMarks false false false.

Definition set_mark (k : Mark) (v : bool) (m : Marks) : Marks :=
  match k with
  | Bold => MkMarks v (italic m) (code m)
  | Italic => MkMarks (bold m) v (code m)
  | Code => MkMarks (bold m) (italic m) v
  end.

Definition marks_eqb (a b : Marks) : bool :=
  Bool.eqb (bold a) (bold b) && Bool.eqb (italic a) (italic b)
  && Bool.eqb (code a) (code b).

(** A node is a text leaf [{ text, ...marks }] or an element
    [{ type, url?, children }]. *)
Inductive Node : Type :=
| Text (text : str) (marks : Marks)
| Element (type : string) (url : option str) (children : list Node).

Definition Path := list nat.

Record Point : Type := MkPoint { path : Path; offset : nat }.

Record Range : Type := MkRange { anchor : Point; focus : Point }.

(** The editor: the document, the selection (null or a range) and the
    pending marks [editor.marks]. *)
Record Editor : Type := MkEditor {
  children : list Node;
  selection : option Range;
  marks : option Marks
}.

(** *** Paths, points, ranges *)

Fixpoint Path_equals (p q : Path) : bool :=
  match p, q with
  | [], [] => true
  | i :: p', j :: q' => Nat.eqb i j && Path_equals p' q'
  | _, _ => false
  end.

(** [Path.compare]: -1, 0 (also when one is an ancestor of the other), 1. *)
Fixpoint Path_compare (p q : Path) : comparison :=
  match p, q with
  | i :: p', j :: q' =>
      match Nat.compare i j with
      | Eq => Path_compare p' q'
      | c => c
      end
  | _, _ => Eq
  end.

Fixpoint Path_common (p q : Path) : Path :=
  match p, q with
  | i :: p', j :: q' => if Nat.eqb i j then i :: Path_common p' q' else []
  | _, _ => []
  end.

Fixpoint Path_isPrefix (p q : Path) : bool :=
  match p, q with
  | [], _ => true
  | i :: p', j :: q' => Nat.eqb i j && Path_isPrefix p' q'
  | _ :: _, [] => false
  end.

Definition Point_equals (a b : Point) : bool :=
  Path_equals (path a) (path b) && Nat.eqb (offset a) (offset b).

Definition Point_compare (a b : Point) : comparison :=
  match Path_compare (path a) (path b) with
  | Eq => Nat.compare (offset a) (offset b)
  | c => c
  end.

Definition Range_isCollapsed (r : Range) : bool :=
  Point_equals (anchor r) (focus r).

(** [Range.edges]: the start and the end of the range in document order. *)
Definition Range_edges (r : Range) : Point * Point :=
  match Point_compare (anchor r) (focus r) with
  | Gt => (focus r, anchor r)
  | _ => (anchor r, focus r)
  end.

(** *** Reading the tree *)

(** [Node.get] below the editor; the empty path is the editor itself,
    which is not a node of the tree. *)
Fixpoint get (cs : list Node) (p : Path) : option Node :=
  match p with
  | [] => None
  | i :: p' =>
      match nth_error cs i with
      | None => None
      | Some n =>
          match p', n with
          | [], _ => Some n
          | _ :: _, Element _ _ cs' => get cs' p'
          | _ :: _, Text _ _ => None
          end
      end
  end.

(** Modelled from the spec: [editor.isInline], set by the links plugin of
    the repository, which is not in the source at hand; the spec's Link
    node is "an inline container", every other element is a block. *)
Definition isInline (type : string) : bool := String.eqb type "link".

(** [Editor.isBlock(editor, n)]: an element that is not inline. *)
Definition isBlock (n : Node) : bool :=
  match n with
  | Element ty _ _ => negb (isInline ty)
  | Text _ _ => false
  end.

(** The proper ancestors of a path below the editor, lowest first. *)
Definition Path_ancestors_rev (p : Path) : list Path :=
  rev (map (fun n => firstn n p) (List.seq 1 (List.length p - 1))).

(** The lowest proper ancestor of [p] that satisfies [f]. *)
Fixpoint lowest (f : Node -> bool) (cs : list Node) (ps : list Path)
    : option (Node * Path) :=
  match ps with
  | [] => None
  | q :: ps' =>
      match get cs q with
      | Some n => if f n then Some (n, q) else lowest f cs ps'
      | None => lowest f cs ps'
      end
  end.

(** [Editor.above(editor, { match })] at the selection: the lowest
    ancestor of the selection's common path that matches.  The editor
    itself is never an element, so it never matches the plugin's
    predicates. *)
Definition above (f : Node -> bool) (e : Editor) : option (Node * Path) :=
  match selection e with
  | None => None
  | Some r =>
      lowest f (children e)
        (Path_ancestors_rev (Path_common (path (anchor r)) (path (focus r))))
  end.

(** The path from a node down to its first leaf. *)
Fixpoint first_leaf (n : Node) : Path :=
  match n with
  | Text _ _ => []
  | Element _ _ [] => []
  | Element _ _ (c :: _) => 0 :: first_leaf c
  end.

(** [Editor.start(editor, path)]: offset 0 of the first leaf at or below
    the path. *)
Definition start (e : Editor) (p : Path) : Point :=
  match p with
  | [] =>
      match children e with
      | c :: _ => MkPoint (0 :: first_leaf c) 0
      | [] => MkPoint [] 0
      end
  | _ :: _ =>
      match get (children e) p with
      | Some n => MkPoint (p ++ first_leaf n) 0
      | None => MkPoint p 0
      end
  end.

(** The text leaves at or below a node, in document order, each with its
    path from that node. *)
Fixpoint texts_node (n : Node) : list (Path * (str * Marks)) :=
  match n with
  | Text t m => [([], (t, m))]
  | Element _ _ cs =>
      (fix go (i : nat) (cs : list Node) : list (Path * (str * Marks)) :=
         match cs with
         | [] => []
         | c :: cs' =>
             map (fun pt => (i :: fst pt, snd pt)) (texts_node c) ++ go (S i) cs'
         end) 0 cs
  end.

Fixpoint texts_from (i : nat) (cs : list Node) : list (Path * (str * Marks)) :=
  match cs with
  | [] => []
  | c :: cs' =>
      map (fun pt => (i :: fst pt, snd pt)) (texts_node c) ++ texts_from (S i) cs'
  end.

Definition texts (cs : list Node) : list (Path * (str * Marks)) :=
  texts_from 0 cs.

(** Whether the leaf at [p] lies in the range from [s] to [en]. *)
Definition in_span (s en : Point) (p : Path) : bool :=
  match Path_compare (path s) p, Path_compare p (path en) with
  | Gt, _ => false
  | _, Gt => false
  | _, _ => true
  end.

(** The part of a leaf's text a range covers: [slice(0, end.offset)] on
    the end leaf, then [slice(start.offset)] on the start leaf. *)
Definition covered (s en : Point) (p : Path) (t : str) : str :=
  let t1 := if Path_equals p (path en) then firstn (offset en) t else t in
  if Path_equals p (path s) then skipn (offset s) t1 else t1.

(** [Editor.string(editor, range)] *)
Definition string_ (e : Editor) (r : Range) : str :=
  let (s, en) := Range_edges r in
  List.concat (map (fun pt => if in_span s en (fst pt)
                         then covered s en (fst pt) (fst (snd pt)) else [])
              (texts (children e))).

(** *** Writing the tree

    Each primitive below gives the document and the selection Slate
    leaves behind.  They are exact for the calls the plugin makes on a
    document in Slate's normal form: ranges inside one text leaf, a
    selection inside one block.  Leaves that an edit leaves adjacent
    with equal marks are not merged here. *)

(** Replace the node at [p] by the nodes [f n]. *)
Fixpoint splice (f : Node -> list Node) (cs : list Node) (p : Path)
    : list Node :=
  match p with
  | [] => cs
  | i :: p' =>
      match nth_error cs i with
      | None => cs
      | Some n =>
          firstn i cs
          ++ match p', n with
             | [], _ => f n
             | _ :: _, Element ty u cs' => [Element ty u (splice f cs' p')]
             | _ :: _, Text _ _ => [n]
             end
          ++ skipn (S i) cs
      end
  end.

Definition map_range (f : Point -> Point) (r : Range) : Range :=
  MkRange (f (anchor r)) (f (focus r)).

Definition Range_equals (a b : Range) : bool :=
  Point_equals (anchor a) (anchor b) && Point_equals (focus a) (focus b).

(** [Transforms.select(editor, range)].  A selection that changes
    clears the pending marks. *)
Definition select (r : Range) (e : Editor) : Editor :=
  match selection e with
  | Some r0 =>
      if Range_equals r0 r then e else MkEditor (children e) (Some r) None
  | None => MkEditor (children e) (Some r) None
  end.

(** What is left of a leaf's text once the range is deleted. *)
Definition uncovered (s en : Point) (p : Path) (t : str) : str :=
  (if Path_equals p (path s) then firstn (offset s) t else [])
  ++ (if Path_equals p (path en) then skipn (offset en) t else []).

Fixpoint map_text (f : Path -> str -> str) (pre : Path) (n : Node) : Node :=
  match n with
  | Text t m => Text (f pre t) m
  | Element ty u cs =>
      Element ty u
        ((fix go (i : nat) (cs : list Node) : list Node :=
            match cs with
            | [] => []
            | c :: cs' => map_text f (pre ++ [i]) c :: go (S i) cs'
            end) 0 cs)
  end.

Fixpoint map_texts_from (f : Path -> str -> str) (i : nat) (cs : list Node)
    : list Node :=
  match cs with
  | [] => []
  | c :: cs' => map_text f [i] c :: map_texts_from f (S i) cs'
  end.

(** Where a point goes when the text from [s] to [en] is removed. *)
Definition move_point (s en : Point) (p : Point) : Point :=
  if Path_equals (path p) (path en) && Nat.leb (offset en) (offset p) then
    if Path_equals (path s) (path en)
    then MkPoint (path p) (offset p - (offset en - offset s))
    else MkPoint (path p) (offset p - offset en)
  else
    match Point_compare s p, Point_compare p en with
    | Gt, _ => p
    | _, Gt => p
    | _, _ => s
    end.

(** [Transforms.delete(editor, { at: range })] *)
Definition delete_at (r : Range) (e : Editor) : Editor :=
  let (s, en) := Range_edges r in
  let cs :=
    if Path_equals (path s) (path en) then
      splice (fun n => match n with
                       | Text t m => [Text (uncovered s en (path s) t) m]
                       | Element _ _ _ => [n]
                       end) (children e) (path s)
    else
      map_texts_from (fun p t => if in_span s en p then uncovered s en p t else t)
        0 (children e) in
  MkEditor cs (option_map (map_range (move_point s en)) (selection e)) (marks e).

(** [Transforms.delete(editor)]: the selected range; with a collapsed
    selection, the character after the caret in its leaf. *)
Definition delete (e : Editor) : Editor :=
  match selection e with
  | None => e
  | Some r =>
      if Range_isCollapsed r then
        match get (children e) (path (anchor r)) with
        | Some (Text t _) =>
            if Nat.ltb (offset (anchor r)) (List.length t)
            then delete_at (MkRange (anchor r)
                              (MkPoint (path (anchor r)) (S (offset (anchor r))))) e
            else e
        | _ => e
        end
      else delete_at r e
  end.

Definition set_type (ty : string) (n : Node) : list Node :=
  match n with
  | Element _ u cs => [Element ty u cs]
  | Text _ _ => [n]
  end.

(** [Transforms.setNodes(editor, { type }, { match: isBlock })], which is
    also [Transforms.setNodes(editor, { type })]: without a [match]
    option and at a range Slate matches the blocks.  The lowest block
    around the selection gets the type. *)
Definition setNodes_type (ty : string) (e : Editor) : Editor :=
  match above isBlock e with
  | Some (_, q) => MkEditor (splice (set_type ty) (children e) q) (selection e) (marks e)
  | None => e
  end.

Definition isListItem (n : Node) : bool :=
  match n with
  | Element ty _ _ => String.eqb ty "list-item"
  | Text _ _ => false
  end.

(** A point below [q] once the node at [q] has a new parent at [q]. *)
Definition push_down (q : Path) (p : Point) : Point :=
  if Path_isPrefix q (path p)
  then MkPoint (q ++ 0 :: skipn (List.length q) (path p)) (offset p)
  else p.

(** [Transforms.wrapNodes(editor, { type: listType, children: [] },
    { match: list-item })]: the lowest list-item around the selection
    becomes the only child of a new element of type [listType]. *)
Definition wrapNodes_list (listType : string) (e : Editor) : Editor :=
  match above isListItem e with
  | Some (_, q) =>
      MkEditor (splice (fun n => [Element listType None [n]]) (children e) q)
               (option_map (map_range (push_down q)) (selection e)) (marks e)
  | None => e
  end.

(** *** Splitting a leaf *)

Fixpoint Path_next (p : Path) : Path :=
  match p with
  | [] => []
  | [i] => [S i]
  | i :: p' => i :: Path_next p'
  end.

(** Apply [g] to the index a path has among the siblings of [leaf]. *)
Fixpoint reindex (leaf : Path) (g : nat -> nat) (p : Path) : Path :=
  match leaf, p with
  | [_], j :: p' => g j :: p'
  | i :: leaf', j :: p' => if Nat.eqb i j then j :: reindex leaf' g p' else p
  | _, _ => p
  end.

Definition last_index (p : Path) : nat := last p 0.

(** Where a point goes when the leaf at [leaf] is split at [pos]: at or
    after the position it moves into the new leaf, later siblings move
    one to the right. *)
Definition split_point (leaf : Path) (pos : nat) (pt : Point) : Point :=
  if Path_equals (path pt) leaf then
    if Nat.leb pos (offset pt)
    then MkPoint (Path_next leaf) (offset pt - pos)
    else pt
  else
    MkPoint (reindex leaf (fun j => if Nat.ltb (last_index leaf) j then S j else j)
               (path pt)) (offset pt).

(** Slate splits a leaf at a point only if the point is not at an edge
    of the leaf. *)
Definition inside (pos len : nat) : bool := Nat.ltb 0 pos && Nat.ltb pos len.

(** The pieces of the leaf [Text t m] for the offsets [lo] to [hi]:
    what comes before (if any), the middle, what comes after (if any). *)
Record Pieces : Type := MkPieces {
  before : option str;
  middle : str;
  after : option str
}.

Definition cut (lo hi : nat) (t : str) : Pieces :=
  let split_hi := inside hi (List.length t) in
  let t1 := if split_hi then firstn hi t else t in
  let split_lo := inside lo (List.length t1) in
  MkPieces (if split_lo then Some (firstn lo t1) else None)
           (if split_lo then skipn lo t1 else t1)
           (if split_hi then Some (skipn hi t) else None).

Definition opt_leaf (o : option str) (m : Marks) : list Node :=
  match o with Some t => [Text t m] | None => [] end.

Definition cut_points (leaf : Path) (lo hi : nat) (t : str) (pt : Point) : Point :=
  let c := cut lo hi t in
  let pt1 := match after c with Some _ => split_point leaf hi pt | None => pt end in
  match before c with Some _ => split_point leaf lo pt1 | None => pt1 end.

(** The path of the middle piece. *)
Definition middle_path (leaf : Path) (lo hi : nat) (t : str) : Path :=
  match before (cut lo hi t) with Some _ => Path_next leaf | None => leaf end.

(** [Transforms.setNodes(editor, { [k]: v }, { at: range, match: Text.isText,
    split: true })] for a range inside one leaf: the leaf is split at
    the edges of the range and the middle piece gets the property.
    The pieces stay apart, which is what Slate leaves when the leaf did
    not have the property before: pieces with equal marks it would
    merge again. *)
Definition setNodes_mark (k : Mark) (v : bool) (r : Range) (e : Editor) : Editor :=
  let (s, en) := Range_edges r in
  if Path_equals (path s) (path en) then
    match get (children e) (path s) with
    | Some (Text t m) =>
        let c := cut (offset s) (offset en) t in
        MkEditor
          (splice (fun _ => opt_leaf (before c) m
                            ++ [Text (middle c) (set_mark k v m)]
                            ++ opt_leaf (after c) m)
                  (children e) (path s))
          (option_map (map_range (cut_points (path s) (offset s) (offset en) t))
                      (selection e))
          (marks e)
    | _ => e
    end
  else e.

(** The text leaf before [p] in document order. *)
Fixpoint prev_text (p : Path) (l : list (Path * (str * Marks)))
    (acc : option (Path * Marks)) : option (Path * Marks) :=
  match l with
  | [] => acc
  | (q, (_, m)) :: l' =>
      match Path_compare q p with
      | Lt => prev_text p l' (Some (q, m))
      | _ => acc
      end
  end.

Definition leaf_marks (e : Editor) (p : Path) : Marks :=
  match get (children e) p with
  | Some (Text _ m) => m
  | _ => no_marks
  end.

(** [Editor.marks(editor)]: the pending marks if there are any, else the
    marks of the leaf at the selection; a caret at offset 0 takes the
    marks of the leaf before it in its block. *)
Definition Editor_marks (e : Editor) : option Marks :=
  match selection e with
  | None => None
  | Some r =>
      match marks e with
      | Some m => Some m
      | None =>
          if Range_isCollapsed r then
            let here := leaf_marks e (path (anchor r)) in
            if Nat.eqb (offset (anchor r)) 0 then
              match prev_text (path (anchor r)) (texts (children e)) None,
                    above isBlock e with
              | Some (q, m), Some (_, b) =>
                  if Path_isPrefix b q then Some m else Some here
              | _, _ => Some here
              end
            else Some here
          else Some (leaf_marks e (path (fst (Range_edges r))))
      end
  end.

(** [Editor.removeMark(editor, k)]: with a caret, the pending marks
    become the current marks without [k]; with an expanded selection the
    property is unset on the selected text. *)
Definition removeMark (k : Mark) (e : Editor) : Editor :=
  match selection e with
  | None => e
  | Some r =>
      if Range_isCollapsed r then
        MkEditor (children e) (selection e)
          (Some (set_mark k false
                   (match Editor_marks e with Some m => m | None => no_marks end)))
      else setNodes_mark k false r e
  end.

(** *** Wrapping a range of a leaf in an inline element *)

Definition isInlineNode (n : Node) : bool :=
  match n with
  | Element ty _ _ => isInline ty
  | Text _ _ => false
  end.

Definition isTextNode (n : Node) : bool :=
  match n with
  | Text _ _ => true
  | Element _ _ _ => false
  end.

(** Slate keeps an inline element between two text leaves: it adds an
    empty leaf before an inline that has no text leaf before it, and
    after an inline that is the last child. *)
Fixpoint surround (prev_text : bool) (cs : list Node) : list Node :=
  match cs with
  | [] => []
  | c :: cs' =>
      if isInlineNode c then
        (if prev_text then [] else [Text [] no_marks])
        ++ c :: match cs' with
                | [] => [Text [] no_marks]
                | _ :: _ => surround false cs'
                end
      else c :: surround (isTextNode c) cs'
  end.

(** The index the [i]-th child has after [surround]. *)
Fixpoint surround_index (prev_text : bool) (cs : list Node) (i : nat) : nat :=
  match cs with
  | [] => i
  | c :: cs' =>
      let ins := if isInlineNode c && negb prev_text then 1 else 0 in
      match i with
      | 0 => ins
      | S i' => ins + S (surround_index (isTextNode c) cs' i')
      end
  end.

Definition children_at (cs : list Node) (p : Path) : list Node :=
  match p with
  | [] => cs
  | _ :: _ =>
      match get cs p with
      | Some (Element _ _ k) => k
      | _ => []
      end
  end.

Definition map_children (f : list Node -> list Node) (cs : list Node) (p : Path)
    : list Node :=
  match p with
  | [] => f cs
  | _ :: _ =>
      splice (fun n => match n with
                       | Element ty u k => [Element ty u (f k)]
                       | Text _ _ => [n]
                       end) cs p
  end.

(** [Transforms.wrapNodes(editor, { type: 'link', url, children: [] },
    { at: range, split: true })] for a range inside one leaf: the leaf is
    split at the edges of the range and the middle piece becomes the
    only child of the new link. *)
Definition wrapNodes_link (url : str) (r : Range) (e : Editor) : Editor :=
  let (s, en) := Range_edges r in
  if Path_equals (path s) (path en) then
    match get (children e) (path s) with
    | Some (Text t m) =>
        let leaf := path s in
        let c := cut (offset s) (offset en) t in
        let cs1 :=
          splice (fun _ => opt_leaf (before c) m
                           ++ [Element "link" (Some url) [Text (middle c) m]]
                           ++ opt_leaf (after c) m)
                 (children e) leaf in
        let parent := removelast leaf in
        let sibs := children_at cs1 parent in
        MkEditor
          (map_children (surround false) cs1 parent)
          (option_map
             (map_range (fun pt =>
                let pt1 := cut_points leaf (offset s) (offset en) t pt in
                let pt2 := push_down (middle_path leaf (offset s) (offset en) t) pt1 in
                MkPoint (reindex leaf (surround_index false sibs) (path pt2))
                        (offset pt2)))
             (selection e))
          (marks e)
    | _ => e
    end
  else e.

(** *** The methods of a plain Slate editor *)

Definition insert_point (leaf : Path) (pos len : nat) (pt : Point) : Point :=
  if Path_equals (path pt) leaf && Nat.leb pos (offset pt)
  then MkPoint leaf (offset pt + len)
  else pt.

(** [editor.insertText(text)] of a plain Slate editor: an expanded
    selection is deleted first; the text goes into the leaf at the caret,
    or, under pending marks that differ from the leaf's, into a leaf of
    its own; the pending marks are cleared. *)
Definition insertText (text : str) (e : Editor) : Editor :=
  match selection e with
  | None => e
  | Some r =>
      let e1 := if Range_isCollapsed r then e else delete_at r e in
      match selection e1 with
      | None => e1
      | Some r1 =>
          let a := fst (Range_edges r1) in
          match get (children e1) (path a) with
          | Some (Text t m) =>
              let o := offset a in
              let own :=
                match marks e with
                | Some pm => if marks_eqb pm m then None else Some pm
                | None => None
                end in
              match own with
              | None =>
                  MkEditor
                    (splice (fun _ => [Text (firstn o t ++ text ++ skipn o t) m])
                            (children e1) (path a))
                    (Some (map_range (insert_point (path a) o (List.length text)) r1))
                    None
              | Some pm =>
                  let bef := if Nat.ltb 0 o then [Text (firstn o t) m] else [] in
                  let aft := if Nat.ltb o (List.length t) then [Text (skipn o t) m] else [] in
                  let here := if Nat.ltb 0 o then Path_next (path a) else path a in
                  let caret := MkPoint here (List.length text) in
                  MkEditor
                    (splice (fun _ => bef ++ [Text text pm] ++ aft)
                            (children e1) (path a))
                    (Some (MkRange caret caret))
                    None
              end
          | _ => e1
          end
      end
  end.

(** [editor.deleteBackward(unit)] of a plain Slate editor deletes only
    with a caret; modelled for a caret inside a leaf, where it removes
    the character before the caret. *)
Definition deleteBackward (e : Editor) : Editor :=
  match selection e with
  | None => e
  | Some r =>
      if Range_isCollapsed r && Nat.ltb 0 (offset (anchor r)) then
        delete_at (MkRange (MkPoint (path (anchor r)) (offset (anchor r) - 1))
                           (anchor r)) e
      else e
  end.

End Slate.

(* ------------------------------------------------------------------ *)
(** ** The plugin *)

Module AutoMarkdown.
Import Js Slate.

Record BlockShortcut : Type := MkBlock {
  b_match : regex;
  b_type : string;
  b_listType : option string
}.

(** The head of every inline pattern, a non-capturing group: the start
    of the text or a white space character. *)
Definition bow : regex := Alt Bol (Class is_space).

Definition BLOCK_SHORTCUTS : list BlockShortcut := [
  (* line 13: a star, a minus or a plus, alone *)
  MkBlock (seq [Bol; Group 1 (Alt (Chr c_star) (Alt (Chr c_minus) (Chr c_plus))); Eol])
          "list-item" (Some "bulleted-list"%string);
  (* line 14: one or more digits and a dot, alone *)
  MkBlock (seq [Bol; Group 1 (Seq (Plus is_digit) (Chr c_dot)); Eol])
          "list-item" (Some "numbered-list"%string);
  (* line 15 *)
  MkBlock (seq [Bol; Chr c_gt; Eol]) "block-quote" None;
  (* line 16 *)
  MkBlock (seq [Bol; Chr c_hash; Eol]) "heading-one" None;
  (* line 17 *)
  MkBlock (seq [Bol; Chr c_hash; Chr c_hash; Eol]) "heading-two" None;
  (* line 18 *)
  MkBlock (seq [Bol; Chr c_hash; Chr c_hash; Chr c_hash; Eol]) "heading-three" None
].

Inductive InlineType : Type := bold_ | italic_ | code_ | link_.

Record InlineShortcut : Type := MkInline {
  i_match : regex;
  i_type : InlineType
}.

Definition INLINE_SHORTCUTS : list InlineShortcut := [
  (* line 22, bold: the head, two stars, one or more non-stars, two stars *)
  MkInline (seq [bow; Group 1 (Seq (Chr c_star) (Chr c_star));
                 Group 2 (Plus (is_not c_star));
                 Group 3 (Seq (Chr c_star) (Chr c_star))]) bold_;
  (* line 23, bold: the head, two underscores, one or more
     non-underscores, two underscores *)
  MkInline (seq [bow; Group 1 (Seq (Chr c_under) (Chr c_under));
                 Group 2 (Plus (is_not c_under));
                 Group 3 (Seq (Chr c_under) (Chr c_under))]) bold_;
  (* line 24, italic: the head, a star, one or more non-stars, a star *)
  MkInline (seq [bow; Group 1 (Chr c_star); Group 2 (Plus (is_not c_star));
                 Group 3 (Chr c_star)]) italic_;
  (* line 25, italic: the head, an underscore, one or more
     non-underscores, an underscore *)
  MkInline (seq [bow; Group 1 (Chr c_under); Group 2 (Plus (is_not c_under));
                 Group 3 (Chr c_under)]) italic_;
  (* line 26, code: the head, a backtick, one or more of any character
     but a line terminator, a backtick *)
  MkInline (seq [bow; Group 1 (Chr c_tick); Group 2 (Plus is_dot);
                 Group 3 (Chr c_tick)]) code_;
  (* line 27, link: the head, an opening bracket, [.+], a closing bracket
     and an opening parenthesis, [.+], a closing parenthesis *)
  MkInline (seq [bow; Group 1 (Chr c_lbrack); Group 2 (Plus is_dot);
                 Group 3 (Seq (Chr c_rbrack) (Chr c_lparen));
                 Group 4 (Plus is_dot); Group 5 (Chr c_rparen)]) link_
].

(** The property [{ [type]: true }] names, for the three mark types. *)
Definition mark_of (ty : InlineType) : option Mark :=
  match ty with
  | bold_ => Some Bold
  | italic_ => Some Italic
  | code_ => Some Code
  | link_ => None
  end.

(** Deletes [length] characters at the specified path and offset. *)
Definition deleteText (path : Path) (offset length : nat) (editor : Editor)
    : Editor :=
  let anchorOffset := offset - length in
  if Nat.eqb anchorOffset offset then editor
  else delete_at (MkRange (MkPoint path anchorOffset) (MkPoint path offset)) editor.

Section WithAutoMarkdown.

(** The methods the plugin captures from the editor it wraps:
    [const { deleteBackward, insertText } = editor].  The arguments of
    [deleteBackward] (the unit to delete) are passed on as they come and
    are left out here. *)
Variable insertText0 : str -> Editor -> Editor.
Variable deleteBackward0 : Editor -> Editor.

(** The body of the loop over [BLOCK_SHORTCUTS] once a shortcut matched. *)
Definition apply_block (shortcut : BlockShortcut) (beforeRange : Range)
    (editor : Editor) : Editor :=
  let type := b_type shortcut in
  let e1 := select beforeRange editor in
  let e2 := delete e1 in
  let e3 := setNodes_type type e2 in
  if String.eqb type "list-item" then
    wrapNodes_list (match b_listType shortcut with Some t => t | None => ""%string end) e3
  else e3.

(** [for (const shortcut of BLOCK_SHORTCUTS)]: the first shortcut whose
    pattern matches [beforeText] is applied and the method returns;
    [None] when the loop ends without a match. *)
Fixpoint block_loop (table : list BlockShortcut) (beforeText : str)
    (beforeRange : Range) (editor : Editor) : option Editor :=
  match table with
  | [] => None
  | shortcut :: table' =>
      match match_ beforeText (b_match shortcut) with
      | Some _ => Some (apply_block shortcut beforeRange editor)
      | None => block_loop table' beforeText beforeRange editor
      end
  end.

(** The branch [type === 'bold' || type === 'italic' || type === 'code']. *)
Definition apply_mark (k : Mark) (res : result) (anchor : Point)
    (editor : Editor) : Editor :=
  let selectionPath := path anchor in
  let endOfSelection := offset anchor in
  let startMark := group res 1 in
  let textToFormat := group res 2 in
  let endMark := group res 3 in
  let endMarkLength := List.length endMark - 1 in
  let e1 := deleteText selectionPath endOfSelection endMarkLength editor in
  let endOfSelection := endOfSelection - endMarkLength in
  let e2 := deleteText selectionPath (endOfSelection - List.length textToFormat)
              (List.length startMark) e1 in
  let endOfSelection := endOfSelection - List.length startMark in
  let textToFormatRange :=
    MkRange (MkPoint selectionPath endOfSelection)
            (MkPoint selectionPath (endOfSelection - List.length textToFormat)) in
  let e3 := setNodes_mark k true textToFormatRange e2 in
  removeMark k e3.

(** The branch [type === 'link']. *)
Definition apply_link (res : result) (anchor : Point) (editor : Editor)
    : Editor :=
  let selectionPath := path anchor in
  let endOfSelection := offset anchor in
  let startMark := group res 1 in
  let linkText := group res 2 in
  let middleMark := group res 3 in
  let linkUrl := group res 4 in
  let endMark := group res 5 in
  let endMarkLength := List.length endMark - 1 in
  let endLength := List.length middleMark + List.length linkUrl + endMarkLength in
  let e1 := deleteText selectionPath endOfSelection endLength editor in
  let endOfSelection := endOfSelection - endLength in
  let e2 := deleteText selectionPath (endOfSelection - List.length linkText)
              (List.length startMark) e1 in
  let endOfSelection := endOfSelection - List.length startMark in
  let linkTextRange :=
    MkRange (MkPoint selectionPath endOfSelection)
            (MkPoint selectionPath (endOfSelection - List.length linkText)) in
  wrapNodes_link linkUrl linkTextRange e2.

(** [for (const { match, type } of INLINE_SHORTCUTS)]: a shortcut whose
    pattern does not match is skipped; the first that matches is applied
    and the method returns; after the loop the text is inserted. *)
Fixpoint inline_loop (table : list InlineShortcut) (elementText text : str)
    (anchor : Point) (editor : Editor) : Editor :=
  match table with
  | [] => insertText0 text editor
  | shortcut :: table' =>
      match match_ elementText (i_match shortcut) with
      | None => inline_loop table' elementText text anchor editor
      | Some res =>
          match mark_of (i_type shortcut) with
          | Some k => apply_mark k res anchor editor
          | None => apply_link res anchor editor
          end
      end
  end.

(** The text from the start of the caret's block to the caret, and the
    range it spans. *)
Definition before_range (editor : Editor) (anchor : Point) : Range :=
  let block := above isBlock editor in
  let path := match block with Some (_, p) => p | None => [] end in
  let lineStart := start editor path in
  MkRange anchor lineStart.

(** The text from the start of the caret's leaf to the caret, plus the
    text about to be inserted. *)
Definition element_text (editor : Editor) (anchor : Point) (text : str) : str :=
  let elementStart := start editor (path anchor) in
  let elementRange := MkRange anchor elementStart in
  string_ editor elementRange ++ text.

(** [editor.insertText = (text) => ...] *)
Definition insertText (text : str) (editor : Editor) : Editor :=
  match selection editor with
  | None => insertText0 text editor
  | Some selection =>
      if negb (Range_isCollapsed selection) then insertText0 text editor
      else
        let anchor := anchor selection in
        let handled :=
          if str_eqb text [c_space] then
            let beforeRange := before_range editor anchor in
            let beforeText := string_ editor beforeRange in
            block_loop BLOCK_SHORTCUTS beforeText beforeRange editor
          else None in
        match handled with
        | Some editor' => editor'
        | None =>
            inline_loop INLINE_SHORTCUTS (element_text editor anchor text)
              text anchor editor
        end
  end.

(** The test of the [if] inside [deleteBackward]: the block is an
    element that is neither a paragraph nor a list item and the caret is
    at its start. *)
Definition outdents (editor : Editor) (selection : Range)
    (block : Node) (path : Path) : bool :=
  match block with
  | Element ty _ _ =>
      negb (String.eqb ty "paragraph") && negb (String.eqb ty "list-item")
      && Point_equals (anchor selection) (start editor path)
  | Text _ _ => false
  end.

(** [editor.deleteBackward = (...args) => ...] *)
Definition deleteBackward (editor : Editor) : Editor :=
  match selection editor with
  | Some selection =>
      if Range_isCollapsed selection then
        match above isBlock editor with
        | Some (block, path) =>
            if outdents editor selection block path
            then setNodes_type "paragraph" editor
            else deleteBackward0 editor
        | None => deleteBackward0 editor
        end
      else editor
  | None => editor
  end.

End WithAutoMarkdown.

End AutoMarkdown.

(* ------------------------------------------------------------------ *)
(** ** The shape of a pattern *)

Module Shape.
Import Js.

(** [heads d r]: a match of [r] starts by consuming the character [d]. *)
Fixpoint heads (d : char) (r : regex) : bool :=
  match r with
  | Chr c => char_eqb c d
  | Seq r1 _ => heads d r1
  | Group _ r1 => heads d r1
  | _ => false
  end.

(** [min_count d r]: a match of [r] consumes the character [d] at
    least that many times. *)
Fixpoint min_count (d : char) (r : regex) : nat :=
  match r with
  | Chr c => if char_eqb c d then 1 else 0
  | Seq r1 r2 => min_count d r1 + min_count d r2
  | Alt r1 r2 => Nat.min (min_count d r1) (min_count d r2)
  | Group _ r1 => min_count d r1
  | _ => 0
  end.

(** The occurrences of [d] in a string. *)
Fixpoint count (d : char) (s : str) : nat :=
  match s with
  | [] => 0
  | c :: s' => (if char_eqb c d then 1 else 0) + count d s'
  end.

(** [ends_eol r]: a match of [r] ends on the assertion [$]. *)
Fixpoint ends_eol (r : regex) : bool :=
  match r with
  | Eol => true
  | Seq _ r2 => ends_eol r2
  | Group _ r1 => ends_eol r1
  | _ => false
  end.

(** [starts_bol r]: a match of [r] starts on the assertion [^]. *)
Definition starts_bol (r : regex) : bool :=
  match r with
  | Seq Bol _ => true
  | _ => false
  end.


(** The matcher state [y] is [x] moved forward in the same input. *)
Definition reaches (x y : mstate) : Prop :=
  m_index y + List.length (m_rest y) = m_index x + List.length (m_rest x).


Definition is_some {A : Type} (o : option A) : bool :=
  match o with Some _ => true | None => false end.

(** The literal [d], once or twice. *)
Definition lits (n : nat) (d : char) : regex :=
  match n with
  | 2 => Seq (Chr d) (Chr d)
  | _ => Chr d
  end.

(** The emphasis and code patterns of [INLINE_SHORTCUTS]: the head, the
    delimiter, one or more characters of a class, the delimiter. *)
Definition em_body (n : nat) (d : char) (p : char -> bool) : regex :=
  Seq (Group 1 (lits n d)) (Seq (Group 2 (Plus p)) (Group 3 (lits n d))).

Definition em (n : nat) (d : char) (p : char -> bool) : regex :=
  Seq AutoMarkdown.bow (em_body n d p).

(** The link pattern of [INLINE_SHORTCUTS]. *)
Definition link_body : regex :=
  Seq (Group 1 (Chr c_lbrack))
    (Seq (Group 2 (Plus is_dot))
       (Seq (Group 3 (Seq (Chr c_rbrack) (Chr c_lparen)))
          (Seq (Group 4 (Plus is_dot)) (Group 5 (Chr c_rparen))))).

Definition link_re : regex := Seq AutoMarkdown.bow link_body.

Fixpoint repeat_char (n : nat) (d : char) : str :=
  match n with
  | 0 => []
  | S n' => d :: repeat_char n' d
  end.

(** A line is calm for the delimiter [d] when it has fewer than two
    [d], or starts its [d]s with a pair followed by fewer than two. *)
Definition calm (d : char) (E : str) : Prop :=
  count d E < 2
  \/ exists P tail, E = P ++ d :: d :: tail /\ ~ In d P /\ count d tail < 2.

End Shape.

(* ------------------------------------------------------------------ *)
(** ** Editing sessions

    The plugin installed on a plain Slate editor, keystrokes one at a
    time, and the documents the properties below speak about. *)

Module Session.
Import Js Slate.

(** The two methods of [withAutoMarkdown(editor)] for a plain editor. *)
Definition insertText : str -> Editor -> Editor :=
  AutoMarkdown.insertText Slate.insertText.

Definition deleteBackward : Editor -> Editor :=
  AutoMarkdown.deleteBackward Slate.deleteBackward.

(** One [insertText] call per character, in order. *)
Fixpoint type_keys (keys : str) (e : Editor) : Editor :=
  match keys with
  | [] => e
  | c :: keys' => type_keys keys' (insertText [c] e)
  end.

(** A collapsed selection. *)
Definition caret (p : Path) (o : nat) : Range :=
  MkRange (MkPoint p o) (MkPoint p o).

Definition plain (t : str) : Node := Text t no_marks.

Definition paragraph (cs : list Node) : Node := Element "paragraph" None cs.

(** An editor on a document whose only block is a paragraph with one
    plain leaf, the caret at the end of its text. *)
Definition one_paragraph (t : str) : Editor :=
  MkEditor [paragraph [plain t]] (Some (caret [0; 0] (List.length t))) None.

(** A document with the block [blk] between the blocks [above] and
    [below], and the caret at offset [o] of the block's first child. *)
Definition around (above below : list Node) (blk : Node) (o : nat)
    (pending : option Marks) : Editor :=
  MkEditor (above ++ blk :: below)
           (Some (caret [List.length above; 0] o)) pending.

(** The same with a block whose only child is the leaf [Text T m]. *)
Definition line (above below : list Node) (ty : string) (u : option str)
    (T : str) (m : Marks) (o : nat) (pending : option Marks) : Editor :=
  around above below (Element ty u [Text T m]) o pending.

(** The leaves of a block once the text [I] at the end of its leaf
    [P ++ I] carries a mark. *)
Definition marked_leaves (P I : str) (m : Marks) (k : Mark) : list Node :=
  match P with
  | [] => [Text I (set_mark k true m)]
  | _ :: _ => [Text P m; Text I (set_mark k true m)]
  end.

Definition marked_index (P : str) : nat :=
  match P with [] => 0 | _ :: _ => 1 end.

(** The editor a block shortcut leaves behind on a block that held
    nothing but the trigger: the block, emptied, has the new type, and a
    list item sits in a new container; the caret is at the start of the
    leaf. *)
Definition block_result (above below : list Node) (type : string)
    (listType : option string) (u : option str) (m : Marks) : Editor :=
  if String.eqb type "list-item" then
    MkEditor
      (above ++ Element (match listType with Some t => t | None => ""%string end) None
                  [Element type u [Text [] m]] :: below)
      (Some (caret [List.length above; 0; 0] 0)) None
  else
    MkEditor (above ++ Element type u [Text [] m] :: below)
             (Some (caret [List.length above; 0] 0)) None.

(** The leaves of a block once the text [t] at the end of its leaf
    [P ++ t] is the child of a link: Slate keeps a text leaf on either
    side of the link, empty if need be. *)
Definition link_leaves (P t url : str) (m : Marks) : list Node :=
  match P with
  | [] => [Text [] no_marks]
  | _ :: _ => [Text P m]
  end ++ [Element "link" (Some url) [Text t m]; Text [] no_marks].

(** The characters the shortcut tables treat as markdown punctuation. *)
Definition is_delimiter (c : char) : bool :=
  char_eqb c c_star || char_eqb c c_under || char_eqb c c_tick
  || char_eqb c c_lbrack || char_eqb c c_rbrack
  || char_eqb c c_lparen || char_eqb c c_rparen.

Definition no_delimiter (t : str) : bool := forallb (fun c => negb (is_delimiter c)) t.

(** The emphasis and code rules of the inline table: the delimiter and
    the mark. *)
Definition emphasis_rules : list (str * Mark) :=
  [ (lit "**", Bold); (lit "__", Bold); (lit "*", Italic); (lit "_", Italic);
    (lit "`", Code) ].

(** The text before a shortcut lets an inline pattern start there: it is
    empty, or its last character is white space. *)
Definition opens_word (t : str) : bool :=
  match rev t with
  | [] => true
  | c :: _ => is_space c
  end.

(** The type of the first entry of [INLINE_SHORTCUTS] whose pattern
    matches, with the match: the entry the loop of [insertText] stops
    at. *)
Fixpoint inline_resolve (table : list AutoMarkdown.InlineShortcut) (elementText : str)
    : option (AutoMarkdown.InlineType * result) :=
  match table with
  | [] => None
  | shortcut :: table' =>
      match match_ elementText (AutoMarkdown.i_match shortcut) with
      | Some res => Some (AutoMarkdown.i_type shortcut, res)
      | None => inline_resolve table' elementText
      end
  end.

(** The type and the list type of the first entry of
    [BLOCK_SHORTCUTS] whose pattern matches. *)
Fixpoint block_resolve (table : list AutoMarkdown.BlockShortcut) (beforeText : str)
    : option (string * option string) :=
  match table with
  | [] => None
  | shortcut :: table' =>
      match match_ beforeText (AutoMarkdown.b_match shortcut) with
      | Some _ => Some (AutoMarkdown.b_type shortcut, AutoMarkdown.b_listType shortcut)
      | None => block_resolve table' beforeText
      end
  end.

(** *** The block triggers, as the specification lists them *)

(** One or more digits, then a dot, then nothing. *)
Fixpoint digits_dot_from (seen : bool) (T : str) : bool :=
  match T with
  | [] => false
  | c :: T' =>
      if is_digit c then digits_dot_from true T'
      else seen && char_eqb c c_dot && match T' with [] => true | _ :: _ => false end
  end.

Definition digits_dot (T : str) : bool := digits_dot_from false T.

(** The specification's block table, read as a function of the whole
    line prefix: [*], [-] or [+] give a list item in a bulleted list,
    digits and a dot a list item in a numbered list, [>] a block quote,
    one to three [#] a heading. *)
Definition trigger_of (T : str) : option (string * option string) :=
  if str_eqb T (lit "*") || str_eqb T (lit "-") || str_eqb T (lit "+")
  then Some ("list-item"%string, Some "bulleted-list"%string)
  else if digits_dot T then Some ("list-item"%string, Some "numbered-list"%string)
  else if str_eqb T (lit ">") then Some ("block-quote"%string, None)
  else if str_eqb T (lit "#") then Some ("heading-one"%string, None)
  else if str_eqb T (lit "##") then Some ("heading-two"%string, None)
  else if str_eqb T (lit "###") then Some ("heading-three"%string, None)
  else None.

(** The characters a trigger is made of. *)
Definition is_trigger_char (c : char) : bool :=
  char_eqb c c_star || char_eqb c c_minus || char_eqb c c_plus
  || char_eqb c c_gt || char_eqb c c_hash || char_eqb c c_dot || is_digit c.

(** *** Documents and methods used as examples *)

(** A heading between two paragraphs, the caret at its start. *)
Definition heading_doc : Editor :=
  around [paragraph [plain (lit "above")]] [paragraph [plain (lit "below")]]
         (Element "heading-one" None [plain (lit "Title")]) 0 None.

(** The same document with no selection, and with the word [Title]
    selected. *)
Definition unfocused_doc : Editor :=
  MkEditor (children heading_doc) None None.

Definition selected_doc : Editor :=
  MkEditor (children heading_doc)
           (Some (MkRange (MkPoint [1; 0] 0) (MkPoint [1; 0] 5))) None.

(** A method an editor may carry in place of the default deletion,
    which leaves a trace whenever it is called: it empties the
    document. *)
Definition wipe (e : Editor) : Editor := MkEditor [] (selection e) (marks e).

(** Whether the deletion interceptor takes its outdent branch. *)
Definition outdent_applies (e : Editor) : bool :=
  match selection e with
  | Some sel =>
      Range_isCollapsed sel &&
      match above isBlock e with
      | Some (block, p) => AutoMarkdown.outdents e sel block p
      | None => false
      end
  | None => false
  end.

(** A session that leaves a complete bold pattern in committed text:
    type [a** b], put the caret at the start of the line, type two
    stars, put the caret back at the end of the line. *)
Definition stale_pattern_doc : Editor :=
  select (caret [0; 0] 7)
    (type_keys (lit "**")
       (select (caret [0; 0] 0)
          (type_keys (lit "a** b") (one_paragraph [])))).

(** *** Keys and lines outside the scenarios above *)

(** The characters an inline pattern ends with. *)
Definition is_closer (c : char) : bool :=
  char_eqb c c_star || char_eqb c c_under || char_eqb c c_tick
  || char_eqb c c_rparen.

(** The characters an inline pattern starts with, after its head. *)
Definition is_opener (c : char) : bool :=
  char_eqb c c_star || char_eqb c c_under || char_eqb c c_tick
  || char_eqb c c_lbrack.

(** [endMark]: the third group of an emphasis or code match, the fifth
    of a link match. *)
Definition end_mark (ty : AutoMarkdown.InlineType) (res : result) : str :=
  match AutoMarkdown.mark_of ty with
  | Some _ => group res 3
  | None => group res 5
  end.

(** Keys typed after the text [L] none of which ends an inline pattern
    and none of which is a space typed right after a block trigger. *)
Fixpoint ordinary_keys (L K : str) : bool :=
  match K with
  | [] => true
  | c :: K' =>
      negb (is_closer c)
      && negb (char_eqb c c_space && Shape.is_some (trigger_of L))
      && ordinary_keys (L ++ [c]) K'
  end.

(** The first character of a text is one an inline pattern starts
    with. *)
Definition starts_with_opener (E : str) : bool :=
  match E with
  | c :: _ => is_opener c
  | [] => false
  end.

Definition no_space (E : str) : bool := forallb (fun c => negb (is_space c)) E.

(** The editor a block shortcut leaves behind on a block whose leaf held
    [rest] after the trigger and the caret: the block keeps [rest] and
    has the new type, a list item sits in a new container, and the caret
    is at the start of the leaf. *)
Definition block_result_with (above below : list Node) (type : string)
    (listType : option string) (u : option str) (rest : str) (m : Marks)
    : Editor :=
  if String.eqb type "list-item" then
    MkEditor
      (above ++ Element (match listType with Some t => t | None => ""%string end) None
                  [Element type u [Text rest m]] :: below)
      (Some (caret [List.length above; 0; 0] 0)) None
  else
    MkEditor (above ++ Element type u [Text rest m] :: below)
             (Some (caret [List.length above; 0] 0)) None.

(** The editor an emphasis shortcut leaves behind: the marked text [J]
    after the text [A], the caret at its end, and the mark off in the
    pending marks. *)
Definition after_emphasis (above below : list Node) (ty : string)
    (u : option str) (A J : str) (m : Marks) (k : Mark) : Editor :=
  MkEditor (above ++ Element ty u (marked_leaves A J m k) :: below)
    (Some (caret [List.length above; marked_index A] (List.length J)))
    (Some (set_mark k false (set_mark k true m))).

(** The leaves of a block once the text [t] in the middle of its leaf
    [P ++ t ++ R] is the child of a link. *)
Definition link_leaves_with (P t url : str) (m : Marks) (R : str) : list Node :=
  match P with
  | [] => [Text [] no_marks]
  | _ :: _ => [Text P m]
  end ++ [Element "link" (Some url) [Text t m]; Text R m].

(** Whether the marks [m] hold the mark [k]. *)
Definition carries (k : Mark) (m : Marks) : bool :=
  match k with
  | Bold => bold m
  | Italic => italic m
  | Code => code m
  end.

End Session.
(* ------------------------------------------------------------------ *)
(** ** Properties *)

Import Js Slate Shape AutoMarkdown Session.
Unset Implicit Arguments.

(** *** Lists *)

Lemma nth_error_split A (l : list A) i x :
  nth_error l i = Some x -> l = firstn i l ++ x :: skipn (S i) l.
Proof.
  revert l; induction i as [|i IH]; intros [|y l] H; simpl in *; try discriminate.
  - now inversion H.
  - f_equal. now apply IH.
Qed.

Lemma nth_error_middle A (l1 l2 : list A) x :
  nth_error (l1 ++ x :: l2) (List.length l1) = Some x.
Proof. induction l1; simpl; auto. Qed.

Lemma firstn_middle A (l1 l2 : list A) :
  firstn (List.length l1) (l1 ++ l2) = l1.
Proof. induction l1; simpl; [now destruct l2 | now f_equal]. Qed.

Lemma skipn_middle A (l1 l2 : list A) x :
  skipn (S (List.length l1)) (l1 ++ x :: l2) = l2.
Proof. induction l1; simpl; auto. Qed.

(** *** The text leaves of a document *)

Lemma texts_node_Element ty u cs :
  texts_node (Element ty u cs) = texts_from 0 cs.
Proof. reflexivity. Qed.

Lemma texts_from_app k a b :
  texts_from k (a ++ b) = texts_from k a ++ texts_from (k + List.length a) b.
Proof.
  revert k; induction a as [|c a IH]; intro k; simpl.
  - now rewrite Nat.add_0_r.
  - rewrite IH, <- app_assoc. do 3 f_equal. lia.
Qed.

Lemma splice_cons f cs i q n :
  nth_error cs i = Some n ->
  splice f cs (i :: q) =
  firstn i cs
  ++ match q, n with
     | [], _ => f n
     | _ :: _, Element ty u cs' => [Element ty u (splice f cs' q)]
     | _ :: _, Text _ _ => [n]
     end
  ++ skipn (S i) cs.
Proof. intro E. cbn [splice]. now rewrite E. Qed.

Lemma splice_none f cs i q :
  nth_error cs i = None -> splice f cs (i :: q) = cs.
Proof. intro E. cbn [splice]. now rewrite E. Qed.

(** Retyping a node keeps every text leaf, at its path. *)
Lemma texts_from_set_type ty q : forall cs k,
  texts_from k (splice (set_type ty) cs q) = texts_from k cs.
Proof.
  induction q as [|i q IH]; intros cs k; [reflexivity|].
  destruct (nth_error cs i) as [n|] eqn:E; [|now rewrite splice_none].
  rewrite (splice_cons _ _ _ _ _ E).
  transitivity (texts_from k (firstn i cs ++ n :: skipn (S i) cs));
    [|now rewrite <- (nth_error_split _ _ _ _ E)].
  change (n :: skipn (S i) cs) with ([n] ++ skipn (S i) cs).
  rewrite !texts_from_app. do 2 f_equal.
  - destruct q as [|j q].
    + destruct n; reflexivity.
    + destruct n as [t m|ty' u cs']; [reflexivity|].
      cbn [texts_from]. do 2 f_equal.
      rewrite !texts_node_Element. apply IH.
  - f_equal. f_equal.
    destruct q as [|j q]; destruct n; reflexivity.
Qed.

(** *** Retyping a block *)

Lemma lowest_sound f cs ps n q :
  lowest f cs ps = Some (n, q) -> get cs q = Some n /\ f n = true.
Proof.
  induction ps as [|p ps IH]; simpl; [discriminate|].
  destruct (get cs p) as [n'|] eqn:G; auto.
  destruct (f n') eqn:F; auto.
  intro H; inversion H; subst. auto.
Qed.

Lemma above_sound f e n q :
  above f e = Some (n, q) -> get (children e) q = Some n /\ f n = true.
Proof.
  unfold above. destruct (selection e); [apply lowest_sound | discriminate].
Qed.

Lemma firstn_length_nth A (l : list A) i x :
  nth_error l i = Some x -> List.length (firstn i l) = i.
Proof.
  intro H. apply firstn_length_le.
  apply Nat.lt_le_incl. apply nth_error_Some. now rewrite H.
Qed.

Lemma nth_error_replaced A (l : list A) i x y rest :
  nth_error l i = Some x ->
  nth_error (firstn i l ++ y :: rest) i = Some y.
Proof.
  intro H. rewrite nth_error_app2; rewrite (firstn_length_nth _ _ _ _ H); auto.
  now rewrite Nat.sub_diag.
Qed.

Lemma get_set_type ty q : forall cs ty0 u k,
  get cs q = Some (Element ty0 u k) ->
  get (splice (set_type ty) cs q) q = Some (Element ty u k).
Proof.
  induction q as [|i q IH]; intros cs ty0 u k; [discriminate|].
  cbn [get]. destruct (nth_error cs i) as [n|] eqn:E; [|discriminate].
  rewrite (splice_cons _ _ _ _ _ E).
  destruct q as [|j q].
  - intro H; inversion H; subst. cbn [set_type app].
    now rewrite (nth_error_replaced _ _ _ _ _ _ E).
  - destruct n as [t m|ty' u' cs']; [discriminate|].
    intro H. cbn [app]. rewrite (nth_error_replaced _ _ _ _ _ _ E).
    now apply IH with ty0.
Qed.

Lemma length_set_type ty q cs :
  List.length (splice (set_type ty) cs q) = List.length cs.
Proof.
  destruct q as [|i q]; [reflexivity|].
  destruct (nth_error cs i) as [n|] eqn:E; [|now rewrite splice_none].
  rewrite (splice_cons _ _ _ _ _ E).
  transitivity (List.length (firstn i cs ++ n :: skipn (S i) cs));
    [|now rewrite <- (nth_error_split _ _ _ _ E)].
  rewrite !length_app. f_equal.
  destruct q; destruct n; reflexivity.
Qed.

(** *** The matcher *)


Lemma char_eqb_eq a b : char_eqb a b = true <-> a = b.
Proof. apply N.eqb_eq. Qed.


Lemma run_heads A d r : forall x (k : cont A),
  heads d r = true ->
  (forall s, m_rest x <> d :: s) ->
  run r x k = None.
Proof.
  induction r; intros x k Hh Hx; simpl in *; try discriminate.
  - destruct (m_rest x) as [|c' s] eqn:E; auto.
    destruct (char_eqb c' c) eqn:Ec; auto.
    apply char_eqb_eq in Ec, Hh. subst. now elim (Hx s).
  - now apply IHr1.
  - now apply IHr.
Qed.

Lemma count_app d a b : count d (a ++ b) = count d a + count d b.
Proof. induction a; simpl; auto. rewrite IHa. lia. Qed.

Lemma plus_loop_count A d p s : forall i caps (k : cont A),
  (forall y, count d (m_rest y) <= count d s -> k y = None) ->
  plus_loop p i s caps k = None.
Proof.
  induction s as [|c s IH]; intros i caps k H; simpl; auto.
  destruct (p c); auto.
  rewrite IH.
  - apply H. simpl. lia.
  - intros y Hy. apply H. simpl. lia.
Qed.

(** The continuation of [r] sees an input with at least [min_count d r]
    fewer occurrences of [d]. *)
Lemma run_count A d r : forall x (k : cont A),
  (forall y, count d (m_rest y) + min_count d r <= count d (m_rest x) -> k y = None) ->
  run r x k = None.
Proof.
  induction r; intros x k H; simpl in *.
  - apply H. lia.
  - destruct (m_rest x) as [|c' s] eqn:E; auto.
    destruct (char_eqb c' c) eqn:Ec; auto.
    apply char_eqb_eq in Ec; subst c'.
    apply H. simpl. lia.
  - destruct (m_rest x) as [|c' s] eqn:E; auto.
    destruct (p c'); auto. apply H. simpl. lia.
  - destruct (Nat.eqb (m_index x) 0); auto. apply H. lia.
  - destruct (m_rest x) eqn:E; auto. apply H. rewrite E. simpl. lia.
  - apply IHr1. intros y Hy. apply IHr2. intros z Hz. apply H. lia.
  - rewrite IHr1; [apply IHr2|]; intros y Hy; apply H; lia.
  - apply plus_loop_count with (d := d). intros y Hy. apply H. lia.
  - apply IHr. intros y Hy. apply H. exact Hy.
Qed.

Lemma search_count d r s : forall i,
  count d s < min_count d r -> search r i s = None.
Proof.
  induction s as [|c s IH]; intros i Hc; simpl.
  - rewrite run_count with (d := d); auto. simpl. intros. simpl in Hc. lia.
  - rewrite run_count with (d := d).
    + apply IH. simpl in Hc. lia.
    + intros y Hy. simpl in Hy, Hc. simpl in *. lia.
Qed.

(** *** Patterns that begin with the head [(?:^|\s)] *)

Lemma bow_step A d r i w s caps (k : cont A) :
  heads d r = true -> w <> d ->
  run (Seq bow r) (MState i (w :: s) caps) k =
  if is_space w then run r (MState (S i) s caps) k else None.
Proof.
  intros Hh Hw. simpl. destruct (Nat.eqb i 0).
  - rewrite run_heads with (d := d); auto.
    simpl. intros s' E. inversion E. contradiction.
  - reflexivity.
Qed.

(** Characters that are not the delimiter and are not followed by it
    start no match. *)
Lemma search_skip d r Q : forall i w tail,
  heads d r = true -> ~ In d Q -> w <> d ->
  search (Seq bow r) i (Q ++ w :: tail) =
  search (Seq bow r) (i + List.length Q) (w :: tail).
Proof.
  induction Q as [|q Q IH]; intros i w tail Hh HQ Hw.
  - simpl app. now rewrite Nat.add_0_r.
  - assert (Hq : q <> d) by (intro; apply HQ; now left).
    assert (HQ' : ~ In d Q) by (intro; apply HQ; now right).
    change ((q :: Q) ++ w :: tail) with (q :: (Q ++ w :: tail)).
    cbn [search]. rewrite (bow_step _ d); auto.
    assert (Hn : forall A (k : cont A) caps,
               run r (MState (S i) (Q ++ w :: tail) caps) k = None).
    { intros. apply run_heads with (d := d); auto. simpl.
      destruct Q as [|q' Q']; simpl; intros s' E; inversion E; subst.
      - contradiction.
      - apply HQ'. now left. }
    rewrite Hn.
    replace (i + List.length (q :: Q)) with (S i + List.length Q) by (simpl; lia).
    destruct (is_space q); apply IH; auto.
Qed.

(** A character that is not white space starts no match after the
    start of the text. *)
Lemma search_step r i c s :
  is_space c = false ->
  search (Seq bow r) (S i) (c :: s) = search (Seq bow r) (S (S i)) s.
Proof. intro H. cbn [search]. simpl run. rewrite H. reflexivity. Qed.

(** Greedy [p+] over characters that are not the delimiter, when what
    follows the [p+] starts with the delimiter: nothing is given back
    inside them. *)
Lemma plus_loop_app A p d J : forall i rest caps (k : cont A),
  J <> [] -> Forall (fun c => p c = true) J -> ~ In d J ->
  (forall y, (forall s, m_rest y <> d :: s) -> k y = None) ->
  plus_loop p i (J ++ rest) caps k =
  match plus_loop p (i + List.length J) rest caps k with
  | Some a => Some a
  | None => k (MState (i + List.length J) rest caps)
  end.
Proof.
  induction J as [|c J IH]; intros i rest caps k Hne Hp Hd Hk; [congruence|].
  inversion Hp as [|? ? Hc HJ]; subst.
  change ((c :: J) ++ rest) with (c :: (J ++ rest)). cbn [plus_loop].
  rewrite Hc.
  destruct J as [|c' J'].
  - simpl. now rewrite Nat.add_1_r.
  - rewrite IH; auto; try discriminate.
    + replace (S i + List.length (c' :: J')) with (i + List.length (c :: c' :: J'))
        by (simpl; lia).
      destruct (plus_loop p (i + List.length (c :: c' :: J')) rest caps k); auto.
      destruct (k (MState (i + List.length (c :: c' :: J')) rest caps)); auto.
      apply Hk. simpl. intros s E. inversion E. subst. apply Hd. right. now left.
    + intro. apply Hd. now right.
Qed.

Lemma firstn_span A (J r : list A) i :
  firstn (i + List.length J - i) (J ++ r) = J.
Proof.
  replace (i + List.length J - i) with (List.length J + 0) by lia.
  rewrite firstn_app_2. simpl. apply app_nil_r.
Qed.

Lemma char_eqb_refl d : char_eqb d d = true.
Proof. apply N.eqb_refl. Qed.

Lemma sub_succ_self i : S i - i = 1.
Proof. lia. Qed.

Ltac head_delim d :=
  let y := fresh "y" in let Hy := fresh "Hy" in
  let c := fresh "c" in let s := fresh "s" in
  let E := fresh "E" in let Ec := fresh "Ec" in
  intros y Hy; cbn [run m_rest m_index m_caps];
  destruct (m_rest y) as [|c s] eqn:E; auto;
  destruct (char_eqb c d) eqn:Ec; auto;
  apply char_eqb_eq in Ec; subst; now elim (Hy s).

(** The body of an emphasis pattern with a one-character delimiter, on
    the delimiter, the inner text and the delimiter at the end of the
    input. *)
Lemma em1_body A d p J i caps (k : cont A) :
  J <> [] -> Forall (fun c => p c = true) J -> ~ In d J ->
  run (em_body 1 d p)
      (MState i (d :: J ++ [d]) caps) k
  = k (MState (S (S (i + List.length J))) []
         ((3, [d]) :: (2, J) :: (1, [d]) :: caps)).
Proof.
  intros HJ Hp Hd. unfold em_body.
  cbn [run lits m_rest m_index m_caps]. rewrite char_eqb_refl.
  cbn [m_rest m_index m_caps].
  erewrite plus_loop_app with (d := d); eauto; [|head_delim d].
  cbn [plus_loop m_rest m_index m_caps]. rewrite char_eqb_refl.
  rewrite !sub_succ_self.
  replace (S i + List.length J - S i) with (i + List.length J - i) by lia.
  rewrite firstn_span. cbn [firstn].
  destruct (p d); reflexivity.
Qed.

Lemma em2_body A d p J i caps (k : cont A) :
  J <> [] -> Forall (fun c => p c = true) J -> ~ In d J ->
  run (em_body 2 d p)
      (MState i (d :: d :: J ++ [d; d]) caps) k
  = k (MState (S (S (S (S (i + List.length J))))) []
         ((3, [d; d]) :: (2, J) :: (1, [d; d]) :: caps)).
Proof.
  intros HJ Hp Hd. unfold em_body.
  cbn [run lits m_rest m_index m_caps]. rewrite !char_eqb_refl.
  cbn [m_rest m_index m_caps].
  erewrite plus_loop_app with (d := d); eauto; [|head_delim d].
  cbn [plus_loop m_rest m_index m_caps]. rewrite !char_eqb_refl.
  replace (S (S i) - i) with 2 by lia.
  replace (S (S i) + List.length J - S (S i)) with (i + List.length J - i) by lia.
  rewrite firstn_span. cbn [firstn].
  replace (S (S (S (S i) + List.length J)) - (S (S i) + List.length J)) with 2 by lia.
  cbn [firstn].
  destruct (p d); reflexivity.
Qed.

(** *** Emphasis patterns on a line being typed *)

Lemma opens_word_cases P :
  opens_word P = true ->
  P = [] \/ exists Q w, P = Q ++ [w] /\ is_space w = true.
Proof.
  unfold opens_word. destruct (rev P) as [|c l] eqn:E.
  - left. apply (f_equal (@rev _)) in E. now rewrite rev_involutive in E.
  - right. exists (rev l), c. split; auto.
    apply (f_equal (@rev _)) in E. now rewrite rev_involutive in E.
Qed.

Lemma last_cases (P : str) : P = [] \/ exists Q w, P = Q ++ [w].
Proof.
  destruct P as [|c P] using rev_ind; [now left|right]. now exists P, c.
Qed.

Lemma count_notin d s : ~ In d s -> count d s = 0.
Proof.
  induction s as [|c s IH]; simpl; auto. intro H.
  destruct (char_eqb c d) eqn:E.
  - apply char_eqb_eq in E. subst. elim H. now left.
  - apply IH. intro. apply H. now right.
Qed.

Lemma notin_app d (a b : str) : ~ In d (a ++ b) -> ~ In d a /\ ~ In d b.
Proof. intro H. split; intro; apply H, in_or_app; auto. Qed.

Lemma bow_start A r s caps (k : cont A) a :
  run r (MState 0 s caps) k = Some a ->
  run (Seq bow r) (MState 0 s caps) k = Some a.
Proof. simpl. now intros ->. Qed.

(** The pattern with delimiter [d^n] matches the line
    [P d^n J d^n]. *)
Lemma em_match n d p P J :
  n = 1 \/ n = 2 ->
  opens_word P = true -> ~ In d P ->
  J <> [] -> Forall (fun c => p c = true) J -> ~ In d J ->
  exists idx,
    match_ (P ++ repeat_char n d ++ J ++ repeat_char n d) (em n d p)
    = Some (Result idx (List.length P + n + List.length J + n)
              [(3, repeat_char n d); (2, J); (1, repeat_char n d)]).
Proof.
  intros Hn HP HdP HJ Hp HdJ. unfold match_.
  destruct (opens_word_cases _ HP) as [->|[Q [w [-> Hw]]]].
  - exists 0. destruct Hn as [-> | ->]; cbn [app repeat_char search]; unfold em.
    + erewrite bow_start; [reflexivity|].
      rewrite em1_body; auto. cbn [m_index m_caps List.length].
      do 3 f_equal. lia.
    + erewrite bow_start; [reflexivity|].
      rewrite em2_body; auto. cbn [m_index m_caps List.length].
      do 3 f_equal. lia.
  - exists (List.length Q).
    apply notin_app in HdP. destruct HdP as [HQ Hwd].
    assert (w <> d) by (intro; apply Hwd; now left).
    rewrite <- app_assoc. cbn [app].
    destruct Hn as [-> | ->]; cbn [repeat_char app]; unfold em.
    + rewrite search_skip with (d := d); auto; [|apply char_eqb_refl].
      cbn [search Nat.add].
      rewrite bow_step with (d := d); auto; [|apply char_eqb_refl].
      rewrite Hw, em1_body; auto. cbn [m_index m_caps].
      do 3 f_equal. rewrite length_app. simpl. lia.
    + rewrite search_skip with (d := d); auto; [|apply char_eqb_refl].
      cbn [search Nat.add].
      rewrite bow_step with (d := d); auto; [|apply char_eqb_refl].
      rewrite Hw, em2_body; auto. cbn [m_index m_caps].
      do 3 f_equal. rewrite length_app. simpl. lia.
Qed.

Lemma search_cons r i c s :
  search r i (c :: s) =
  match run r (MState i (c :: s) [])
          (fun y => Some (Result i (m_index y) (m_caps y))) with
  | Some res => Some res
  | None => search r (S i) s
  end.
Proof. reflexivity. Qed.

Lemma is_not_self d : is_not d d = false.
Proof. unfold is_not. now rewrite char_eqb_refl. Qed.

Lemma min_count_em n d p :
  n = 1 \/ n = 2 -> min_count d (em n d p) = n + n.
Proof.
  intros [-> | ->]; cbn [em em_body lits min_count bow]; rewrite !char_eqb_refl;
    reflexivity.
Qed.

Lemma bow_first A r c s caps (k : cont A) :
  run (Seq bow r) (MState 0 (c :: s) caps) k =
  match run r (MState 0 (c :: s) caps) k with
  | Some a => Some a
  | None => if is_space c then run r (MState 1 s caps) k else None
  end.
Proof. reflexivity. Qed.

(** The body of the one-character pattern fails on a doubled
    delimiter. *)
Lemma em1_body_double A d i s caps (k : cont A) :
  run (em_body 1 d (is_not d)) (MState i (d :: d :: s) caps) k = None.
Proof.
  unfold em_body. cbn [run lits m_rest m_index m_caps plus_loop].
  rewrite char_eqb_refl. cbn [m_rest m_index m_caps plus_loop].
  now rewrite is_not_self.
Qed.

(** The one-character pattern does not match a line [P d d tail] with
    fewer than two delimiters in [tail]. *)
Lemma em1_after_double d P tail :
  is_space d = false -> ~ In d P -> count d tail < 2 ->
  match_ (P ++ d :: d :: tail) (em 1 d (is_not d)) = None.
Proof.
  intros Hs HP Ht. unfold match_.
  assert (Htail : forall i,
            search (em 1 d (is_not d)) (S i) (d :: tail) = None).
  { intro i. unfold em. rewrite search_step; auto.
    apply search_count with (d := d).
    change (Seq bow ?r) with (em 1 d (is_not d)).
    rewrite min_count_em; auto. }
  destruct (last_cases P) as [->|[Q [w ->]]].
  - cbn [app]. rewrite search_cons. unfold em at 1.
    rewrite bow_first, em1_body_double, Hs. apply Htail.
  - apply notin_app in HP. destruct HP as [HQ Hw].
    assert (w <> d) by (intro; apply Hw; now left).
    rewrite <- app_assoc. cbn [app]. unfold em.
    rewrite search_skip with (d := d); auto; [|apply char_eqb_refl].
    rewrite search_cons, bow_step with (d := d); auto; [|apply char_eqb_refl].
    rewrite em1_body_double.
    destruct (is_space w); rewrite search_step; auto; apply Htail.
Qed.

(** *** A block with one leaf inside a document *)

Lemma get_block above below blk :
  get (above ++ blk :: below) [List.length above] = Some blk.
Proof. cbn [get]. now rewrite nth_error_middle. Qed.

Lemma get_leaf above below ty u leaf rest :
  get (above ++ Element ty u (leaf :: rest) :: below) [List.length above; 0]
  = Some leaf.
Proof. cbn [get]. rewrite nth_error_middle. reflexivity. Qed.

Lemma splice_block f above below blk :
  splice f (above ++ blk :: below) [List.length above] = above ++ f blk ++ below.
Proof.
  rewrite (splice_cons _ _ _ _ _ (nth_error_middle _ above below blk)).
  now rewrite firstn_middle, skipn_middle.
Qed.

Lemma splice_leaf f above below ty u leaf rest :
  splice f (above ++ Element ty u (leaf :: rest) :: below) [List.length above; 0]
  = above ++ Element ty u (f leaf ++ rest) :: below.
Proof.
  rewrite (splice_cons _ _ _ _ _ (nth_error_middle _ above below _)).
  now rewrite firstn_middle, skipn_middle.
Qed.

Lemma Path_equals_refl p : Path_equals p p = true.
Proof. induction p; simpl; auto. now rewrite Nat.eqb_refl. Qed.

Lemma Path_compare_refl p : Path_compare p p = Eq.
Proof. induction p; simpl; auto. now rewrite Nat.compare_refl. Qed.

Lemma Path_common_refl p : Path_common p p = p.
Proof. induction p; simpl; auto. now rewrite Nat.eqb_refl, IHp. Qed.

Lemma above_around f above below blk o pending :
  f blk = true ->
  Slate.above f (around above below blk o pending)
  = Some (blk, [List.length above]).
Proof.
  intro H. unfold Slate.above, around, caret. cbn [selection anchor focus path children].
  rewrite Path_common_refl. cbn [Path_ancestors_rev List.length Nat.sub List.seq map rev app firstn lowest].
  now rewrite get_block, H.
Qed.

Lemma texts_from_head cs : forall k p t,
  In (p, t) (texts_from k cs) ->
  exists j rest, p = j :: rest /\ k <= j < k + List.length cs.
Proof.
  induction cs as [|c cs IH]; intros k p t H; simpl in H; [contradiction|].
  apply in_app_or in H. destruct H as [H|H].
  - apply in_map_iff in H. destruct H as [[q x] [E _]]. inversion E; subst.
    exists k, q. split; auto. simpl. lia.
  - destruct (IH _ _ _ H) as [j [rest [-> Hj]]]. exists j, rest. split; auto.
    simpl. lia.
Qed.

Lemma concat_map_nil A (f : A -> str) l :
  (forall x, In x l -> f x = []) -> List.concat (map f l) = [].
Proof.
  induction l as [|x l IH]; intro H; simpl; auto.
  rewrite (H x), IH; auto. - intros; apply H; now right. - now left.
Qed.

(** The text between two offsets of the only leaf of a block. *)
Lemma string_leaf above below ty u T m sel pending o1 o2 :
  o1 <= o2 ->
  string_ (MkEditor (above ++ Element ty u [Text T m] :: below) sel pending)
          (MkRange (MkPoint [List.length above; 0] o2)
                   (MkPoint [List.length above; 0] o1))
  = skipn o1 (firstn o2 T).
Proof.
  intro Ho. unfold string_.
  assert (E : Range_edges (MkRange (MkPoint [List.length above; 0] o2)
                                   (MkPoint [List.length above; 0] o1))
              = (MkPoint [List.length above; 0] o1, MkPoint [List.length above; 0] o2)).
  { unfold Range_edges, Point_compare. cbn [anchor focus path offset].
    rewrite Path_compare_refl. destruct (Nat.compare_spec o2 o1); auto; try lia.
    now subst. }
  rewrite E. cbn [children]. unfold texts.
  rewrite texts_from_app. cbn [texts_from]. rewrite !map_app, !concat_app.
  match goal with
  | |- ?X ++ _ ++ ?Y = _ =>
      replace X with (@nil char); [replace Y with (@nil char)|]
  end.
  2:{ symmetry. apply concat_map_nil.
      intros [p t] Hin. destruct (texts_from_head _ _ _ _ Hin) as [j [rest [-> Hj]]].
      unfold in_span. cbn [fst path Path_compare].
      destruct (Nat.compare_spec (List.length above) j); try lia.
      destruct (Nat.compare_spec j (List.length above)); try lia. reflexivity. }
  2:{ symmetry. apply concat_map_nil.
      intros [p t] Hin. destruct (texts_from_head _ _ _ _ Hin) as [j [rest [-> Hj]]].
      unfold in_span. cbn [fst path Path_compare].
      destruct (Nat.compare_spec (List.length above) j); auto; lia. }
  cbn. rewrite !app_nil_r. unfold in_span, covered. cbn [path offset].
  now rewrite Path_compare_refl, Path_equals_refl.
Qed.

(** *** Editing a block with one leaf *)

Lemma element_text_line above below ty u T m o pending text :
  element_text (line above below ty u T m o pending)
               (MkPoint [List.length above; 0] o) text
  = firstn o T ++ text.
Proof.
  unfold element_text, start, line, around. cbn [children path].
  rewrite get_leaf. cbn [first_leaf app].
  rewrite string_leaf by lia. reflexivity.
Qed.

Lemma before_range_line above below ty u T m o pending :
  isInline ty = false ->
  before_range (line above below ty u T m o pending)
               (MkPoint [List.length above; 0] o)
  = MkRange (MkPoint [List.length above; 0] o) (MkPoint [List.length above; 0] 0).
Proof.
  intro H. unfold before_range, line.
  rewrite above_around by (simpl; now rewrite H).
  unfold start, around. cbn [children]. rewrite get_block. reflexivity.
Qed.

Lemma before_text_line above below ty u T m o pending :
  string_ (line above below ty u T m o pending)
    (MkRange (MkPoint [List.length above; 0] o) (MkPoint [List.length above; 0] 0))
  = firstn o T.
Proof. unfold line, around. now rewrite string_leaf by lia. Qed.

(** The default insertion at the caret. *)
Lemma insertText_line above below ty u T m o text :
  Slate.insertText text (line above below ty u T m o None)
  = line above below ty u (firstn o T ++ text ++ skipn o T) m
         (o + List.length text) None.
Proof.
  unfold Slate.insertText, line, around, caret.
  cbn [selection]. unfold Range_isCollapsed, Point_equals.
  cbn [anchor focus path offset].
  rewrite Path_equals_refl, Nat.eqb_refl. cbn [andb selection].
  unfold Range_edges, Point_compare. cbn [anchor focus path offset].
  rewrite Path_compare_refl, Nat.compare_refl. cbn [fst path offset children marks].
  rewrite get_leaf, splice_leaf. cbn [app].
  unfold map_range, insert_point. cbn [anchor focus path offset].
  rewrite Path_equals_refl, Nat.leb_refl. reflexivity.
Qed.

(** [deleteText] inside the leaf, ending at or before the caret. *)
Lemma deleteText_line above below ty u T m o pending off len :
  len <= off -> off <= o ->
  deleteText [List.length above; 0] off len (line above below ty u T m o pending)
  = line above below ty u (firstn (off - len) T ++ skipn off T) m (o - len) pending.
Proof.
  intros Hl Ho. unfold deleteText.
  destruct (Nat.eqb_spec (off - len) off) as [E|E].
  - assert (len = 0) by lia. subst len.
    now rewrite !Nat.sub_0_r, firstn_skipn.
  - unfold delete_at, Range_edges, Point_compare. cbn [anchor focus path offset].
    rewrite Path_compare_refl.
    destruct (Nat.compare_spec (off - len) off); try lia.
    cbn [path offset]. rewrite Path_equals_refl.
    unfold line, around. cbn [children selection marks option_map].
    rewrite splice_leaf. cbn [app]. unfold uncovered. cbn [path offset].
    rewrite Path_equals_refl.
    unfold map_range, caret, move_point. cbn [anchor focus path offset].
    rewrite Path_equals_refl.
    destruct (Nat.leb_spec off o); try lia. cbn [andb].
    do 5 f_equal; lia.
Qed.

(** *** The loops of [insertText] *)

Lemma inline_loop_resolve insertText0 table elementText text anchor e :
  inline_loop insertText0 table elementText text anchor e =
  match inline_resolve table elementText with
  | None => insertText0 text e
  | Some (ty, res) =>
      match mark_of ty with
      | Some k => apply_mark k res anchor e
      | None => apply_link res anchor e
      end
  end.
Proof.
  induction table as [|sc table IH]; cbn [inline_loop inline_resolve]; auto.
  destruct (match_ elementText (i_match sc)); auto.
Qed.

Lemma block_loop_resolve table beforeText beforeRange e :
  block_loop table beforeText beforeRange e =
  match block_resolve table beforeText with
  | None => None
  | Some (ty, lt) => Some (apply_block (MkBlock Eps ty lt) beforeRange e)
  end.
Proof.
  induction table as [|sc table IH]; cbn [block_loop block_resolve]; auto.
  destruct (match_ beforeText (b_match sc)); auto.
Qed.

Lemma str_eqb_eq a : forall b, str_eqb a b = true <-> a = b.
Proof.
  induction a as [|x a IH]; intros [|y b]; simpl; split; try easy.
  - intro H. apply andb_true_iff in H. destruct H as [H1 H2].
    apply char_eqb_eq in H1. apply IH in H2. now subst.
  - intro H. inversion H; subst. rewrite char_eqb_refl. now apply IH.
Qed.

Lemma insertText_caret insertText0 text e p o :
  selection e = Some (caret p o) ->
  AutoMarkdown.insertText insertText0 text e =
  match
    (if str_eqb text [c_space] then
       block_loop BLOCK_SHORTCUTS
         (string_ e (before_range e (MkPoint p o)))
         (before_range e (MkPoint p o)) e
     else None)
  with
  | Some e' => e'
  | None =>
      inline_loop insertText0 INLINE_SHORTCUTS
        (element_text e (MkPoint p o) text) text (MkPoint p o) e
  end.
Proof.
  intro H. unfold AutoMarkdown.insertText. rewrite H.
  unfold caret, Range_isCollapsed, Point_equals. cbn [anchor focus path offset].
  now rewrite Path_equals_refl, Nat.eqb_refl.
Qed.

(** A keystroke at the end of the leaf on which no shortcut matches is
    inserted as it is. *)
Lemma insertText_quiet above below ty u T m c :
  isInline ty = false ->
  (c = c_space -> block_resolve BLOCK_SHORTCUTS T = None) ->
  inline_resolve INLINE_SHORTCUTS (T ++ [c]) = None ->
  Session.insertText [c] (line above below ty u T m (List.length T) None)
  = line above below ty u (T ++ [c]) m (List.length (T ++ [c])) None.
Proof.
  intros Hty Hb Hi. unfold Session.insertText.
  rewrite (insertText_caret _ _ _ [List.length above; 0] (List.length T))
    by reflexivity.
  rewrite before_range_line, before_text_line, firstn_all by auto.
  rewrite block_loop_resolve.
  assert (Hh : (if str_eqb [c] [c_space]
                then match block_resolve BLOCK_SHORTCUTS T with
                     | Some (ty0, lt) =>
                         Some (apply_block (MkBlock Eps ty0 lt)
                                 (MkRange (MkPoint [List.length above; 0] (List.length T))
                                          (MkPoint [List.length above; 0] 0))
                                 (line above below ty u T m (List.length T) None))
                     | None => None
                     end
                else None) = None).
  { destruct (str_eqb [c] [c_space]) eqn:E; auto.
    apply str_eqb_eq in E. inversion E; subst. rewrite Hb; auto. }
  rewrite Hh. rewrite inline_loop_resolve, element_text_line, firstn_all, Hi.
  rewrite insertText_line, firstn_all, skipn_all, app_nil_r.
  rewrite length_app. reflexivity.
Qed.

(** Keystrokes none of which completes a shortcut extend the leaf. *)
Lemma type_keys_quiet above below ty u m K : forall T,
  isInline ty = false ->
  (forall K1 c K2, K = K1 ++ c :: K2 ->
     (c = c_space -> block_resolve BLOCK_SHORTCUTS (T ++ K1) = None)
     /\ inline_resolve INLINE_SHORTCUTS (T ++ K1 ++ [c]) = None) ->
  type_keys K (line above below ty u T m (List.length T) None)
  = line above below ty u (T ++ K) m (List.length (T ++ K)) None.
Proof.
  induction K as [|c K IH]; intros T Hty H.
  - cbn [type_keys]. now rewrite app_nil_r.
  - cbn [type_keys]. destruct (H [] c K eq_refl) as [Hb Hi].
    rewrite app_nil_r in Hb. cbn [app] in Hi.
    rewrite insertText_quiet; auto.
    rewrite IH; auto.
    + now rewrite <- app_assoc.
    + intros K1 c' K2 ->. specialize (H (c :: K1) c' K2 eq_refl).
      now rewrite <- !app_assoc.
Qed.

(** *** Marking the end of a leaf *)

Lemma cut_end (P I : str) :
  I <> [] ->
  cut (List.length P) (List.length P + List.length I) (P ++ I)
  = MkPieces (match P with [] => None | _ :: _ => Some P end) I None.
Proof.
  intro HI. assert (List.length I <> 0) by (destruct I; simpl; congruence).
  unfold cut, inside. rewrite length_app, Nat.ltb_irrefl, andb_false_r.
  cbv iota. rewrite length_app.
  destruct P as [|c P]; [reflexivity|].
  assert (E : (0 <? List.length (c :: P))
              && (List.length (c :: P) <? List.length (c :: P) + List.length I) = true).
  { apply andb_true_iff. split; apply Nat.ltb_lt; simpl; lia. }
  rewrite E.
  rewrite firstn_app, Nat.sub_diag, firstn_all. cbn [firstn]. rewrite app_nil_r.
  rewrite skipn_app, Nat.sub_diag, skipn_all. reflexivity.
Qed.

Lemma setNodes_mark_line above below ty u P I m k pending :
  I <> [] ->
  setNodes_mark k true
    (MkRange (MkPoint [List.length above; 0] (List.length P + List.length I))
             (MkPoint [List.length above; 0] (List.length P)))
    (line above below ty u (P ++ I) m (List.length P + List.length I) pending)
  = MkEditor (above ++ Element ty u (marked_leaves P I m k) :: below)
             (Some (caret [List.length above; marked_index P] (List.length I)))
             pending.
Proof.
  intro HI. unfold setNodes_mark, Range_edges, Point_compare.
  cbn [anchor focus path offset]. rewrite Path_compare_refl.
  assert (List.length I <> 0) by (destruct I; simpl; congruence).
  destruct (Nat.compare_spec (List.length P + List.length I) (List.length P)); try lia.
  cbn [path offset]. rewrite Path_equals_refl.
  unfold line, around. cbn [children selection marks].
  rewrite get_leaf, splice_leaf.
  unfold cut_points. rewrite cut_end by auto. cbn [before middle after].
  destruct P as [|c P].
  - reflexivity.
  - cbn [opt_leaf marked_leaves marked_index option_map app].
    unfold map_range, caret, split_point. cbn [anchor focus path offset].
    rewrite Path_equals_refl.
    destruct (Nat.leb_spec (List.length (c :: P)) (List.length (c :: P) + List.length I)); try lia.
    cbn [Path_next]. do 5 f_equal; lia.
Qed.

Lemma firstn_app_left A (a b : list A) n :
  n = List.length a -> firstn n (a ++ b) = a.
Proof. intros ->. rewrite firstn_app, Nat.sub_diag, firstn_all. simpl. apply app_nil_r. Qed.

Lemma skipn_app_left A (a b : list A) n :
  n = List.length a -> skipn n (a ++ b) = b.
Proof. intros ->. rewrite skipn_app, Nat.sub_diag, skipn_all. reflexivity. Qed.

Lemma removeMark_caret k cs p o t m :
  get cs p = Some (Text t m) -> o <> 0 ->
  removeMark k (MkEditor cs (Some (caret p o)) None)
  = MkEditor cs (Some (caret p o)) (Some (set_mark k false m)).
Proof.
  intros G Ho. unfold removeMark, Editor_marks. cbn [selection marks children].
  unfold caret, Range_isCollapsed, Point_equals. cbn [anchor focus path offset].
  rewrite Path_equals_refl, Nat.eqb_refl. cbn [andb].
  destruct (Nat.eqb_spec o 0); [contradiction|].
  unfold leaf_marks. cbn [children path anchor]. now rewrite G.
Qed.

Lemma get_marked above below ty u P I m k :
  get (above ++ Element ty u (marked_leaves P I m k) :: below)
      [List.length above; marked_index P]
  = Some (Text I (set_mark k true m)).
Proof.
  cbn [get]. rewrite nth_error_middle. destruct P; reflexivity.
Qed.

(** The emphasis branch on a leaf [P delta I delta'], the caret at its
    end, when the groups have the lengths of [delta], [I] and of
    [delta'] plus the typed character. *)
Lemma apply_mark_line above below ty u P D I D' m k res :
  I <> [] ->
  List.length (group res 1) = List.length D ->
  List.length (group res 2) = List.length I ->
  List.length (group res 3) = S (List.length D') ->
  apply_mark k res
    (MkPoint [List.length above; 0] (List.length (P ++ D ++ I ++ D')))
    (line above below ty u (P ++ D ++ I ++ D') m
          (List.length (P ++ D ++ I ++ D')) None)
  = MkEditor (above ++ Element ty u (marked_leaves P I m k) :: below)
             (Some (caret [List.length above; marked_index P] (List.length I)))
             (Some (set_mark k false (set_mark k true m))).
Proof.
  intros HI H1 H2 H3. unfold apply_mark. cbn [path offset].
  rewrite H1, H2, H3. cbn [Nat.sub]. rewrite Nat.sub_0_r.
  rewrite deleteText_line; rewrite ?length_app; try lia.
  replace (firstn _ _ ++ skipn _ _) with (P ++ D ++ I).
  2:{ rewrite skipn_all2 by (rewrite !length_app; lia). rewrite app_nil_r.
      rewrite !app_assoc. symmetry. apply firstn_app_left. rewrite !length_app. lia. }
  rewrite deleteText_line; rewrite ?length_app; try lia.
  replace (firstn _ _ ++ skipn _ _) with (P ++ I).
  2:{ f_equal.
      - symmetry. apply firstn_app_left. lia.
      - symmetry. rewrite app_assoc. apply skipn_app_left. rewrite length_app. lia. }
  replace (List.length P + (List.length D + (List.length I + List.length D'))
           - List.length D' - List.length D) with (List.length P + List.length I) by lia.
  replace (List.length P + List.length I - List.length I) with (List.length P) by lia.
  rewrite setNodes_mark_line by auto.
  apply removeMark_caret with (t := I).
  - apply get_marked.
  - destruct I; simpl; congruence.
Qed.

(** *** The block patterns *)

Lemma search_bol r s : forall i, search (Seq Bol r) (S i) s = None.
Proof. induction s as [|c s IH]; intro i; simpl; auto. Qed.

Ltac split_chars :=
  unfold c_star, c_minus, c_plus, c_gt, c_hash, c_dot;
  repeat match goal with
         | |- context [char_eqb ?a ?b] =>
             lazymatch a with
             | N0 => fail
             | Npos _ => fail
             | _ => destruct (char_eqb a b) eqn:?
             end
         end.

Lemma match_gt T :
  is_some (match_ T (seq [Bol; Chr c_gt; Eol])) = str_eqb T (lit ">").
Proof.
  unfold match_. destruct T as [|a [|b T]]; try reflexivity.
  - cbn. split_chars; reflexivity.
  - rewrite search_cons. cbn [seq]. rewrite search_bol.
    cbn. split_chars; reflexivity.
Qed.

Lemma match_h1 T :
  is_some (match_ T (seq [Bol; Chr c_hash; Eol])) = str_eqb T (lit "#").
Proof.
  unfold match_. destruct T as [|a [|b T]]; try reflexivity.
  - cbn. split_chars; reflexivity.
  - rewrite search_cons. cbn [seq]. rewrite search_bol.
    cbn. split_chars; reflexivity.
Qed.

Lemma match_h2 T :
  is_some (match_ T (seq [Bol; Chr c_hash; Chr c_hash; Eol])) = str_eqb T (lit "##").
Proof.
  unfold match_. destruct T as [|a [|b [|c T]]]; try reflexivity;
    rewrite search_cons; cbn [seq]; rewrite search_bol;
    cbn; split_chars; reflexivity.
Qed.

Lemma match_h3 T :
  is_some (match_ T (seq [Bol; Chr c_hash; Chr c_hash; Chr c_hash; Eol]))
  = str_eqb T (lit "###").
Proof.
  unfold match_. destruct T as [|a [|b [|c [|d T]]]]; try reflexivity;
    rewrite search_cons; cbn [seq]; rewrite search_bol;
    cbn; split_chars; reflexivity.
Qed.

Lemma match_bullet T :
  is_some (match_ T (seq [Bol; Group 1 (Alt (Chr c_star) (Alt (Chr c_minus) (Chr c_plus))); Eol]))
  = str_eqb T (lit "*") || str_eqb T (lit "-") || str_eqb T (lit "+").
Proof.
  unfold match_. destruct T as [|a [|b T]]; try reflexivity;
    rewrite search_cons; cbn [seq]; rewrite search_bol;
    cbn; split_chars; reflexivity.
Qed.

Lemma digit_not_dot c : is_digit c = true -> char_eqb c c_dot = false.
Proof.
  unfold is_digit, char_eqb, c_dot. intro H.
  apply andb_true_iff in H. destruct H as [H1 H2].
  apply N.leb_le in H1. apply N.eqb_neq. lia.
Qed.

Lemma digits_loop T : forall i caps (K : cont result),
  (forall j s cp, is_some (K (MState j s cp))
                  = match s with
                    | [c] => char_eqb c c_dot
                    | _ => false
                    end) ->
  is_some (plus_loop is_digit i T caps K) = digits_dot_from false T
  /\ (is_some (plus_loop is_digit i T caps K) || is_some (K (MState i T caps))
      = digits_dot_from true T).
Proof.
  induction T as [|c T IH]; intros i caps K HK.
  - cbn. rewrite HK. auto.
  - destruct (IH (S i) caps K HK) as [IH1 IH2].
    cbn [plus_loop digits_dot_from]. rewrite HK.
    destruct (is_digit c) eqn:Ed.
    + rewrite (digit_not_dot _ Ed).
      assert (E : is_some
                    match plus_loop is_digit (S i) T caps K with
                    | Some r => Some r
                    | None => K (MState (S i) T caps)
                    end = digits_dot_from true T).
      { rewrite <- IH2. destruct (plus_loop is_digit (S i) T caps K); reflexivity. }
      rewrite E. split; auto.
      destruct T as [|? [|? ?]]; rewrite ?orb_false_r; reflexivity.
    + cbn. split; auto. destruct T; rewrite ?andb_true_r, ?andb_false_r; reflexivity.
Qed.

Lemma match_numbered T :
  is_some (match_ T (seq [Bol; Group 1 (Seq (Plus is_digit) (Chr c_dot)); Eol]))
  = digits_dot T.
Proof.
  unfold match_, digits_dot. destruct T as [|a T]; [reflexivity|].
  rewrite search_cons. cbn [seq]. rewrite search_bol.
  cbn [run m_index m_rest m_caps Nat.eqb].
  match goal with
  | |- is_some match plus_loop _ _ _ _ ?K with _ => _ end = _ =>
      destruct (digits_loop (a :: T) 0 [] K) as [H _]
  end.
  - intros j s cp. cbn [m_rest m_index m_caps].
    destruct s as [|c [|c' s]]; cbn; auto; destruct (char_eqb c c_dot); reflexivity.
  - rewrite <- H.
    match goal with |- is_some match ?X with _ => _ end = _ => destruct X end;
      reflexivity.
Qed.

Lemma match_cases A (o : option result) (a b : A) t :
  is_some o = t ->
  match o with Some _ => a | None => b end = if t then a else b.
Proof. intros <-. now destruct o. Qed.

(** The loop over [BLOCK_SHORTCUTS] resolves a line prefix as the
    specification's table does. *)
Lemma block_resolve_trigger T :
  block_resolve BLOCK_SHORTCUTS T = trigger_of T.
Proof.
  unfold trigger_of, BLOCK_SHORTCUTS. cbn [block_resolve b_match b_type b_listType].
  rewrite (match_cases _ _ _ _ _ (match_bullet T)).
  rewrite (match_cases _ _ _ _ _ (match_numbered T)).
  rewrite (match_cases _ _ _ _ _ (match_gt T)).
  rewrite (match_cases _ _ _ _ _ (match_h1 T)).
  rewrite (match_cases _ _ _ _ _ (match_h2 T)).
  rewrite (match_cases _ _ _ _ _ (match_h3 T)).
  reflexivity.
Qed.

Lemma digits_dot_chars T : forall seen c,
  digits_dot_from seen T = true -> In c T -> is_trigger_char c = true.
Proof.
  induction T as [|a T IH]; intros seen c H Hin; [contradiction|].
  cbn [digits_dot_from] in H. destruct (is_digit a) eqn:Ed.
  - destruct Hin as [->|Hin].
    + unfold is_trigger_char. rewrite Ed. apply orb_true_r.
    + eapply IH; eauto.
  - apply andb_true_iff in H. destruct H as [H HT].
    apply andb_true_iff in H. destruct H as [_ Hd].
    destruct T; [|discriminate]. destruct Hin as [->|[]].
    unfold is_trigger_char. rewrite Hd. now rewrite !orb_true_r.
Qed.

Lemma digits_dot_no_star T : forall seen,
  digits_dot_from seen T = true -> ~ In c_star T.
Proof.
  induction T as [|a T IH]; intros seen H Hin; [contradiction|].
  cbn [digits_dot_from] in H. destruct (is_digit a) eqn:Ed.
  - destruct Hin as [->|Hin]; [discriminate|]. eapply IH; eauto.
  - apply andb_true_iff in H. destruct H as [H HT].
    apply andb_true_iff in H. destruct H as [_ Hd].
    destruct T; [|discriminate]. destruct Hin as [->|[]]. discriminate.
Qed.

Ltac literal_case H :=
  apply str_eqb_eq in H; subst; cbn in *;
  repeat match goal with
         | Hin : _ \/ _ |- _ => destruct Hin
         | Hin : False |- _ => contradiction
         end; subst; try discriminate; try congruence.

(** A line prefix with a character no trigger contains is no trigger. *)
Lemma trigger_of_foreign T c :
  In c T -> is_trigger_char c = false -> trigger_of T = None.
Proof.
  intros Hin Hc. unfold trigger_of.
  destruct (str_eqb T (lit "*")) eqn:E1; [literal_case E1|].
  destruct (str_eqb T (lit "-")) eqn:E2; [literal_case E2|].
  destruct (str_eqb T (lit "+")) eqn:E3; [literal_case E3|].
  cbn [orb].
  destruct (digits_dot T) eqn:E4.
  { rewrite (digits_dot_chars _ _ _ E4 Hin) in Hc. discriminate. }
  destruct (str_eqb T (lit ">")) eqn:E5; [literal_case E5|].
  destruct (str_eqb T (lit "#")) eqn:E6; [literal_case E6|].
  destruct (str_eqb T (lit "##")) eqn:E7; [literal_case E7|].
  destruct (str_eqb T (lit "###")) eqn:E8; [literal_case E8|].
  reflexivity.
Qed.

(** A line prefix with a star is a trigger only if it is the star
    alone. *)
Lemma trigger_of_star T :
  In c_star T -> T <> [c_star] -> trigger_of T = None.
Proof.
  intros Hin Hne. unfold trigger_of.
  destruct (str_eqb T (lit "*")) eqn:E1.
  { apply str_eqb_eq in E1. contradiction. }
  destruct (str_eqb T (lit "-")) eqn:E2; [literal_case E2|].
  destruct (str_eqb T (lit "+")) eqn:E3; [literal_case E3|].
  cbn [orb].
  destruct (digits_dot T) eqn:E4.
  { elim (digits_dot_no_star _ _ E4 Hin). }
  destruct (str_eqb T (lit ">")) eqn:E5; [literal_case E5|].
  destruct (str_eqb T (lit "#")) eqn:E6; [literal_case E6|].
  destruct (str_eqb T (lit "##")) eqn:E7; [literal_case E7|].
  destruct (str_eqb T (lit "###")) eqn:E8; [literal_case E8|].
  reflexivity.
Qed.

(** *** The inline table on a line being typed *)

Lemma table_shape :
  INLINE_SHORTCUTS =
  [ MkInline (em 2 c_star (is_not c_star)) bold_;
    MkInline (em 2 c_under (is_not c_under)) bold_;
    MkInline (em 1 c_star (is_not c_star)) italic_;
    MkInline (em 1 c_under (is_not c_under)) italic_;
    MkInline (em 1 c_tick is_dot) code_;
    MkInline link_re link_ ].
Proof. reflexivity. Qed.

Lemma calm_count d E : calm d E -> count d E < 4.
Proof.
  intros [H|[P [tail [-> [HP Ht]]]]]; [lia|].
  rewrite count_app, (count_notin _ _ HP). cbn [count].
  rewrite char_eqb_refl. lia.
Qed.

Lemma calm_em1 d E :
  is_space d = false -> calm d E -> match_ E (em 1 d (is_not d)) = None.
Proof.
  intros Hs [H|[P [tail [-> [HP Ht]]]]].
  - apply search_count with (d := d). rewrite min_count_em; auto.
  - now apply em1_after_double.
Qed.

Lemma calm_em2 d p E :
  calm d E -> match_ E (em 2 d p) = None.
Proof.
  intro H. apply search_count with (d := d). rewrite min_count_em; auto.
  apply calm_count in H. simpl. lia.
Qed.

(** No inline shortcut matches a calm line with at most one backtick
    and no closing parenthesis. *)
Lemma inline_quiet E :
  calm c_star E -> calm c_under E ->
  count c_tick E < 2 -> count c_rparen E = 0 ->
  inline_resolve INLINE_SHORTCUTS E = None.
Proof.
  intros Hs Hu Ht Hp. rewrite table_shape. cbn [inline_resolve i_match].
  rewrite (calm_em2 _ _ _ Hs), (calm_em2 _ _ _ Hu).
  rewrite (calm_em1 c_star E eq_refl Hs), (calm_em1 c_under E eq_refl Hu).
  unfold match_.
  rewrite (search_count c_tick) by (exact Ht).
  rewrite (search_count c_rparen) by (rewrite Hp; cbn; lia).
  reflexivity.
Qed.

Lemma no_delimiter_notin s c :
  no_delimiter s = true -> is_delimiter c = true -> ~ In c s.
Proof.
  unfold no_delimiter. intros H Hc Hin.
  rewrite forallb_forall in H. specialize (H _ Hin). now rewrite Hc in H.
Qed.

Lemma no_delimiter_count s c :
  no_delimiter s = true -> is_delimiter c = true -> count c s = 0.
Proof. intros. apply count_notin. now apply no_delimiter_notin. Qed.

Lemma no_delimiter_app a b :
  no_delimiter (a ++ b) = no_delimiter a && no_delimiter b.
Proof. apply forallb_app. Qed.

Lemma notin_is_not d s : ~ In d s -> Forall (fun c => is_not d c = true) s.
Proof.
  intro H. apply Forall_forall. intros c Hc. unfold is_not.
  destruct (char_eqb c d) eqn:E; auto. apply char_eqb_eq in E. subst. contradiction.
Qed.

Lemma forallb_Forall (p : char -> bool) s :
  forallb p s = true -> Forall (fun c => p c = true) s.
Proof. intro H. apply Forall_forall. now apply forallb_forall. Qed.

Ltac count_line :=
  repeat (rewrite count_app || (progress (cbn [count app])));
  repeat match goal with
         | H : no_delimiter ?s = true |- context [count ?c ?s] =>
             rewrite (no_delimiter_count s c H eq_refl)
         end;
  cbn.

Ltac use_match Hx :=
  match type of Hx with
  | match_ _ ?r = ?rhs =>
      match goal with
      | |- context [match_ ?T r] =>
          let H := fresh in
          assert (H : match_ T r = rhs) by exact Hx; rewrite H
      end
  end.

(** The last keystroke of [delta I delta] resolves to the rule of
    [delta], and the groups are [delta], [I] and [delta]. *)
Lemma resolve_final D k P I :
  In (D, k) emphasis_rules ->
  no_delimiter P = true -> opens_word P = true ->
  no_delimiter I = true -> I <> [] ->
  (k = Code -> forallb is_dot I = true) ->
  exists ty res,
    inline_resolve INLINE_SHORTCUTS (P ++ D ++ I ++ D) = Some (ty, res)
    /\ mark_of ty = Some k
    /\ group res 1 = D /\ group res 2 = I /\ group res 3 = D.
Proof.
  intros Hin HP Hw HI Hne Hdot. rewrite table_shape.
  assert (Hm : forall n d p,
             n = 1 \/ n = 2 -> is_delimiter d = true ->
             Forall (fun c => p c = true) I ->
             exists idx,
               match_ (P ++ repeat_char n d ++ I ++ repeat_char n d) (em n d p)
               = Some (Result idx (List.length P + n + List.length I + n)
                         [(3, repeat_char n d); (2, I); (1, repeat_char n d)])).
  { intros n d p Hn Hd Hp. apply em_match; auto; now apply no_delimiter_notin. }
  unfold emphasis_rules in Hin.
  destruct Hin as [E|[E|[E|[E|[E|[]]]]]]; injection E as <- <-;
    cbn [inline_resolve i_match i_type].
  - destruct (Hm 2 c_star (is_not c_star)) as [idx Hx]; auto.
    { apply notin_is_not. now apply no_delimiter_notin. }
    use_match Hx. eauto 10.
  - unfold match_ at 1. rewrite (search_count c_star) by (count_line; lia).
    destruct (Hm 2 c_under (is_not c_under)) as [idx Hx]; auto.
    { apply notin_is_not. now apply no_delimiter_notin. }
    use_match Hx. eauto 10.
  - unfold match_ at 1. rewrite (search_count c_star) by (count_line; lia).
    unfold match_ at 1. rewrite (search_count c_under) by (count_line; lia).
    destruct (Hm 1 c_star (is_not c_star)) as [idx Hx]; auto.
    { apply notin_is_not. now apply no_delimiter_notin. }
    use_match Hx. eauto 10.
  - unfold match_ at 1. rewrite (search_count c_star) by (count_line; lia).
    unfold match_ at 1. rewrite (search_count c_under) by (count_line; lia).
    unfold match_ at 1. rewrite (search_count c_star) by (count_line; lia).
    destruct (Hm 1 c_under (is_not c_under)) as [idx Hx]; auto.
    { apply notin_is_not. now apply no_delimiter_notin. }
    use_match Hx. eauto 10.
  - unfold match_ at 1. rewrite (search_count c_star) by (count_line; lia).
    unfold match_ at 1. rewrite (search_count c_under) by (count_line; lia).
    unfold match_ at 1. rewrite (search_count c_star) by (count_line; lia).
    unfold match_ at 1. rewrite (search_count c_under) by (count_line; lia).
    destruct (Hm 1 c_tick is_dot) as [idx Hx]; auto.
    { apply forallb_Forall. auto. }
    use_match Hx. eauto 10.
Qed.

(** *** Typing an emphasis shortcut *)

Lemma type_keys_app a : forall b e,
  type_keys (a ++ b) e = type_keys b (type_keys a e).
Proof. induction a as [|c a IH]; intros b e; cbn [app type_keys]; auto. Qed.

Lemma no_delimiter_split K1 c K2 :
  no_delimiter (K1 ++ c :: K2) = true -> no_delimiter (K1 ++ [c]) = true.
Proof.
  rewrite !no_delimiter_app. unfold no_delimiter. cbn [forallb].
  intro H. apply andb_true_iff in H. destruct H as [H1 H2].
  apply andb_true_iff in H2. destruct H2 as [H2 _].
  now rewrite H1, H2.
Qed.

Lemma calm_few d E : count d E < 2 -> calm d E.
Proof. now left. Qed.

Lemma calm_pair d P tail :
  ~ In d P -> count d tail < 2 -> calm d (P ++ d :: d :: tail).
Proof. intros. right. now exists P, tail. Qed.

(** The lines met while typing [d J], and [d d J] followed by at most
    one [d], are quiet. *)
Lemma quiet_single d P J :
  In d [c_star; c_under; c_tick] ->
  no_delimiter P = true -> no_delimiter J = true ->
  inline_resolve INLINE_SHORTCUTS (P ++ d :: J) = None.
Proof.
  intros Hd HP HJ.
  destruct Hd as [<-|[<-|[<-|[]]]];
    apply inline_quiet; try (apply calm_few); count_line; lia.
Qed.

Lemma quiet_double d P J b :
  In d [c_star; c_under] -> b < 2 ->
  no_delimiter P = true -> no_delimiter J = true ->
  inline_resolve INLINE_SHORTCUTS (P ++ d :: d :: J ++ repeat_char b d) = None.
Proof.
  intros Hd Hb HP HJ.
  destruct b as [|[|b]]; [| |lia]; cbn [repeat_char];
    destruct Hd as [<-|[<-|[]]]; apply inline_quiet;
    try (apply calm_pair; [now apply no_delimiter_notin|]);
    try (apply calm_few); count_line; try lia.
Qed.

Lemma is_space_not_trigger c : is_space c = true -> is_trigger_char c = false.
Proof.
  unfold is_space, is_trigger_char, is_digit, char_eqb,
    c_star, c_minus, c_plus, c_gt, c_hash, c_dot.
  intro H.
  repeat match goal with
         | |- context [N.eqb ?a ?b] => destruct (N.eqb_spec a b)
         | |- context [N.leb ?a ?b] => destruct (N.leb_spec a b)
         end; try reflexivity; subst; try discriminate; exfalso;
  repeat match type of H with
         | context [N.eqb ?a ?b] => destruct (N.eqb_spec a b)
         | context [N.leb ?a ?b] => destruct (N.leb_spec a b)
         end; try discriminate; lia.
Qed.

(** While the inner text is typed after the opening delimiter, the line
    prefix is no block trigger, unless it is the star alone. *)
Lemma no_trigger_after_delim D k P J :
  In (D, k) emphasis_rules ->
  opens_word P = true ->
  ~ (P = [] /\ D = lit "*" /\ J = []) ->
  block_resolve BLOCK_SHORTCUTS (P ++ D ++ J) = None.
Proof.
  intros Hin HP Hx. rewrite block_resolve_trigger.
  destruct (opens_word_cases _ HP) as [->|[Q [w [-> Hw]]]].
  - unfold emphasis_rules in Hin. cbn [app].
    destruct Hin as [E|[E|[E|[E|[E|[]]]]]]; injection E as <- <-.
    + apply trigger_of_star; [now left | discriminate].
    + apply trigger_of_foreign with (c := c_under); [now left | reflexivity].
    + apply trigger_of_star; [now left|]. intro E. apply Hx.
      repeat split; auto. destruct J; [reflexivity | discriminate].
    + apply trigger_of_foreign with (c := c_under); [now left | reflexivity].
    + apply trigger_of_foreign with (c := c_tick); [now left | reflexivity].
  - apply trigger_of_foreign with (c := w).
    + rewrite <- app_assoc. apply in_or_app. right. now left.
    + now apply is_space_not_trigger.
Qed.

(** The keystroke that completes [P D I D]. *)
Lemma final_keystroke above below D D0 dl k P I :
  D = D0 ++ [dl] ->
  In (D, k) emphasis_rules ->
  no_delimiter P = true -> opens_word P = true ->
  no_delimiter I = true -> I <> [] ->
  (k = Code -> forallb is_dot I = true) ->
  Session.insertText [dl]
    (line above below "paragraph" None (P ++ D ++ I ++ D0) no_marks
          (List.length (P ++ D ++ I ++ D0)) None)
  = MkEditor (above ++ paragraph (marked_leaves P I no_marks k) :: below)
             (Some (caret [List.length above; marked_index P] (List.length I)))
             (Some no_marks).
Proof.
  intros HD Hin HP Hw HI Hne Hdot.
  assert (Hdl : str_eqb [dl] [c_space] = false).
  { unfold emphasis_rules in Hin.
    destruct Hin as [E|[E|[E|[E|[E|[]]]]]]; injection E as E1 E2; subst D;
      destruct D0 as [|? [|? [|? ?]]]; try discriminate; cbn in E1;
      inversion E1; subst; reflexivity. }
  unfold Session.insertText.
  rewrite (insertText_caret _ _ _ [List.length above; 0]
             (List.length (P ++ D ++ I ++ D0))) by reflexivity.
  rewrite Hdl, inline_loop_resolve, element_text_line, firstn_all.
  replace ((P ++ D ++ I ++ D0) ++ [dl]) with (P ++ D ++ I ++ D)
    by (rewrite HD, <- !app_assoc; reflexivity).
  destruct (resolve_final D k P I) as [ty [res [Hr [Hk [G1 [G2 G3]]]]]]; auto.
  rewrite Hr, Hk.
  rewrite (apply_mark_line above below "paragraph" None P D I D0 no_marks k res);
    auto.
  - unfold paragraph. now destruct k.
  - now rewrite G1.
  - now rewrite G2.
  - rewrite G3, HD, length_app. simpl. lia.
Qed.

Lemma type_inner above below D k P I :
  In (D, k) emphasis_rules ->
  no_delimiter P = true -> opens_word P = true -> no_delimiter I = true ->
  ~ (P = [] /\ D = lit "*" /\ exists I', I = c_space :: I') ->
  type_keys I (line above below "paragraph" None (P ++ D) no_marks
                    (List.length (P ++ D)) None)
  = line above below "paragraph" None (P ++ D ++ I) no_marks
         (List.length (P ++ D ++ I)) None.
Proof.
  intros Hin HP Hw HI Hx.
  rewrite type_keys_quiet; [now rewrite <- app_assoc | reflexivity |].
  intros K1 c K2 ->. split.
  - intros ->. rewrite <- app_assoc.
    apply no_trigger_after_delim with (k := k); auto.
    intros [-> [-> ->]]. apply Hx. repeat split; auto. now exists K2.
  - apply no_delimiter_split in HI. rewrite <- app_assoc.
    unfold emphasis_rules in Hin.
    destruct Hin as [E|[E|[E|[E|[E|[]]]]]]; injection E as <- <-; cbn [lit app].
    + rewrite <- (app_nil_r (K1 ++ [c])).
      apply (quiet_double c_star P (K1 ++ [c]) 0); auto. now left.
    + rewrite <- (app_nil_r (K1 ++ [c])).
      apply (quiet_double c_under P (K1 ++ [c]) 0); auto. right; now left.
    + apply (quiet_single c_star); auto. now left.
    + apply (quiet_single c_under); auto. right; now left.
    + apply (quiet_single c_tick); auto. right; right; now left.
Qed.

Lemma rule_shape D k :
  In (D, k) emphasis_rules ->
  exists d, In d [c_star; c_under; c_tick] /\ d <> c_space
    /\ (D = [d] \/ (D = [d; d] /\ In d [c_star; c_under])).
Proof.
  unfold emphasis_rules.
  intros [E|[E|[E|[E|[E|[]]]]]]; injection E as <- <-;
    [exists c_star | exists c_under | exists c_star | exists c_under | exists c_tick];
    cbn; intuition (try discriminate; auto).
Qed.

(** *** The first pattern that matches somewhere *)

Lemma search_hit r i s v :
  run r (MState i s []) (fun y => Some (Result i (m_index y) (m_caps y))) = Some v ->
  search r i s = Some v.
Proof. intro H. destruct s; cbn [search]; now rewrite H. Qed.

Lemma search_later r Q : forall i tail v,
  search r (i + List.length Q) tail = Some v ->
  exists v', search r i (Q ++ tail) = Some v'.
Proof.
  induction Q as [|q Q IH]; intros i tail v H.
  - rewrite Nat.add_0_r in H. now exists v.
  - cbn [app]. rewrite search_cons.
    destruct (run r (MState i (q :: Q ++ tail) []) _) as [v0|]; [now exists v0|].
    apply (IH (S i) tail v). rewrite <- H. f_equal. simpl. lia.
Qed.

(** The bold pattern with stars matches every line that ends in
    [**word**] after the start of the leaf or after white space. *)
Lemma bold_matches pre word :
  opens_word pre = true -> word <> [] -> ~ In c_star word ->
  exists res,
    match_ (pre ++ lit "**" ++ word ++ lit "**") (em 2 c_star (is_not c_star))
    = Some res.
Proof.
  intros Hw Hne Hs. unfold match_.
  assert (Hp := notin_is_not _ _ Hs).
  destruct (opens_word_cases _ Hw) as [->|[Q [w [-> Hsp]]]].
  - eexists. apply search_hit. unfold em.
    apply bow_start. change (lit "**") with [c_star; c_star]. cbn [app].
    rewrite em2_body by auto. reflexivity.
  - rewrite <- app_assoc.
    apply search_later with (v := Result (0 + List.length Q)
             (S (S (S (S (S (0 + List.length Q) + List.length word)))))
             [(3, [c_star; c_star]); (2, word); (1, [c_star; c_star])]).
    apply search_hit. unfold em. change (lit "**") with [c_star; c_star].
    cbn [app].
    rewrite bow_step with (d := c_star); [| reflexivity |].
    + rewrite Hsp, em2_body by auto. reflexivity.
    + intros ->. discriminate.
Qed.

(** *** Applying a block shortcut *)

Lemma above_caret f cs p o pending q :
  Slate.above f (MkEditor cs (Some (caret (q ++ p) o)) pending)
  = lowest f cs (Path_ancestors_rev (q ++ p)).
Proof.
  unfold Slate.above, caret. cbn [selection anchor focus path].
  now rewrite Path_common_refl.
Qed.

Lemma apply_block_line above below ty u T m pending r ty' lt :
  isInline ty = false -> T <> [] ->
  apply_block (MkBlock r ty' lt)
    (MkRange (MkPoint [List.length above; 0] (List.length T))
             (MkPoint [List.length above; 0] 0))
    (line above below ty u T m (List.length T) pending)
  = block_result above below ty' lt u m.
Proof.
  intros Hty HT.
  assert (HL : List.length T <> 0) by (destruct T; simpl; congruence).
  unfold apply_block. cbn [b_type b_listType].
  (* select *)
  assert (E1 : select (MkRange (MkPoint [List.length above; 0] (List.length T))
                               (MkPoint [List.length above; 0] 0))
                 (line above below ty u T m (List.length T) pending)
               = MkEditor (above ++ Element ty u [Text T m] :: below)
                   (Some (MkRange (MkPoint [List.length above; 0] (List.length T))
                                  (MkPoint [List.length above; 0] 0))) None).
  { unfold select, line, around, caret, Range_equals, Point_equals.
    cbn [selection children anchor focus path offset].
    rewrite !Path_equals_refl, Nat.eqb_refl. cbn [andb].
    destruct (Nat.eqb_spec (List.length T) 0); [contradiction|]. reflexivity. }
  rewrite E1.
  (* delete *)
  assert (E2 : delete (MkEditor (above ++ Element ty u [Text T m] :: below)
                   (Some (MkRange (MkPoint [List.length above; 0] (List.length T))
                                  (MkPoint [List.length above; 0] 0))) None)
               = line above below ty u [] m 0 None).
  { unfold delete, Range_isCollapsed, Point_equals.
    cbn [selection anchor focus path offset].
    rewrite Path_equals_refl. cbn [andb].
    destruct (Nat.eqb_spec (List.length T) 0); [contradiction|].
    unfold delete_at, Range_edges, Point_compare. cbn [anchor focus path offset].
    rewrite Path_compare_refl.
    destruct (Nat.compare_spec (List.length T) 0); try lia.
    cbn [path offset]. rewrite Path_equals_refl.
    cbn [children selection marks option_map]. rewrite splice_leaf.
    unfold uncovered. cbn [path offset]. rewrite Path_equals_refl.
    rewrite skipn_all. cbn [firstn app].
    unfold map_range, move_point, Point_compare. cbn [anchor focus path offset].
    rewrite Path_equals_refl, Path_compare_refl, Nat.leb_refl. cbn [andb].
    destruct (Nat.leb_spec (List.length T) 0); try lia.
    rewrite Nat.sub_0_r, Nat.sub_diag. cbn.
    destruct (List.length T) eqn:EL; [contradiction|]. reflexivity. }
  rewrite E2.
  (* setNodes *)
  assert (E3 : setNodes_type ty' (line above below ty u [] m 0 None)
               = line above below ty' u [] m 0 None).
  { unfold setNodes_type, line. rewrite above_around by (simpl; now rewrite Hty).
    unfold around. cbn [children selection marks]. now rewrite splice_block. }
  rewrite E3. unfold block_result.
  destruct (String.eqb ty' "list-item") eqn:El; [|reflexivity].
  (* wrapNodes *)
  unfold wrapNodes_list, line, around.
  rewrite (above_caret _ _ [0] 0 None [List.length above]).
  cbn [app Path_ancestors_rev List.length Nat.sub List.seq map rev firstn lowest].
  rewrite get_block. cbn [isListItem]. rewrite El.
  cbn [children selection marks option_map]. rewrite splice_block.
  unfold map_range, push_down, caret. cbn [anchor focus path offset Path_isPrefix].
  rewrite Nat.eqb_refl. cbn [andb List.length skipn app]. reflexivity.
Qed.

(** The space after a trigger that fills the block. *)
Lemma insertText_trigger above below ty u T m pending ty' lt :
  isInline ty = false ->
  trigger_of T = Some (ty', lt) ->
  Session.insertText [c_space] (line above below ty u T m (List.length T) pending)
  = block_result above below ty' lt u m.
Proof.
  intros Hty HT.
  assert (Hne : T <> []) by (intros ->; discriminate).
  unfold Session.insertText.
  rewrite (insertText_caret _ _ _ [List.length above; 0] (List.length T))
    by reflexivity.
  change (str_eqb [c_space] [c_space]) with true. cbv iota.
  rewrite before_range_line, before_text_line, firstn_all by auto.
  rewrite block_loop_resolve, block_resolve_trigger, HT.
  now rewrite apply_block_line.
Qed.

(** The space after a line prefix that is no trigger goes on to the
    inline shortcuts. *)
Lemma insertText_no_trigger above below ty u T m pending :
  isInline ty = false ->
  trigger_of T = None ->
  Session.insertText [c_space] (line above below ty u T m (List.length T) pending)
  = inline_loop Slate.insertText INLINE_SHORTCUTS (T ++ [c_space]) [c_space]
      (MkPoint [List.length above; 0] (List.length T))
      (line above below ty u T m (List.length T) pending).
Proof.
  intros Hty HT. unfold Session.insertText.
  rewrite (insertText_caret _ _ _ [List.length above; 0] (List.length T))
    by reflexivity.
  change (str_eqb [c_space] [c_space]) with true. cbv iota.
  rewrite before_range_line, before_text_line, firstn_all by auto.
  rewrite block_loop_resolve, block_resolve_trigger, HT.
  now rewrite element_text_line, firstn_all.
Qed.

Lemma trigger_chars T x c :
  trigger_of T = Some x -> In c T -> is_trigger_char c = true.
Proof.
  intros HT Hin. destruct (is_trigger_char c) eqn:E; auto.
  rewrite (trigger_of_foreign T c Hin E) in HT. discriminate.
Qed.

Lemma trigger_one_star T x :
  trigger_of T = Some x -> count c_star T < 2.
Proof.
  intro HT. destruct (in_dec N.eq_dec c_star T) as [Hin|Hn].
  - destruct T as [|a [|b T]].
    + cbn. lia.
    + cbn. destruct (char_eqb a c_star); lia.
    + rewrite trigger_of_star in HT; [discriminate | auto | discriminate].
  - rewrite count_notin; auto.
Qed.

Lemma count_prefix d K1 c K2 :
  count d (K1 ++ [c]) <= count d (K1 ++ c :: K2).
Proof. rewrite !count_app. cbn [count]. lia. Qed.

(** Typing a trigger into an empty block only extends its leaf. *)
Lemma type_trigger above below ty u m T x :
  isInline ty = false ->
  trigger_of T = Some x ->
  type_keys T (line above below ty u [] m 0 None)
  = line above below ty u T m (List.length T) None.
Proof.
  intros Hty HT.
  change 0 with (List.length (@nil char)).
  rewrite type_keys_quiet; auto.
  intros K1 c K2 E. cbn [app].
  assert (Hc : is_trigger_char c = true).
  { apply (trigger_chars T x); auto. rewrite E. apply in_or_app. right. now left. }
  assert (Hz : forall d, is_trigger_char d = false -> count d (K1 ++ [c]) = 0).
  { intros d Hd. apply count_notin. intro Hin.
    assert (In d T) by (rewrite E; apply in_app_or in Hin; apply in_or_app;
                        destruct Hin as [|[->|[]]]; [now left | right; now left]).
    rewrite (trigger_chars T x d HT) in Hd; auto. discriminate. }
  split.
  - intros ->. discriminate.
  - apply inline_quiet.
    + apply calm_few. pose proof (count_prefix c_star K1 c K2).
      pose proof (trigger_one_star T x HT). rewrite E in *. lia.
    + apply calm_few. rewrite Hz; [lia | reflexivity].
    + rewrite Hz; [lia | reflexivity].
    + apply Hz. reflexivity.
Qed.

(** *** Anchored patterns match the whole text *)

Lemma plus_loop_span A p s : forall i caps (k : cont A) v,
  plus_loop p i s caps k = Some v ->
  exists y, k y = Some v /\ m_index y + List.length (m_rest y) = i + List.length s.
Proof.
  induction s as [|c s IH]; intros i caps k v H; cbn [plus_loop] in H;
    [discriminate|].
  destruct (p c); [|discriminate].
  destruct (plus_loop p (S i) s caps k) as [v'|] eqn:E.
  - inversion H; subst. destruct (IH _ _ _ _ E) as [y [Hy Hs]].
    exists y. split; [auto | simpl; lia].
  - exists (MState (S i) s caps). split; [auto | simpl; lia].
Qed.

Lemma run_span A r : forall x (k : cont A) v,
  run r x k = Some v ->
  exists y, k y = Some v /\ reaches x y
            /\ (ends_eol r = true -> m_rest y = []).
Proof.
  unfold reaches.
  induction r; intros x k v H; cbn [run] in H; cbn [ends_eol].
  - exists x. split; [exact H|]. split; [reflexivity | discriminate].
  - destruct (m_rest x) as [|d s] eqn:E; [discriminate|].
    destruct (char_eqb d c); [|discriminate].
    eexists. split; [exact H|]. split; [simpl; lia | discriminate].
  - destruct (m_rest x) as [|d s] eqn:E; [discriminate|].
    destruct (p d); [|discriminate].
    eexists. split; [exact H|]. split; [simpl; lia | discriminate].
  - destruct (Nat.eqb (m_index x) 0); [|discriminate].
    exists x. split; [exact H|]. split; [reflexivity | discriminate].
  - destruct (m_rest x) eqn:E; [|discriminate].
    exists x. split; [exact H|]. split; [now rewrite E | auto].
  - destruct (IHr1 _ _ _ H) as [y [Hy [Hs _]]].
    destruct (IHr2 _ _ _ Hy) as [z [Hz [Hs2 He]]].
    exists z. split; [exact Hz|]. split; [lia | exact He].
  - destruct (run r1 x k) as [v'|] eqn:E.
    + inversion H; subst. destruct (IHr1 _ _ _ E) as [y [Hy [Hs _]]].
      exists y. split; [exact Hy|]. split; [exact Hs | discriminate].
    + destruct (IHr2 _ _ _ H) as [y [Hy [Hs _]]].
      exists y. split; [exact Hy|]. split; [exact Hs | discriminate].
  - destruct (plus_loop_span _ _ _ _ _ _ _ H) as [y [Hy Hs]].
    exists y. split; [exact Hy|]. split; [exact Hs | discriminate].
  - destruct (IHr _ _ _ H) as [y [Hy [Hs He]]].
    eexists. split; [exact Hy|]. split; [exact Hs | exact He].
Qed.

Lemma search_anchored r s res :
  starts_bol r = true -> ends_eol r = true ->
  search r 0 s = Some res ->
  r_index res = 0 /\ r_end res = List.length s.
Proof.
  intros Hb He H.
  assert (Hrun : run r (MState 0 s [])
                   (fun y => Some (Result 0 (m_index y) (m_caps y))) = Some res).
  { destruct r; try discriminate. destruct r1; try discriminate.
    destruct s as [|c s]; cbn [search] in H.
    - destruct (run _ _ _); [exact H | discriminate].
    - rewrite search_bol in H. destruct (run _ _ _); [exact H | discriminate]. }
  destruct (run_span _ _ _ _ _ Hrun) as [y [Hy [Hs Hz]]].
  inversion Hy; subst. cbn [r_index r_end]. unfold reaches in Hs.
  rewrite (Hz He) in Hs. cbn in Hs. split; auto. lia.
Qed.

(** A block pattern that matches covers the whole line prefix. *)
Lemma block_match_whole sc T res :
  In sc BLOCK_SHORTCUTS ->
  match_ T (b_match sc) = Some res ->
  r_index res = 0 /\ r_end res = List.length T.
Proof.
  intros Hin. unfold match_. apply search_anchored;
    unfold BLOCK_SHORTCUTS in Hin;
    repeat (destruct Hin as [<-|Hin]; [reflexivity|]); contradiction.
Qed.

(** *** The link pattern on a line being typed *)






(** *** Wrapping the end of a leaf in a link *)

Lemma wrapNodes_link_line above below ty u0 P t url m pending :
  t <> [] ->
  wrapNodes_link url
    (MkRange (MkPoint [List.length above; 0] (List.length P + List.length t))
             (MkPoint [List.length above; 0] (List.length P)))
    (line above below ty u0 (P ++ t) m (List.length P + List.length t) pending)
  = MkEditor (above ++ Element ty u0 (link_leaves P t url m) :: below)
             (Some (caret [List.length above; 1; 0] (List.length t)))
             pending.
Proof.
  intro Ht. unfold wrapNodes_link, Range_edges, Point_compare.
  cbn [anchor focus path offset]. rewrite Path_compare_refl.
  assert (List.length t <> 0) by (destruct t; simpl; congruence).
  destruct (Nat.compare_spec (List.length P + List.length t) (List.length P)); try lia.
  cbn [path offset]. rewrite Path_equals_refl.
  unfold line, around. cbn [children selection marks].
  rewrite get_leaf, splice_leaf.
  unfold cut_points, middle_path. rewrite cut_end by auto.
  cbn [before middle after removelast].
  unfold children_at, map_children. rewrite get_block, splice_block.
  destruct P as [|c P].
  - cbn [opt_leaf app surround isInlineNode isInline String.eqb Ascii.eqb Bool.eqb
         isTextNode link_leaves option_map].
    unfold map_range, caret, push_down. cbn [anchor focus path offset].
    cbn [Path_isPrefix]. rewrite !Nat.eqb_refl. cbn.
    rewrite Nat.eqb_refl. reflexivity.
  - cbn [opt_leaf app surround isInlineNode isInline String.eqb Ascii.eqb Bool.eqb
         isTextNode link_leaves option_map].
    unfold map_range, caret, split_point. cbn [anchor focus path offset].
    rewrite Path_equals_refl.
    destruct (Nat.leb_spec (List.length (c :: P)) (List.length (c :: P) + List.length t));
      try lia.
    cbn [Path_next]. unfold push_down. cbn [path offset Path_isPrefix].
    rewrite !Nat.eqb_refl. cbn.
    rewrite Nat.eqb_refl. do 5 f_equal; lia.
Qed.

(** The link branch on a leaf [P [t](url], the caret at its end. *)
Lemma apply_link_line above below ty u0 P t url m pending res :
  t <> [] ->
  group res 1 = [c_lbrack] -> group res 2 = t ->
  group res 3 = [c_rbrack; c_lparen] -> group res 4 = url ->
  group res 5 = [c_rparen] ->
  apply_link res
    (MkPoint [List.length above; 0]
       (List.length (P ++ [c_lbrack] ++ t ++ [c_rbrack; c_lparen] ++ url)))
    (line above below ty u0 (P ++ [c_lbrack] ++ t ++ [c_rbrack; c_lparen] ++ url) m
          (List.length (P ++ [c_lbrack] ++ t ++ [c_rbrack; c_lparen] ++ url)) pending)
  = MkEditor (above ++ Element ty u0 (link_leaves P t url m) :: below)
             (Some (caret [List.length above; 1; 0] (List.length t)))
             pending.
Proof.
  intros Ht G1 G2 G3 G4 G5. unfold apply_link. cbn [path offset].
  rewrite G1, G2, G3, G4, G5. cbn [List.length Nat.sub Nat.add].
  rewrite Nat.add_0_r.
  rewrite deleteText_line; rewrite ?length_app; cbn [List.length]; try lia.
  replace (firstn _ _ ++ skipn _ _) with (P ++ [c_lbrack] ++ t).
  2:{ rewrite skipn_all2 by (rewrite !length_app; cbn [List.length]; lia).
      rewrite app_nil_r.
      replace (P ++ [c_lbrack] ++ t ++ [c_rbrack; c_lparen] ++ url)
        with ((P ++ [c_lbrack] ++ t) ++ [c_rbrack; c_lparen] ++ url)
        by (now rewrite <- !app_assoc).
      symmetry. apply firstn_app_left. rewrite !length_app. cbn [List.length]. lia. }
  rewrite deleteText_line; rewrite ?length_app; cbn [List.length]; try lia.
  replace (firstn _ _ ++ skipn _ _) with (P ++ t).
  2:{ f_equal.
      - symmetry. apply firstn_app_left. lia.
      - symmetry. rewrite app_assoc. apply skipn_app_left.
        rewrite length_app. cbn [List.length]. lia. }
  replace (List.length P + (1 + (List.length t + (2 + List.length url)))
           - S (S (List.length url)) - 1) with (List.length P + List.length t) by lia.
  replace (List.length P + List.length t - List.length t) with (List.length P) by lia.
  now apply wrapNodes_link_line.
Qed.



(* ------------------------------------------------------------------ *)
(** ** What a match of an inline pattern looks like *)

(** *** The greedy loop, both ways *)

(** A successful greedy loop took a non-empty run of the class and
    succeeded after it. *)
Lemma plus_loop_inv A p (k : cont A) a : forall s i caps,
  plus_loop p i s caps k = Some a ->
  exists J rest, s = J ++ rest /\ J <> [] /\ forallb p J = true /\
    k (MState (i + List.length J) rest caps) = Some a.
Proof.
  induction s as [|c s IH]; intros i caps H; [discriminate|].
  cbn [plus_loop] in H. destruct (p c) eqn:Hc; [|discriminate].
  destruct (plus_loop p (S i) s caps k) eqn:E.
  - inversion H; subst.
    destruct (IH _ _ E) as [J [rest [-> [HJ [Hp Hk]]]]].
    exists (c :: J), rest. repeat split; try discriminate.
    + simpl. now rewrite Hc.
    + simpl. replace (i + S (List.length J)) with (S i + List.length J) by lia.
      congruence.
  - exists [c], s. repeat split; try discriminate.
    + simpl. now rewrite Hc.
    + simpl. now rewrite Nat.add_1_r.
Qed.

(** If the continuation succeeds after some non-empty run of the class,
    the greedy loop succeeds. *)
Lemma plus_loop_complete A p (k : cont A) : forall J i rest caps,
  J <> [] -> forallb p J = true ->
  is_some (k (MState (i + List.length J) rest caps)) = true ->
  is_some (plus_loop p i (J ++ rest) caps k) = true.
Proof.
  induction J as [|c J IH]; intros i rest caps HJ Hp Hk; [congruence|].
  simpl in Hp. apply andb_prop in Hp. destruct Hp as [Hc Hp].
  change ((c :: J) ++ rest) with (c :: (J ++ rest)). cbn [plus_loop].
  rewrite Hc.
  destruct J as [|c' J'].
  - simpl in *. rewrite Nat.add_1_r in Hk.
    destruct (plus_loop p (S i) rest caps k); auto.
  - assert (H : is_some (plus_loop p (S i) ((c' :: J') ++ rest) caps k) = true).
    { apply IH; auto; try discriminate.
      replace (S i + List.length (c' :: J')) with (i + List.length (c :: c' :: J'))
        by (simpl; lia).
      exact Hk. }
    destruct (plus_loop p (S i) ((c' :: J') ++ rest) caps k); [reflexivity|discriminate].
Qed.

(** *** The body of an emphasis pattern *)

(** What the body of an emphasis pattern matched, with its groups. *)
Lemma em_body_inv A n d p i s caps (k : cont A) a :
  n = 1 \/ n = 2 ->
  run (em_body n d p) (MState i s caps) k = Some a ->
  exists J rest,
    s = repeat_char n d ++ J ++ repeat_char n d ++ rest /\
    J <> [] /\ forallb p J = true /\
    k (MState (i + n + List.length J + n) rest
         ((3, repeat_char n d) :: (2, J) :: (1, repeat_char n d) :: caps)) = Some a.
Proof.
  intros [-> | ->] H; unfold em_body in H;
    cbn [run lits m_rest m_index m_caps] in H.
  - destruct s as [|c s]; [discriminate|].
    destruct (char_eqb c d) eqn:Ec; [|discriminate].
    apply char_eqb_eq in Ec. subst c.
    cbn [m_rest m_index m_caps] in H.
    apply plus_loop_inv in H. destruct H as [J [rest [-> [HJ [Hp H]]]]].
    cbn [m_rest m_index m_caps] in H.
    destruct rest as [|c rest]; [discriminate|].
    destruct (char_eqb c d) eqn:Ec; [|discriminate].
    apply char_eqb_eq in Ec. subst c.
    cbn [m_rest m_index m_caps] in H.
    exists J, rest. repeat split; auto.
    rewrite !sub_succ_self in H.
    rewrite firstn_app_left in H by lia. cbn [firstn] in H.
    cbn [repeat_char].
    replace (i + 1 + List.length J + 1) with (S (S i + List.length J)) by lia.
    exact H.
  - destruct s as [|c s]; [discriminate|].
    destruct (char_eqb c d) eqn:Ec; [|discriminate].
    apply char_eqb_eq in Ec. subst c.
    cbn [m_rest m_index m_caps] in H.
    destruct s as [|c s]; [discriminate|].
    destruct (char_eqb c d) eqn:Ec; [|discriminate].
    apply char_eqb_eq in Ec. subst c.
    cbn [m_rest m_index m_caps] in H.
    apply plus_loop_inv in H. destruct H as [J [rest [-> [HJ [Hp H]]]]].
    cbn [m_rest m_index m_caps] in H.
    destruct rest as [|c rest]; [discriminate|].
    destruct (char_eqb c d) eqn:Ec; [|discriminate].
    apply char_eqb_eq in Ec. subst c.
    cbn [m_rest m_index m_caps] in H.
    destruct rest as [|c rest]; [discriminate|].
    destruct (char_eqb c d) eqn:Ec; [|discriminate].
    apply char_eqb_eq in Ec. subst c.
    cbn [m_rest m_index m_caps] in H.
    exists J, rest. repeat split; auto.
    replace (S (S i) - i) with 2 in H by lia.
    rewrite firstn_app_left in H by lia.
    replace (S (S (S (S i) + List.length J)) - (S (S i) + List.length J)) with 2 in H by lia.
    cbn [firstn] in H.
    cbn [repeat_char].
    replace (i + 2 + List.length J + 2) with (S (S (S (S i) + List.length J))) by lia.
    exact H.
Qed.

(** The body matches wherever a delimiter, a non-empty run of the class
    and the delimiter stand. *)
Lemma em_body_complete A n d p i J rest caps (k : cont A) :
  n = 1 \/ n = 2 -> J <> [] -> forallb p J = true ->
  (forall caps', is_some (k (MState (i + n + List.length J + n) rest caps')) = true) ->
  is_some (run (em_body n d p)
             (MState i (repeat_char n d ++ J ++ repeat_char n d ++ rest) caps) k) = true.
Proof.
  intros [-> | ->] HJ Hp Hk; unfold em_body;
    cbn [run lits m_rest m_index m_caps repeat_char app];
    rewrite ?char_eqb_refl; cbn [m_rest m_index m_caps].
  - apply plus_loop_complete; auto.
    cbn [run m_rest m_index m_caps]. rewrite char_eqb_refl.
    cbn [m_rest m_index m_caps].
    replace (S (S i + List.length J)) with (i + 1 + List.length J + 1) by lia.
    apply Hk.
  - apply plus_loop_complete; auto.
    cbn [run m_rest m_index m_caps]. rewrite ?char_eqb_refl.
    cbn [m_rest m_index m_caps]. rewrite ?char_eqb_refl.
    cbn [m_rest m_index m_caps].
    replace (S (S (S (S i) + List.length J))) with (i + 2 + List.length J + 2) by lia.
    apply Hk.
Qed.

(** *** The search and the head of a pattern *)

(** A successful search succeeded at some start index. *)
Lemma search_inv r : forall s i res,
  search r i s = Some res ->
  exists pre s', s = pre ++ s' /\
    run r (MState (i + List.length pre) s' [])
      (fun y => Some (Result (i + List.length pre) (m_index y) (m_caps y)))
    = Some res.
Proof.
  induction s as [|c s IH]; intros i res H.
  - cbn [search] in H.
    destruct (run r (MState i [] []) _) eqn:E; [|discriminate].
    exists [], []. split; auto. simpl. rewrite Nat.add_0_r. congruence.
  - rewrite search_cons in H.
    destruct (run r (MState i (c :: s) []) _) eqn:E.
    + exists [], (c :: s). split; auto. simpl. rewrite Nat.add_0_r. congruence.
    + destruct (IH _ _ H) as [pre [s' [-> Hr]]].
      exists (c :: pre), s'. split; auto.
      simpl. now replace (i + S (List.length pre)) with (S i + List.length pre) by lia.
Qed.

Lemma search_some r Q : forall i tail,
  is_some (run r (MState (i + List.length Q) tail [])
     (fun y => Some (Result (i + List.length Q) (m_index y) (m_caps y)))) = true ->
  is_some (search r i (Q ++ tail)) = true.
Proof.
  intros i tail H.
  destruct (run r (MState (i + List.length Q) tail []) _) as [v|] eqn:E;
    [|discriminate].
  apply search_hit in E.
  destruct (search_later r Q i tail v E) as [v' ->]. reflexivity.
Qed.

Lemma bow_inv A r i s caps (k : cont A) a :
  run (Seq bow r) (MState i s caps) k = Some a ->
  (i = 0 /\ run r (MState 0 s caps) k = Some a)
  \/ exists w s', s = w :: s' /\ is_space w = true /\
       run r (MState (S i) s' caps) k = Some a.
Proof.
  cbn [run bow m_index m_rest m_caps]. intro H.
  destruct (Nat.eqb i 0) eqn:Ei.
  - apply Nat.eqb_eq in Ei. subst i.
    destruct (run r (MState 0 s caps) k) eqn:E.
    + left. split; auto.
    + destruct s as [|w s']; [discriminate|].
      destruct (is_space w) eqn:Ew; [|discriminate].
      right. now exists w, s'.
  - destruct s as [|w s']; [discriminate|].
    destruct (is_space w) eqn:Ew; [|discriminate].
    right. now exists w, s'.
Qed.

Lemma bow_some_start A r s caps (k : cont A) :
  is_some (run r (MState 0 s caps) k) = true ->
  is_some (run (Seq bow r) (MState 0 s caps) k) = true.
Proof.
  cbn [run bow m_index m_rest m_caps Nat.eqb]. intro H.
  destruct (run r (MState 0 s caps) k); [reflexivity|discriminate].
Qed.

Lemma bow_some_space A r i w s caps (k : cont A) :
  is_space w = true ->
  is_some (run r (MState (S i) s caps) k) = true ->
  is_some (run (Seq bow r) (MState i (w :: s) caps) k) = true.
Proof.
  cbn [run bow m_index m_rest m_caps]. intros Hw H.
  destruct (if Nat.eqb i 0 then run r (MState i (w :: s) caps) k else None);
    [reflexivity|].
  now rewrite Hw.
Qed.

Lemma opens_word_snoc Q w : opens_word (Q ++ [w]) = is_space w.
Proof. unfold opens_word. now rewrite rev_app_distr. Qed.

(** A match of a pattern with head: where it starts and what follows
    the head. *)
Lemma head_inv r E res :
  match_ E (Seq bow r) = Some res ->
  exists A s, E = A ++ s /\ opens_word A = true /\
    exists i0, run r (MState (List.length A) s [])
      (fun y => Some (Result i0 (m_index y) (m_caps y))) = Some res.
Proof.
  intro H. apply search_inv in H. destruct H as [pre [s' [-> H]]].
  simpl in H. apply bow_inv in H.
  destruct H as [[H0 H] | [w [s [-> [Hw H]]]]].
  - destruct pre; [|discriminate]. exists [], s'. repeat split; auto.
    now exists 0.
  - exists (pre ++ [w]), s. rewrite <- app_assoc. repeat split; auto.
    + now rewrite opens_word_snoc.
    + exists (List.length pre). rewrite length_app. simpl.
      now rewrite Nat.add_1_r.
Qed.

Lemma head_some r A s :
  opens_word A = true ->
  (forall i0, is_some (run r (MState (List.length A) s [])
      (fun y => Some (Result i0 (m_index y) (m_caps y)))) = true) ->
  is_some (match_ (A ++ s) (Seq bow r)) = true.
Proof.
  intros HA H. unfold match_.
  destruct (opens_word_cases _ HA) as [->|[Q [w [-> Hw]]]].
  - apply (search_some _ [] 0). simpl. apply bow_some_start. apply H.
  - rewrite <- app_assoc. apply (search_some _ Q 0). simpl.
    apply bow_some_space; auto.
    specialize (H (List.length Q)). rewrite length_app in H. simpl in H.
    now rewrite Nat.add_1_r in H.
Qed.

Lemma em_inv n d p E res :
  n = 1 \/ n = 2 ->
  match_ E (em n d p) = Some res ->
  exists A J rest,
    E = A ++ repeat_char n d ++ J ++ repeat_char n d ++ rest /\
    opens_word A = true /\ J <> [] /\ forallb p J = true /\
    r_end res = List.length A + n + List.length J + n /\
    r_caps res = [(3, repeat_char n d); (2, J); (1, repeat_char n d)].
Proof.
  intros Hn H. unfold em in H. apply head_inv in H.
  destruct H as [A [s [-> [HA [i0 H]]]]].
  apply em_body_inv in H; auto.
  destruct H as [J [rest [-> [HJ [Hp H]]]]].
  exists A, J, rest. inversion H. repeat split; auto.
Qed.

Lemma em_some n d p A J rest :
  n = 1 \/ n = 2 ->
  opens_word A = true -> J <> [] -> forallb p J = true ->
  is_some (match_ (A ++ repeat_char n d ++ J ++ repeat_char n d ++ rest)
             (em n d p)) = true.
Proof.
  intros Hn HA HJ Hp. unfold em. apply head_some; auto.
  intro i0. apply em_body_complete; auto.
Qed.

(** *** The link pattern *)

(** What the body of the link pattern matched, with its groups. *)
Lemma link_body_inv A i s caps (k : cont A) a :
  run link_body (MState i s caps) k = Some a ->
  exists t u rest,
    s = c_lbrack :: t ++ c_rbrack :: c_lparen :: u ++ c_rparen :: rest /\
    t <> [] /\ forallb is_dot t = true /\
    u <> [] /\ forallb is_dot u = true /\
    k (MState (i + List.length t + List.length u + 4) rest
         ((5, [c_rparen]) :: (4, u) :: (3, [c_rbrack; c_lparen]) :: (2, t)
            :: (1, [c_lbrack]) :: caps)) = Some a.
Proof.
  intro H. unfold link_body in H.
  cbn [run m_rest m_index m_caps] in H.
  destruct s as [|c s]; [discriminate|].
  destruct (char_eqb c c_lbrack) eqn:Ec; [|discriminate].
  apply char_eqb_eq in Ec. subst c. cbn [m_rest m_index m_caps] in H.
  apply plus_loop_inv in H. destruct H as [t [r1 [-> [Ht [Hpt H]]]]].
  cbn [run m_rest m_index m_caps] in H.
  destruct r1 as [|c r1]; [discriminate|].
  destruct (char_eqb c c_rbrack) eqn:Ec; [|discriminate].
  apply char_eqb_eq in Ec. subst c. cbn [m_rest m_index m_caps] in H.
  destruct r1 as [|c r1]; [discriminate|].
  destruct (char_eqb c c_lparen) eqn:Ec; [|discriminate].
  apply char_eqb_eq in Ec. subst c. cbn [m_rest m_index m_caps] in H.
  apply plus_loop_inv in H. destruct H as [u [r2 [-> [Hu [Hpu H]]]]].
  cbn [run m_rest m_index m_caps] in H.
  destruct r2 as [|c r2]; [discriminate|].
  destruct (char_eqb c c_rparen) eqn:Ec; [|discriminate].
  apply char_eqb_eq in Ec. subst c. cbn [m_rest m_index m_caps] in H.
  exists t, u, r2. repeat split; auto.
  rewrite !sub_succ_self in H.
  rewrite !firstn_app_left in H by lia.
  replace (S (S (S i + List.length t)) - (S i + List.length t)) with 2 in H by lia.
  replace (S (S (S (S i + List.length t)) + List.length u)
           - (S (S (S i + List.length t)) + List.length u)) with 1 in H by lia.
  cbn [firstn] in H.
  replace (i + List.length t + List.length u + 4)
    with (S (S (S (S i + List.length t)) + List.length u)) by lia.
  exact H.
Qed.

Lemma link_body_complete A i t u rest caps (k : cont A) :
  t <> [] -> forallb is_dot t = true -> u <> [] -> forallb is_dot u = true ->
  (forall caps', is_some (k (MState (i + List.length t + List.length u + 4) rest caps')) = true) ->
  is_some (run link_body
             (MState i (c_lbrack :: t ++ c_rbrack :: c_lparen :: u ++ c_rparen :: rest) caps) k) = true.
Proof.
  intros Ht Hpt Hu Hpu Hk. unfold link_body.
  cbn [run m_rest m_index m_caps]. rewrite char_eqb_refl.
  cbn [m_rest m_index m_caps].
  apply plus_loop_complete; auto.
  cbn [run m_rest m_index m_caps]. rewrite char_eqb_refl.
  cbn [m_rest m_index m_caps]. rewrite char_eqb_refl.
  cbn [m_rest m_index m_caps].
  apply plus_loop_complete; auto.
  cbn [run m_rest m_index m_caps]. rewrite char_eqb_refl.
  cbn [m_rest m_index m_caps].
  replace (S (S (S (S i + List.length t)) + List.length u))
    with (i + List.length t + List.length u + 4) by lia.
  apply Hk.
Qed.

Lemma link_inv E res :
  match_ E link_re = Some res ->
  exists A t u rest,
    E = A ++ c_lbrack :: t ++ c_rbrack :: c_lparen :: u ++ c_rparen :: rest /\
    opens_word A = true /\
    t <> [] /\ forallb is_dot t = true /\
    u <> [] /\ forallb is_dot u = true /\
    r_end res = List.length A + List.length t + List.length u + 4 /\
    r_caps res = [(5, [c_rparen]); (4, u); (3, [c_rbrack; c_lparen]); (2, t);
                  (1, [c_lbrack])].
Proof.
  intro H. unfold link_re in H. apply head_inv in H.
  destruct H as [A [s [-> [HA [i0 H]]]]].
  apply link_body_inv in H.
  destruct H as [t [u [rest [-> [Ht [Hpt [Hu [Hpu H]]]]]]]].
  exists A, t, u, rest. inversion H. repeat split; auto.
Qed.

Lemma link_some A t u rest :
  opens_word A = true ->
  t <> [] -> forallb is_dot t = true -> u <> [] -> forallb is_dot u = true ->
  is_some (match_ (A ++ c_lbrack :: t ++ c_rbrack :: c_lparen :: u ++ c_rparen :: rest)
             link_re) = true.
Proof.
  intros HA Ht Hpt Hu Hpu. unfold link_re. apply head_some; auto.
  intro i0. apply link_body_complete; auto.
Qed.

(** *** Matches a keystroke brings about, matches that stay *)

Lemma is_some_none A (o : option A) : o = None -> is_some o = true -> False.
Proof. intros ->. discriminate. Qed.

(** A match of an emphasis pattern that a single character brought
    about ends on that character. *)
Lemma em_fresh n d p T c res :
  n = 1 \/ n = 2 ->
  match_ T (em n d p) = None ->
  match_ (T ++ [c]) (em n d p) = Some res ->
  c = d /\
  exists A J,
    T = A ++ repeat_char n d ++ J ++ repeat_char (n - 1) d /\
    opens_word A = true /\ J <> [] /\ forallb p J = true /\
    r_end res = List.length T + 1 /\
    r_caps res = [(3, repeat_char n d); (2, J); (1, repeat_char n d)].
Proof.
  intros Hn H0 H1. apply em_inv in H1; auto.
  destruct H1 as [A [J [rest [E [HA [HJ [Hp [He Hc]]]]]]]].
  destruct (last_cases rest) as [->|[rest' [x ->]]].
  - assert (En : repeat_char n d = repeat_char (n - 1) d ++ [d]).
    { destruct Hn as [-> | ->]; reflexivity. }
    rewrite app_nil_r in E. rewrite En in E at 2.
    rewrite !app_assoc in E. apply app_inj_tail in E. destruct E as [ET Ec].
    split; auto. exists A, J. repeat split; auto.
    + now rewrite ET, <- !app_assoc.
    + rewrite He, ET, !length_app.
      destruct Hn as [-> | ->]; simpl; lia.
  - exfalso. rewrite !app_assoc in E. apply app_inj_tail in E.
    destruct E as [ET _]. rewrite <- !app_assoc in ET. subst T.
    eapply is_some_none; [exact H0|]. now apply em_some.
Qed.

Lemma link_fresh T c res :
  match_ T link_re = None ->
  match_ (T ++ [c]) link_re = Some res ->
  c = c_rparen /\
  exists A t u,
    T = A ++ c_lbrack :: t ++ c_rbrack :: c_lparen :: u /\
    opens_word A = true /\
    t <> [] /\ forallb is_dot t = true /\
    u <> [] /\ forallb is_dot u = true /\
    r_end res = List.length T + 1 /\
    r_caps res = [(5, [c_rparen]); (4, u); (3, [c_rbrack; c_lparen]); (2, t);
                  (1, [c_lbrack])].
Proof.
  intros H0 H1. apply link_inv in H1.
  destruct H1 as [A [t [u [rest [E [HA [Ht [Hpt [Hu [Hpu [He Hc]]]]]]]]]]].
  destruct (last_cases rest) as [->|[rest' [x ->]]].
  - assert (E' : T ++ [c] = (A ++ c_lbrack :: t ++ c_rbrack :: c_lparen :: u) ++ [c_rparen]).
    { rewrite E, <- !app_assoc. cbn [app]. rewrite <- !app_assoc. reflexivity. }
    apply app_inj_tail in E'. destruct E' as [ET Ec].
    split; auto. exists A, t, u. repeat split; auto.
    rewrite He, ET, !length_app. simpl. rewrite !length_app. simpl. lia.
  - exfalso.
    assert (E' : T ++ [c] =
      (A ++ c_lbrack :: t ++ c_rbrack :: c_lparen :: u ++ c_rparen :: rest') ++ [x]).
    { rewrite E, <- !app_assoc. cbn [app]. rewrite <- !app_assoc. cbn [app].
      rewrite <- !app_assoc. reflexivity. }
    apply app_inj_tail in E'. destruct E' as [ET _]. subst T.
    eapply is_some_none; [exact H0|]. now apply link_some.
Qed.

(** A match stays one when text is added after it. *)
Lemma em_mono n d p T text :
  n = 1 \/ n = 2 ->
  is_some (match_ T (em n d p)) = true ->
  is_some (match_ (T ++ text) (em n d p)) = true.
Proof.
  intros Hn H. destruct (match_ T (em n d p)) as [res|] eqn:E; [|discriminate].
  apply em_inv in E; auto.
  destruct E as [A [J [rest [-> [HA [HJ [Hp _]]]]]]].
  rewrite <- !app_assoc. now apply em_some.
Qed.

Lemma link_mono T text :
  is_some (match_ T link_re) = true ->
  is_some (match_ (T ++ text) link_re) = true.
Proof.
  intro H. destruct (match_ T link_re) as [res|] eqn:E; [|discriminate].
  apply link_inv in E.
  destruct E as [A [t [u [rest [-> [HA [Ht [Hpt [Hu [Hpu _]]]]]]]]]].
  rewrite <- !app_assoc. cbn [app]. rewrite <- !app_assoc. cbn [app].
  rewrite <- !app_assoc. cbn [app]. now apply link_some.
Qed.

(** *** The inline table *)

Lemma resolve_none table T :
  inline_resolve table T = None <->
  (forall sc, In sc table -> match_ T (i_match sc) = None).
Proof.
  induction table as [|sc table IH]; cbn [inline_resolve].
  - split; auto. intros _ sc [].
  - destruct (match_ T (i_match sc)) eqn:E.
    + split; [discriminate|]. intro H. rewrite (H sc) in E; [discriminate|now left].
    + rewrite IH. split.
      * intros H sc' [<-|Hin]; auto.
      * intros H sc' Hin. apply H. now right.
Qed.

Lemma resolve_some table T ty res :
  inline_resolve table T = Some (ty, res) ->
  exists sc, In sc table /\ i_type sc = ty /\ match_ T (i_match sc) = Some res.
Proof.
  induction table as [|sc table IH]; cbn [inline_resolve]; [discriminate|].
  destruct (match_ T (i_match sc)) eqn:E.
  - intro H. inversion H; subst. exists sc. repeat split; auto. now left.
  - intro H. destruct (IH H) as [sc' [Hin [Hty Hm]]].
    exists sc'. repeat split; auto. now right.
Qed.

(** Every entry of the inline table is an emphasis or code pattern with
    its mark, or the link pattern. *)
Lemma entry_shape sc :
  In sc INLINE_SHORTCUTS ->
  (exists n d p k, (n = 1 \/ n = 2) /\ i_match sc = em n d p
     /\ mark_of (i_type sc) = Some k
     /\ In (repeat_char n d, k) emphasis_rules
     /\ is_closer d = true /\ is_opener d = true /\ is_space d = false)
  \/ (i_match sc = link_re /\ i_type sc = link_).
Proof.
  rewrite table_shape.
  intros [<-|[<-|[<-|[<-|[<-|[<-|[]]]]]]]; cbn [i_match i_type mark_of];
    [left; exists 2, c_star, (is_not c_star), Bold
    |left; exists 2, c_under, (is_not c_under), Bold
    |left; exists 1, c_star, (is_not c_star), Italic
    |left; exists 1, c_under, (is_not c_under), Italic
    |left; exists 1, c_tick, is_dot, Code
    |right; auto];
    (repeat split; auto; cbn; auto 10).
Qed.

Lemma group_caps res n caps s :
  r_caps res = caps -> assoc n caps = Some s -> group res n = s.
Proof. intros <- H. unfold group. now rewrite H. Qed.

(** A match of a table entry that one more character brought about:
    the character is one a pattern ends with. *)
Lemma entry_closer sc T c res :
  In sc INLINE_SHORTCUTS ->
  match_ T (i_match sc) = None ->
  match_ (T ++ [c]) (i_match sc) = Some res ->
  is_closer c = true.
Proof.
  intros Hin H0 H1.
  destruct (entry_shape _ Hin)
    as [[n [d [p [k [Hn [Em [_ [_ [Hc _]]]]]]]]]|[Em _]];
    rewrite Em in *.
  - now destruct (em_fresh _ _ _ _ _ _ Hn H0 H1) as [-> _].
  - now destruct (link_fresh _ _ _ H0 H1) as [-> _].
Qed.

(** A character that ends no pattern brings no match about. *)
Lemma fresh_key T c :
  inline_resolve INLINE_SHORTCUTS T = None ->
  is_closer c = false ->
  inline_resolve INLINE_SHORTCUTS (T ++ [c]) = None.
Proof.
  intros H0 Hc. rewrite resolve_none in *. intros sc Hin.
  destruct (match_ (T ++ [c]) (i_match sc)) as [res|] eqn:E; auto.
  assert (Hc' := entry_closer sc T c res Hin (H0 _ Hin) E). congruence.
Qed.

Lemma entry_mono sc T text :
  In sc INLINE_SHORTCUTS ->
  is_some (match_ T (i_match sc)) = true ->
  is_some (match_ (T ++ text) (i_match sc)) = true.
Proof.
  intros Hin H.
  destruct (entry_shape _ Hin)
    as [[n [d [p [k [Hn [Em _]]]]]]|[Em Ety]]; rewrite Em in *.
  - now apply em_mono.
  - now apply link_mono.
Qed.

Lemma resolve_mono T text :
  inline_resolve INLINE_SHORTCUTS T <> None ->
  inline_resolve INLINE_SHORTCUTS (T ++ text) <> None.
Proof.
  intros H H'. apply H. rewrite resolve_none in *. intros sc Hin.
  destruct (match_ T (i_match sc)) as [res|] eqn:E; auto.
  exfalso. eapply is_some_none; [exact (H' _ Hin)|].
  apply entry_mono; auto. now rewrite E.
Qed.

Lemma head_opener E c :
  (forall w, In w E -> is_space w = false) ->
  forall A rest, E = A ++ c :: rest -> opens_word A = true ->
  exists E', E = c :: E'.
Proof.
  intros Hs A rest -> HA.
  destruct (opens_word_cases _ HA) as [->|[Q [w [-> Hw]]]].
  - now exists rest.
  - rewrite (Hs w) in Hw; [discriminate|].
    apply in_or_app. left. apply in_or_app. right. now left.
Qed.

(** No pattern matches inside a word that does not start with an
    opening delimiter. *)
Lemma word_quiet E :
  forallb (fun c => negb (is_space c)) E = true ->
  match E with c :: _ => is_opener c | [] => false end = false ->
  inline_resolve INLINE_SHORTCUTS E = None.
Proof.
  intros Hs Ho. rewrite resolve_none. intros sc Hin.
  assert (Hs' : forall w, In w E -> is_space w = false).
  { intros w Hw. rewrite forallb_forall in Hs. specialize (Hs w Hw).
    now destruct (is_space w). }
  destruct (match_ E (i_match sc)) as [res|] eqn:Em; auto. exfalso.
  destruct (entry_shape _ Hin)
    as [[n [d [p [k [Hn [Er [_ [_ [_ [Hd _]]]]]]]]]]|[Er Ety]]; rewrite Er in *.
  - apply em_inv in Em; auto.
    destruct Em as [A [J [rest [EE [HA _]]]]].
    assert (exists r', repeat_char n d ++ J ++ repeat_char n d ++ rest = d :: r')
      as [r' Er'] by (destruct Hn as [-> | ->]; eexists; reflexivity).
    rewrite Er' in EE.
    destruct (head_opener E d Hs' A r' EE HA) as [E' ->]. congruence.
  - apply link_inv in Em.
    destruct Em as [A [t [u [rest [EE [HA _]]]]]].
    destruct (head_opener E c_lbrack Hs' A _ EE HA) as [E' ->]. discriminate.
Qed.

(* ------------------------------------------------------------------ *)
(** ** The editor around the caret *)

Lemma skipn_left A (L R : list A) : skipn (List.length L) (L ++ R) = R.
Proof.
  induction L as [|a L IH]; [reflexivity|]. simpl. exact IH.
Qed.

(** Text on which no shortcut matches goes to the captured method, here
    the default insertion at the caret. *)
Lemma insertText_at above below ty u L R m text :
  isInline ty = false ->
  (text = [c_space] -> block_resolve BLOCK_SHORTCUTS L = None) ->
  inline_resolve INLINE_SHORTCUTS (L ++ text) = None ->
  Session.insertText text (line above below ty u (L ++ R) m (List.length L) None)
  = line above below ty u (L ++ text ++ R) m (List.length (L ++ text)) None.
Proof.
  intros Hty Hb Hi. unfold Session.insertText.
  rewrite (insertText_caret _ _ _ [List.length above; 0] (List.length L))
    by reflexivity.
  rewrite before_range_line, before_text_line, firstn_middle by auto.
  rewrite block_loop_resolve.
  destruct (str_eqb text [c_space]) eqn:E.
  - apply str_eqb_eq in E. rewrite (Hb E).
    rewrite inline_loop_resolve, element_text_line, firstn_middle, Hi.
    rewrite insertText_line, firstn_middle, skipn_left, length_app. reflexivity.
  - rewrite inline_loop_resolve, element_text_line, firstn_middle, Hi.
    rewrite insertText_line, firstn_middle, skipn_left, length_app. reflexivity.
Qed.

Lemma closer_not_space c : is_closer c = true -> str_eqb [c] [c_space] = false.
Proof.
  unfold is_closer. intro H. cbn [str_eqb]. rewrite andb_true_r.
  destruct (char_eqb c c_space) eqn:E; auto.
  apply char_eqb_eq in E. subst. discriminate.
Qed.

(** The body of the block loop with text after the caret. *)
Lemma apply_block_at above below ty u T R m pending r ty' lt :
  isInline ty = false -> T <> [] ->
  apply_block (MkBlock r ty' lt)
    (MkRange (MkPoint [List.length above; 0] (List.length T))
             (MkPoint [List.length above; 0] 0))
    (line above below ty u (T ++ R) m (List.length T) pending)
  = block_result_with above below ty' lt u R m.
Proof.
  intros Hty HT.
  assert (HL : List.length T <> 0) by (destruct T; simpl; congruence).
  unfold apply_block. cbn [b_type b_listType].
  assert (E1 : select (MkRange (MkPoint [List.length above; 0] (List.length T))
                               (MkPoint [List.length above; 0] 0))
                 (line above below ty u (T ++ R) m (List.length T) pending)
               = MkEditor (above ++ Element ty u [Text (T ++ R) m] :: below)
                   (Some (MkRange (MkPoint [List.length above; 0] (List.length T))
                                  (MkPoint [List.length above; 0] 0))) None).
  { unfold select, line, around, caret, Range_equals, Point_equals.
    cbn [selection children anchor focus path offset].
    rewrite !Path_equals_refl, Nat.eqb_refl. cbn [andb].
    destruct (Nat.eqb_spec (List.length T) 0); [contradiction|]. reflexivity. }
  rewrite E1.
  assert (E2 : delete (MkEditor (above ++ Element ty u [Text (T ++ R) m] :: below)
                   (Some (MkRange (MkPoint [List.length above; 0] (List.length T))
                                  (MkPoint [List.length above; 0] 0))) None)
               = line above below ty u R m 0 None).
  { unfold delete, Range_isCollapsed, Point_equals.
    cbn [selection anchor focus path offset].
    rewrite Path_equals_refl. cbn [andb].
    destruct (Nat.eqb_spec (List.length T) 0); [contradiction|].
    unfold delete_at, Range_edges, Point_compare. cbn [anchor focus path offset].
    rewrite Path_compare_refl.
    destruct (Nat.compare_spec (List.length T) 0); try lia.
    cbn [path offset]. rewrite Path_equals_refl.
    cbn [children selection marks option_map]. rewrite splice_leaf.
    unfold uncovered. cbn [path offset]. rewrite Path_equals_refl.
    rewrite skipn_left. cbn [firstn app].
    unfold map_range, move_point, Point_compare. cbn [anchor focus path offset].
    rewrite Path_equals_refl, Path_compare_refl, Nat.leb_refl. cbn [andb].
    destruct (Nat.leb_spec (List.length T) 0); try lia.
    rewrite Nat.sub_0_r, Nat.sub_diag. cbn.
    destruct (List.length T) eqn:EL; [contradiction|]. reflexivity. }
  rewrite E2.
  assert (E3 : setNodes_type ty' (line above below ty u R m 0 None)
               = line above below ty' u R m 0 None).
  { unfold setNodes_type, line. rewrite above_around by (simpl; now rewrite Hty).
    unfold around. cbn [children selection marks]. now rewrite splice_block. }
  rewrite E3. unfold block_result_with.
  destruct (String.eqb ty' "list-item") eqn:El; [|reflexivity].
  unfold wrapNodes_list, line, around.
  rewrite (above_caret _ _ [0] 0 None [List.length above]).
  cbn [app Path_ancestors_rev List.length Nat.sub List.seq map rev firstn lowest].
  rewrite get_block. cbn [isListItem]. rewrite El.
  cbn [children selection marks option_map]. rewrite splice_block.
  unfold map_range, push_down, caret. cbn [anchor focus path offset Path_isPrefix].
  rewrite Nat.eqb_refl. cbn [andb List.length skipn app]. reflexivity.
Qed.

(** *** Retyping a block and the blocks above the caret *)

Lemma nth_error_other A (l : list A) i j x y :
  nth_error l i = Some x -> j <> i ->
  nth_error (firstn i l ++ y :: skipn (S i) l) j = nth_error l j.
Proof.
  revert l j; induction i as [|i IH]; intros [|a l] j H Hj; simpl in *;
    try discriminate.
  - destruct j; [congruence|reflexivity].
  - destruct j; [reflexivity|]. simpl. apply IH; auto.
Qed.

(** Retyping the node at [q] changes no node at a longer path. *)
Lemma get_deeper ty : forall q cs q',
  List.length q < List.length q' ->
  get (splice (set_type ty) cs q) q' = get cs q'.
Proof.
  induction q as [|i q IH]; intros cs q' Hlen; [reflexivity|].
  destruct q' as [|j q']; [simpl in Hlen; lia|].
  simpl in Hlen. apply Nat.succ_lt_mono in Hlen.
  destruct (nth_error cs i) as [n|] eqn:E.
  2:{ now rewrite splice_none. }
  rewrite (splice_cons _ _ _ _ _ E).
  assert (Hq' : q' <> []) by (destruct q'; [simpl in Hlen; lia|discriminate]).
  destruct (Nat.eq_dec j i) as [->|Hj].
  - cbn [get]. rewrite E.
    destruct q as [|i' q].
    + destruct q' as [|j' q']; [congruence|].
      destruct n as [t m|ty0 u k]; cbn [set_type app];
        rewrite (nth_error_replaced _ _ _ _ _ _ E); reflexivity.
    + destruct n as [t m|ty0 u k]; cbn [app];
        rewrite (nth_error_replaced _ _ _ _ _ _ E); [reflexivity|].
      destruct q' as [|j' q']; [congruence|].
      apply IH. exact Hlen.
  - cbn [get].
    assert (Hn : forall y,
      nth_error (firstn i cs ++ [y] ++ skipn (S i) cs) j = nth_error cs j).
    { intro y. cbn [app]. now apply nth_error_other with n. }
    destruct q as [|i' q].
    + destruct n as [t m|ty0 u k]; cbn [set_type]; now rewrite Hn.
    + destruct n as [t m|ty0 u k]; now rewrite Hn.
Qed.

Lemma lowest_in f cs ps n q :
  lowest f cs ps = Some (n, q) -> In q ps.
Proof.
  induction ps as [|p ps IH]; simpl; [discriminate|].
  destruct (get cs p) as [n'|] eqn:G; auto.
  destruct (f n') eqn:F; auto.
  intro H; inversion H; subst. auto.
Qed.

(** The proper ancestors of a path, lowest first, get shorter. *)
Lemma ancestors_upto (p : Path) : forall k,
  k <= List.length p ->
  let A := rev (map (fun n => firstn n p) (List.seq 1 k)) in
  (forall x, In x A -> List.length x <= k)
  /\ ForallOrdPairs (fun a b => List.length b < List.length a) A.
Proof.
  induction k as [|k IH]; intro Hk.
  - simpl. split; [intros x []|constructor].
  - cbn zeta in *. rewrite seq_S, map_app, rev_app_distr. cbn [map rev app Nat.add].
    destruct IH as [Hb Hs]; [lia|].
    assert (Hl : List.length (firstn (S k) p) = S k)
      by (rewrite length_firstn; lia).
    split.
    + intros x [<-|Hx]; [lia|]. specialize (Hb x Hx). lia.
    + constructor; auto. rewrite Forall_forall. intros x Hx.
      specialize (Hb x Hx). lia.
Qed.

Lemma ancestors_sorted p :
  ForallOrdPairs (fun a b => List.length b < List.length a) (Path_ancestors_rev p).
Proof. unfold Path_ancestors_rev. apply ancestors_upto. lia. Qed.

(** Retyping the lowest block keeps it the lowest block. *)
Lemma lowest_set_type ty' ty u k q : forall ps cs,
  ForallOrdPairs (fun a b => List.length b < List.length a) ps ->
  isInline ty' = false ->
  lowest isBlock cs ps = Some (Element ty u k, q) ->
  lowest isBlock (splice (set_type ty') cs q) ps = Some (Element ty' u k, q).
Proof.
  induction ps as [|p ps IH]; intros cs Hs Hty H; [discriminate|].
  inversion Hs as [|? ? Hp Hs']; subst.
  cbn [lowest] in *.
  destruct (get cs p) as [n'|] eqn:G.
  - destruct (isBlock n') eqn:F.
    + inversion H; subst.
      rewrite (get_set_type ty' q cs ty u k G). cbn [isBlock]. now rewrite Hty.
    + assert (Hin := lowest_in _ _ _ _ _ H).
      rewrite Forall_forall in Hp. specialize (Hp q Hin).
      rewrite get_deeper, G, F by exact Hp. now apply IH.
  - assert (Hin := lowest_in _ _ _ _ _ H).
    rewrite Forall_forall in Hp. specialize (Hp q Hin).
    rewrite get_deeper, G by exact Hp. now apply IH.
Qed.

Lemma above_set_type ty' e ty u k q :
  isInline ty' = false ->
  above isBlock e = Some (Element ty u k, q) ->
  above isBlock (setNodes_type ty' e) = Some (Element ty' u k, q).
Proof.
  intros Hty H. unfold setNodes_type. rewrite H.
  unfold above in *. cbn [selection children].
  destruct (selection e) as [r|]; [|discriminate].
  apply lowest_set_type with ty; auto. apply ancestors_sorted.
Qed.

(** *** A block with two leaves *)

Lemma get_second above below ty u l0 l1 rest :
  get (above ++ Element ty u (l0 :: l1 :: rest) :: below) [List.length above; 1]
  = Some l1.
Proof. cbn [get]. rewrite nth_error_middle. reflexivity. Qed.

Lemma splice_second f above below ty u l0 l1 rest :
  splice f (above ++ Element ty u (l0 :: l1 :: rest) :: below) [List.length above; 1]
  = above ++ Element ty u (l0 :: f l1 ++ rest) :: below.
Proof.
  rewrite (splice_cons _ _ _ _ _ (nth_error_middle _ above below _)).
  now rewrite firstn_middle, skipn_middle.
Qed.

Lemma cmp_head n p q :
  Path_compare (n :: p) (n :: q) = Path_compare p q.
Proof. cbn [Path_compare]. now rewrite Nat.compare_refl. Qed.

Lemma eq_head n p q :
  Path_equals (n :: p) (n :: q) = Path_equals p q.
Proof. cbn [Path_equals]. now rewrite Nat.eqb_refl. Qed.

(** The text of a block with two leaves from the start of one of them
    to a point in the second. *)
Lemma string_two above below ty u A ma J mj sel pending o i0 :
  i0 <= 1 ->
  string_ (MkEditor (above ++ Element ty u [Text A ma; Text J mj] :: below) sel pending)
          (MkRange (MkPoint [List.length above; 1] o)
                   (MkPoint [List.length above; i0] 0))
  = (if Nat.eqb i0 0 then A else []) ++ firstn o J.
Proof.
  intro Hi. unfold string_.
  assert (E : Range_edges (MkRange (MkPoint [List.length above; 1] o)
                                   (MkPoint [List.length above; i0] 0))
              = (MkPoint [List.length above; i0] 0, MkPoint [List.length above; 1] o)
                \/ (o = 0 /\ i0 = 1 /\
                    Range_edges (MkRange (MkPoint [List.length above; 1] o)
                                   (MkPoint [List.length above; i0] 0))
                    = (MkPoint [List.length above; 1] 0, MkPoint [List.length above; 1] 0))).
  { unfold Range_edges, Point_compare. cbn [anchor focus path offset].
    rewrite cmp_head.
    destruct i0 as [|[|i0]]; try lia; cbn [Path_compare Nat.compare].
    - now left.
    - destruct o; cbn [Nat.compare]; [right|left]; auto. }
  assert (E' : Range_edges (MkRange (MkPoint [List.length above; 1] o)
                                   (MkPoint [List.length above; i0] 0))
              = (MkPoint [List.length above; i0] 0, MkPoint [List.length above; 1] o)).
  { destruct E as [E|[-> [-> E]]]; exact E. }
  clear E. rewrite E'. cbn [children]. unfold texts.
  rewrite texts_from_app. cbn [texts_from]. rewrite !map_app, !concat_app.
  match goal with
  | |- ?X ++ _ ++ ?Y = _ =>
      replace X with (@nil char); [replace Y with (@nil char)|]
  end.
  2:{ symmetry. apply concat_map_nil.
      intros [p t] Hin. destruct (texts_from_head _ _ _ _ Hin) as [j [rest [-> Hj]]].
      unfold in_span. cbn [fst path Path_compare].
      destruct (Nat.compare_spec (List.length above) j); try lia.
      destruct (Nat.compare_spec j (List.length above)); try lia. reflexivity. }
  2:{ symmetry. apply concat_map_nil.
      intros [p t] Hin. destruct (texts_from_head _ _ _ _ Hin) as [j [rest [-> Hj]]].
      unfold in_span. cbn [fst path Path_compare].
      destruct (Nat.compare_spec (List.length above) j); auto; lia. }
  cbn [app texts_node map concat fst snd Nat.add]. rewrite !app_nil_r.
  unfold in_span, covered. cbn [path offset]. rewrite !cmp_head, !eq_head.
  destruct i0 as [|[|i0]]; try lia;
    cbn [Path_compare Path_equals Nat.compare Nat.eqb andb List.concat skipn app];
    now rewrite ?app_nil_r.
Qed.

Lemma marks_differ k m :
  marks_eqb (set_mark k false (set_mark k true m)) (set_mark k true m) = false.
Proof. destruct k, m as [[] [] []]; reflexivity. Qed.

Lemma above_second f above below ty u l0 l1 o pending :
  f (Element ty u [l0; l1]) = true ->
  Slate.above f (MkEditor (above ++ Element ty u [l0; l1] :: below)
                   (Some (caret [List.length above; 1] o)) pending)
  = Some (Element ty u [l0; l1], [List.length above]).
Proof.
  intro H. rewrite (above_caret _ _ [1] o pending [List.length above]).
  cbn [app Path_ancestors_rev List.length Nat.sub List.seq map rev firstn lowest].
  now rewrite get_block, H.
Qed.

(** *** A shortcut with text after the caret *)

Lemma length_pos A (l : list A) : l <> [] -> 0 < List.length l.
Proof. destruct l; simpl; [congruence|lia]. Qed.

Lemma cut_mid (P I R : str) :
  I <> [] -> R <> [] ->
  cut (List.length P) (List.length P + List.length I) (P ++ I ++ R)
  = MkPieces (match P with [] => None | _ :: _ => Some P end) I (Some R).
Proof.
  intros HI HR. apply length_pos in HI, HR.
  unfold cut, inside. rewrite !length_app.
  assert (E1 : Nat.ltb 0 (List.length P + List.length I)
               && Nat.ltb (List.length P + List.length I)
                    (List.length P + (List.length I + List.length R)) = true).
  { apply andb_true_iff. split; apply Nat.ltb_lt; lia. }
  rewrite E1.
  assert (E2 : firstn (List.length P + List.length I) (P ++ I ++ R) = P ++ I).
  { rewrite app_assoc. apply firstn_app_left. now rewrite length_app. }
  assert (E3 : skipn (List.length P + List.length I) (P ++ I ++ R) = R).
  { rewrite app_assoc. apply skipn_app_left. now rewrite length_app. }
  rewrite E2, E3, length_app.
  destruct P as [|c P].
  - reflexivity.
  - assert (E : Nat.ltb 0 (List.length (c :: P))
                && Nat.ltb (List.length (c :: P))
                     (List.length (c :: P) + List.length I) = true).
    { apply andb_true_iff. split; apply Nat.ltb_lt; simpl; lia. }
    rewrite E. rewrite firstn_middle, skipn_left. reflexivity.
Qed.

Lemma setNodes_mark_mid above below ty u P I R m k pending :
  I <> [] -> R <> [] ->
  setNodes_mark k true
    (MkRange (MkPoint [List.length above; 0] (List.length P + List.length I))
             (MkPoint [List.length above; 0] (List.length P)))
    (line above below ty u (P ++ I ++ R) m (List.length P + List.length I) pending)
  = MkEditor (above ++ Element ty u (marked_leaves P I m k ++ [Text R m]) :: below)
             (Some (caret [List.length above; S (marked_index P)] 0))
             pending.
Proof.
  intros HI HR. unfold setNodes_mark, Range_edges, Point_compare.
  cbn [anchor focus path offset]. rewrite Path_compare_refl.
  assert (HL := length_pos _ _ HI).
  destruct (Nat.compare_spec (List.length P + List.length I) (List.length P)); try lia.
  cbn [path offset]. rewrite Path_equals_refl.
  unfold line, around. cbn [children selection marks].
  rewrite get_leaf, splice_leaf.
  unfold cut_points. rewrite cut_mid by auto. cbn [before middle after].
  destruct P as [|c P].
  - cbn [opt_leaf marked_leaves marked_index option_map app].
    unfold map_range, caret, split_point. cbn [anchor focus path offset].
    rewrite Path_equals_refl, Nat.leb_refl. cbn [Path_next].
    rewrite Nat.sub_diag. reflexivity.
  - cbn [opt_leaf marked_leaves marked_index option_map app].
    unfold map_range, caret, split_point. cbn [anchor focus path offset].
    rewrite Path_equals_refl, Nat.leb_refl. cbn [Path_next path offset].
    rewrite Nat.sub_diag.
    cbn [Path_equals]. rewrite Nat.eqb_refl. cbn [Nat.eqb andb].
    cbn [reindex last_index last]. rewrite Nat.eqb_refl. cbn [reindex].
    cbn [Nat.ltb Nat.leb]. reflexivity.
Qed.

(** The text leaf before a path, past leaves that come before it. *)
Lemma prev_text_skip p l1 : forall l2 acc,
  (forall x, In x l1 -> Path_compare (fst x) p = Lt) ->
  l1 <> [] ->
  exists a, prev_text p (l1 ++ l2) acc = prev_text p l2 (Some a).
Proof.
  induction l1 as [|[q [t mq]] l1 IH]; intros l2 acc H Hne; [congruence|].
  cbn [app prev_text].
  assert (Hq := H (q, (t, mq)) (or_introl eq_refl)). cbn [fst] in Hq. rewrite Hq.
  destruct l1 as [|x l1].
  - now exists (q, mq).
  - apply IH; [|discriminate]. intros y Hy. apply H. now right.
Qed.

Lemma prev_text_found p q t mq p' x rest l1 acc :
  (forall y, In y l1 -> Path_compare (fst y) p = Lt) ->
  Path_compare q p = Lt -> Path_compare p' p <> Lt ->
  prev_text p (l1 ++ (q, (t, mq)) :: (p', x) :: rest) acc = Some (q, mq).
Proof.
  intros H Hq Hp'.
  assert (E : forall a, prev_text p ((q, (t, mq)) :: (p', x) :: rest) a = Some (q, mq)).
  { intro a. cbn [prev_text]. rewrite Hq. destruct x as [t' m'].
    destruct (Path_compare p' p); congruence. }
  destruct l1 as [|y l1]; [apply E|].
  destruct (prev_text_skip p (y :: l1) ((q, (t, mq)) :: (p', x) :: rest) acc H)
    as [a ->]; [discriminate|]. apply E.
Qed.

Lemma removeMark_after above below ty u P I R m k :
  isInline ty = false ->
  removeMark k
    (MkEditor (above ++ Element ty u (marked_leaves P I m k ++ [Text R m]) :: below)
       (Some (caret [List.length above; S (marked_index P)] 0)) None)
  = MkEditor (above ++ Element ty u (marked_leaves P I m k ++ [Text R m]) :: below)
      (Some (caret [List.length above; S (marked_index P)] 0))
      (Some (set_mark k false (set_mark k true m))).
Proof.
  intro Hty. unfold removeMark. cbn [selection].
  assert (Hc : Range_isCollapsed (caret [List.length above; S (marked_index P)] 0) = true).
  { unfold caret, Range_isCollapsed, Point_equals. cbn [anchor focus path offset].
    now rewrite Path_equals_refl. }
  rewrite Hc. cbn [children]. do 2 f_equal.
  unfold Editor_marks. cbn [selection marks]. rewrite Hc.
  cbn [caret anchor path offset Nat.eqb children].
  rewrite (above_caret _ _ [S (marked_index P)] 0 None [List.length above]).
  cbn [app Path_ancestors_rev List.length Nat.sub List.seq map rev firstn lowest].
  rewrite get_block. cbn [isBlock]. rewrite Hty. cbn [negb].
  unfold texts. rewrite texts_from_app. cbn [texts_from].
  assert (Ha : forall y, In y (texts_from 0 above) ->
                 Path_compare (fst y) [List.length above; S (marked_index P)] = Lt).
  { intros [p t] Hin. destruct (texts_from_head _ _ _ _ Hin) as [j [rest [-> Hj]]].
    cbn [fst Path_compare].
    destruct (Nat.compare_spec j (List.length above)); auto; lia. }
  destruct P as [|c P]; cbn [marked_leaves marked_index app texts_node map fst snd].
  - rewrite (prev_text_found _ [0 + List.length above; 0] I (set_mark k true m)
               [0 + List.length above; 1] (R, m)); auto.
    + cbn [Path_isPrefix Nat.add]. now rewrite Nat.eqb_refl.
    + cbn [Path_compare Nat.add]. now rewrite Nat.compare_refl.
    + cbn [Path_compare Nat.add]. rewrite Nat.compare_refl. discriminate.
  - match goal with
    | |- context [prev_text _ (?X ++ ?a :: ?l) None] =>
        replace (X ++ a :: l) with ((X ++ [a]) ++ l)
          by (rewrite <- app_assoc; reflexivity)
    end.
    rewrite (prev_text_found _ [0 + List.length above; 1] I (set_mark k true m)
               [0 + List.length above; 2] (R, m) _
               (texts_from 0 above ++ [([0 + List.length above; 0], (c :: P, m))])).
    + cbn [Path_isPrefix Nat.add]. now rewrite Nat.eqb_refl.
    + intros y Hy. apply in_app_or in Hy. destruct Hy as [Hy|[<-|[]]]; auto.
      cbn [fst Path_compare Nat.add]. now rewrite Nat.compare_refl.
    + cbn [Path_compare Nat.add]. now rewrite Nat.compare_refl.
    + cbn [Path_compare Nat.add]. rewrite Nat.compare_refl. discriminate.
Qed.

(** The mark branch with text after the caret. *)
Lemma apply_mark_mid above below ty u P D I D' R m k res :
  isInline ty = false -> I <> [] -> R <> [] ->
  List.length (group res 1) = List.length D ->
  List.length (group res 2) = List.length I ->
  List.length (group res 3) = S (List.length D') ->
  apply_mark k res
    (MkPoint [List.length above; 0] (List.length (P ++ D ++ I ++ D')))
    (line above below ty u ((P ++ D ++ I ++ D') ++ R) m
          (List.length (P ++ D ++ I ++ D')) None)
  = MkEditor (above ++ Element ty u (marked_leaves P I m k ++ [Text R m]) :: below)
             (Some (caret [List.length above; S (marked_index P)] 0))
             (Some (set_mark k false (set_mark k true m))).
Proof.
  intros Hty HI HR H1 H2 H3. unfold apply_mark. cbn [path offset].
  rewrite H1, H2, H3. cbn [Nat.sub]. rewrite Nat.sub_0_r.
  rewrite deleteText_line; rewrite ?length_app; try lia.
  replace (firstn _ _ ++ skipn _ _) with ((P ++ D ++ I) ++ R).
  2:{ f_equal.
      - symmetry. rewrite <- !app_assoc.
        replace (P ++ D ++ I ++ D' ++ R) with ((P ++ D ++ I) ++ D' ++ R)
          by (now rewrite <- !app_assoc).
        apply firstn_app_left. rewrite !length_app. lia.
      - symmetry. apply skipn_app_left. rewrite !length_app. lia. }
  rewrite deleteText_line; rewrite ?length_app; try lia.
  replace (firstn _ _ ++ skipn _ _) with (P ++ I ++ R).
  2:{ f_equal.
      - symmetry. rewrite <- !app_assoc. apply firstn_app_left. lia.
      - symmetry. rewrite <- !app_assoc.
        replace (P ++ D ++ I ++ R) with ((P ++ D) ++ I ++ R)
          by (now rewrite <- !app_assoc).
        apply skipn_app_left. rewrite length_app. lia. }
  replace (List.length P + (List.length D + (List.length I + List.length D'))
           - List.length D' - List.length D) with (List.length P + List.length I) by lia.
  replace (List.length P + List.length I - List.length I) with (List.length P) by lia.
  rewrite setNodes_mark_mid by auto.
  now apply removeMark_after.
Qed.

Lemma wrapNodes_link_mid above below ty u0 P t R url m pending :
  t <> [] -> R <> [] ->
  wrapNodes_link url
    (MkRange (MkPoint [List.length above; 0] (List.length P + List.length t))
             (MkPoint [List.length above; 0] (List.length P)))
    (line above below ty u0 (P ++ t ++ R) m (List.length P + List.length t) pending)
  = MkEditor (above ++ Element ty u0 (link_leaves_with P t url m R) :: below)
             (Some (caret [List.length above; 2] 0))
             pending.
Proof.
  intros Ht HR. unfold wrapNodes_link, Range_edges, Point_compare.
  cbn [anchor focus path offset]. rewrite Path_compare_refl.
  assert (HL := length_pos _ _ Ht).
  destruct (Nat.compare_spec (List.length P + List.length t) (List.length P)); try lia.
  cbn [path offset]. rewrite Path_equals_refl.
  unfold line, around. cbn [children selection marks].
  rewrite get_leaf, splice_leaf.
  unfold cut_points, middle_path. rewrite cut_mid by auto.
  cbn [before middle after removelast].
  unfold children_at, map_children. rewrite get_block, splice_block.
  destruct P as [|c P].
  - cbn [opt_leaf app surround isInlineNode isInline String.eqb Ascii.eqb Bool.eqb
         isTextNode link_leaves_with option_map].
    unfold map_range, caret, split_point. cbn [anchor focus path offset].
    rewrite Path_equals_refl, Nat.leb_refl. cbn [Path_next path offset].
    rewrite Nat.sub_diag.
    unfold push_down. cbn [path offset Path_isPrefix].
    rewrite !Nat.eqb_refl. cbn.
    rewrite Nat.eqb_refl. reflexivity.
  - cbn [opt_leaf app surround isInlineNode isInline String.eqb Ascii.eqb Bool.eqb
         isTextNode link_leaves_with option_map].
    unfold map_range, caret, split_point. cbn [anchor focus path offset].
    rewrite Path_equals_refl, Nat.leb_refl. cbn [Path_next path offset].
    rewrite Nat.sub_diag.
    cbn [Path_equals]. rewrite Nat.eqb_refl. cbn [Nat.eqb andb].
    cbn [reindex last_index last]. rewrite Nat.eqb_refl. cbn [reindex].
    cbn [Nat.ltb Nat.leb].
    unfold push_down. cbn [path offset Path_isPrefix].
    rewrite !Nat.eqb_refl. cbn.
    rewrite Nat.eqb_refl. reflexivity.
Qed.

(** The link branch with text after the caret. *)
Lemma apply_link_mid above below ty u0 P t url R m pending res :
  t <> [] -> R <> [] ->
  group res 1 = [c_lbrack] -> group res 2 = t ->
  group res 3 = [c_rbrack; c_lparen] -> group res 4 = url ->
  group res 5 = [c_rparen] ->
  apply_link res
    (MkPoint [List.length above; 0]
       (List.length (P ++ [c_lbrack] ++ t ++ [c_rbrack; c_lparen] ++ url)))
    (line above below ty u0
          ((P ++ [c_lbrack] ++ t ++ [c_rbrack; c_lparen] ++ url) ++ R) m
          (List.length (P ++ [c_lbrack] ++ t ++ [c_rbrack; c_lparen] ++ url)) pending)
  = MkEditor (above ++ Element ty u0 (link_leaves_with P t url m R) :: below)
             (Some (caret [List.length above; 2] 0))
             pending.
Proof.
  intros Ht HR G1 G2 G3 G4 G5. unfold apply_link. cbn [path offset].
  rewrite G1, G2, G3, G4, G5. cbn [List.length Nat.sub Nat.add].
  rewrite Nat.add_0_r.
  rewrite deleteText_line; rewrite ?length_app; cbn [List.length]; try lia.
  replace (firstn _ _ ++ skipn _ _) with ((P ++ [c_lbrack] ++ t) ++ R).
  2:{ f_equal.
      - replace ((P ++ [c_lbrack] ++ t ++ [c_rbrack; c_lparen] ++ url) ++ R)
          with ((P ++ [c_lbrack] ++ t) ++ ([c_rbrack; c_lparen] ++ url) ++ R)
          by (now rewrite <- !app_assoc).
        symmetry. apply firstn_app_left. rewrite !length_app. cbn [List.length]. lia.
      - symmetry. apply skipn_app_left. rewrite !length_app. cbn [List.length]. lia. }
  rewrite deleteText_line; rewrite ?length_app; cbn [List.length]; try lia.
  replace (firstn _ _ ++ skipn _ _) with (P ++ t ++ R).
  2:{ f_equal.
      - symmetry. rewrite <- !app_assoc. apply firstn_app_left. lia.
      - symmetry.
        replace ((P ++ [c_lbrack] ++ t) ++ R) with ((P ++ [c_lbrack]) ++ t ++ R)
          by (now rewrite <- !app_assoc).
        apply skipn_app_left. rewrite length_app. cbn [List.length]. lia. }
  replace (List.length P + (1 + (List.length t + (2 + List.length url)))
           - S (S (List.length url)) - 1) with (List.length P + List.length t) by lia.
  replace (List.length P + List.length t - List.length t) with (List.length P) by lia.
  now apply wrapNodes_link_mid.
Qed.

(** *** The types the block table gives *)

Lemma trigger_types T ty' lt :
  trigger_of T = Some (ty', lt) ->
  (ty' = "list-item"%string /\ lt <> None)
  \/ (lt = None /\ isInline ty' = false
      /\ ty' <> "paragraph"%string /\ ty' <> "list-item"%string).
Proof.
  unfold trigger_of. intro H.
  repeat match type of H with
  | (if ?b then _ else _) = _ => destruct b
  end; inversion H; subst;
    try (left; split; [reflexivity|discriminate]);
    right; repeat split; discriminate.
Qed.

(* ------------------------------------------------------------------ *)
(** ** The deletion interceptor *)

Import AutoMarkdown Session.
Local Open Scope string_scope.
Local Open Scope list_scope.

(** C4.  A backward deletion with a caret at the start of the enclosing
    block, when that block is neither a paragraph nor a list item, is
    [Transforms.setNodes(editor, { type: 'paragraph' })] and nothing
    else, whatever the captured [deleteBackward] is: the block gets the
    type paragraph and keeps its properties and children, every text
    leaf of the document keeps its path and its text (no character is
    deleted, no block is merged), and the selection stays. *)
Theorem outdent_consumes_backspace
    (deleteBackward0 : Editor -> Editor) (e : Editor) (sel : Range)
    (ty : string) (u : option str) (cs : list Node) (q : Path) :
  selection e = Some sel ->
  Range_isCollapsed sel = true ->
  above isBlock e = Some (Element ty u cs, q) ->
  ty <> "paragraph" -> ty <> "list-item" ->
  Point_equals (anchor sel) (start e q) = true ->
  let e' := AutoMarkdown.deleteBackward deleteBackward0 e in
  e' = setNodes_type "paragraph" e
  /\ get (children e') q = Some (Element "paragraph" u cs)
  /\ texts (children e') = texts (children e)
  /\ List.length (children e') = List.length (children e)
  /\ selection e' = selection e.
Proof.
  intros Hsel Hcol Habove Hp Hl Hstart e'.
  assert (He : e' = setNodes_type "paragraph" e).
  { unfold e', AutoMarkdown.deleteBackward. rewrite Hsel, Hcol, Habove.
    unfold outdents. rewrite Hstart.
    apply String.eqb_neq in Hp, Hl. now rewrite Hp, Hl. }
  split; [exact He|]. rewrite He. unfold setNodes_type. rewrite Habove.
  cbn [children selection].
  destruct (above_sound _ _ _ _ Habove) as [G _].
  repeat split.
  - now apply get_set_type with ty.
  - apply texts_from_set_type.
  - apply length_set_type.
Qed.

Lemma outdent_consumes_backspace_witness :
  let e' := AutoMarkdown.deleteBackward wipe heading_doc in
  e' = setNodes_type "paragraph" heading_doc
  /\ get (children e') [1] = Some (Element "paragraph" None [plain (lit "Title")])
  /\ texts (children e') = texts (children heading_doc)
  /\ List.length (children e') = List.length (children heading_doc)
  /\ selection e' = selection heading_doc.
Proof.
  apply (outdent_consumes_backspace wipe heading_doc (caret [1; 0] 0)
           "heading-one" None [plain (lit "Title")] [1]);
    try reflexivity; discriminate.
Defined.

(** C9.  With no selection, or with a selection that is not collapsed,
    the overridden [deleteBackward] returns the editor it was given:
    document, selection and pending marks are untouched, and this for
    every captured [deleteBackward], so the captured method is not
    called. *)
Theorem backspace_without_caret_does_nothing
    (deleteBackward0 : Editor -> Editor) (e : Editor) :
  (selection e = None
   \/ exists sel, selection e = Some sel /\ Range_isCollapsed sel = false) ->
  AutoMarkdown.deleteBackward deleteBackward0 e = e.
Proof.
  unfold AutoMarkdown.deleteBackward.
  intros [H | [sel [H Hc]]]; rewrite H; [|rewrite Hc]; reflexivity.
Qed.

Lemma backspace_without_caret_does_nothing_witness :
  AutoMarkdown.deleteBackward wipe unfocused_doc = unfocused_doc
  /\ AutoMarkdown.deleteBackward wipe selected_doc = selected_doc.
Proof.
  split.
  - apply (backspace_without_caret_does_nothing wipe unfocused_doc).
    left; reflexivity.
  - apply (backspace_without_caret_does_nothing wipe selected_doc).
    right. exists (MkRange (MkPoint [1; 0] 0) (MkPoint [1; 0] 5)).
    split; reflexivity.
Defined.

(** C3, as stated, fails: with no selection the outdent condition does
    not hold, yet the captured deletion is not performed.  The captured
    method here empties the document; the overridden one leaves it as
    it is. *)
Lemma backspace_default_counterexample :
  outdent_applies unfocused_doc = false
  /\ AutoMarkdown.deleteBackward wipe unfocused_doc = unfocused_doc
  /\ AutoMarkdown.deleteBackward wipe unfocused_doc <> wipe unfocused_doc.
Proof. repeat split; discriminate. Qed.

(** C3, amended.  When the outdent branch is not taken, a backward
    deletion with a caret is the captured [deleteBackward]; with no
    selection or an expanded one it does nothing. *)
Theorem backspace_default_needs_caret
    (deleteBackward0 : Editor -> Editor) (e : Editor) :
  outdent_applies e = false ->
  AutoMarkdown.deleteBackward deleteBackward0 e =
  match selection e with
  | Some sel => if Range_isCollapsed sel then deleteBackward0 e else e
  | None => e
  end.
Proof.
  unfold outdent_applies, AutoMarkdown.deleteBackward.
  destruct (selection e) as [sel|]; [|reflexivity].
  destruct (Range_isCollapsed sel); [|reflexivity].
  destruct (above isBlock e) as [[block p]|]; [|reflexivity].
  cbn [andb]. now intros ->.
Qed.

Lemma backspace_default_needs_caret_witness :
  AutoMarkdown.deleteBackward wipe (one_paragraph (lit "abc"))
  = wipe (one_paragraph (lit "abc")).
Proof.
  apply (backspace_default_needs_caret wipe (one_paragraph (lit "abc"))).
  reflexivity.
Defined.

(* ------------------------------------------------------------------ *)
(** ** The insertion interceptor: where the match lies *)

(** C2.  The patterns of [INLINE_SHORTCUTS] are not anchored at the end
    of the text, so a match may lie wholly in committed text.  The
    session [stale_pattern_doc] ends on the line [**a** b] with the
    caret after [b].  Typing [c] then matches the bold pattern at
    indices 0 to 5 of the 8 characters looked at: the closing delimiter
    does not end at the caret and its last character is not the typed
    one.  The plugin still deletes one character before the caret, the
    [b], takes the committed closing delimiter for the opening one, and
    marks the blank bold; [c] is not inserted. *)
Theorem stale_pattern_misfires :
  children stale_pattern_doc = [paragraph [plain (lit "**a** b")]]
  /\ selection stale_pattern_doc = Some (caret [0; 0] 7)
  /\ inline_resolve INLINE_SHORTCUTS
       (element_text stale_pattern_doc (MkPoint [0; 0] 7) (lit "c"))
     = Some (bold_, Result 0 5 [(3, lit "**"); (2, lit "a"); (1, lit "**")])
  /\ children (deleteText [0; 0] 7 1 stale_pattern_doc)
     = [paragraph [plain (lit "**a** ")]]
  /\ children (Session.insertText (lit "c") stale_pattern_doc)
     = [paragraph [plain (lit "**a"); Text (lit " ") (MkMarks true false false)]].
Proof. repeat split; vm_compute; reflexivity. Qed.

(* ------------------------------------------------------------------ *)
(** ** The insertion interceptor: emphasis and code *)

(** C1, as stated, fails on an inner text without delimiter characters
    in an otherwise plain paragraph.  In an empty paragraph the star
    rule with the inner text [ a] never gets to the closing star: the
    space after the opening star is the bulleted-list trigger, and the
    paragraph ends as a list item with the text [a*].  After the text
    [a] nothing is transformed at all, since every inline pattern wants
    the start of the leaf or white space before the opening
    delimiter.  Nor is anything transformed for the empty inner text,
    or under the code rule for an inner text with a line feed. *)
Lemma emphasis_shortcut_counterexample :
  In (lit "*", Italic) emphasis_rules
  /\ no_delimiter (lit " a") = true /\ no_delimiter (lit "w") = true
  /\ children (type_keys (lit "*" ++ lit " a" ++ lit "*") (one_paragraph []))
     = [Element "bulleted-list" None
          [Element "list-item" None [plain (lit "a*")]]]
  /\ children (type_keys (lit "*" ++ lit "w" ++ lit "*") (one_paragraph (lit "a")))
     = [paragraph [plain (lit "a*w*")]]
  /\ children (type_keys (lit "**" ++ [] ++ lit "**") (one_paragraph []))
     = [paragraph [plain (lit "****")]]
  /\ children (type_keys (lit "`" ++ [97; 10; 98]%N ++ lit "`") (one_paragraph []))
     = [paragraph [plain ([96; 97; 10; 98; 96]%N)]].
Proof.
  split; [right; right; left; reflexivity|].
  repeat split; vm_compute; reflexivity.
Qed.

(** C1, amended.  Typing a delimiter of the emphasis and code rules,
    an inner text and the delimiter again, one keystroke at a time, at
    the end of a plain paragraph leaf [P]: when [P] has no delimiter
    character and is empty or ends in white space, and the inner text
    is not empty and has no delimiter character (for the code rule, no
    line terminator either), and the keystrokes are not a star and a
    space at the start of an empty paragraph, the paragraph ends with
    the leaves [P] (if not empty) and the inner text carrying exactly
    the mark of the rule.  No delimiter is left and the last keystroke
    is not inserted; the pending marks are cleared. *)
Theorem emphasis_shortcut above below D k P I :
  In (D, k) emphasis_rules ->
  no_delimiter P = true -> opens_word P = true ->
  no_delimiter I = true -> I <> [] ->
  (k = Code -> forallb is_dot I = true) ->
  ~ (P = [] /\ D = lit "*" /\ exists I', I = c_space :: I') ->
  type_keys (D ++ I ++ D)
    (line above below "paragraph" None P no_marks (List.length P) None)
  = MkEditor (above ++ paragraph (marked_leaves P I no_marks k) :: below)
             (Some (caret [List.length above; marked_index P] (List.length I)))
             (Some no_marks).
Proof.
  intros Hin HP Hw HI Hne Hdot Hx.
  assert (Hinner := type_inner above below D k P I Hin HP Hw HI Hx).
  assert (Hfinal := fun D0 dl H =>
            final_keystroke above below D D0 dl k P I H Hin HP Hw HI Hne Hdot).
  destruct (rule_shape _ _ Hin) as [d [Hd [Hsp [->|[-> Hd2]]]]].
  - cbn [app type_keys].
    rewrite insertText_quiet; [| reflexivity | intro; contradiction
                               | apply (quiet_single d P []); auto ].
    rewrite type_keys_app, Hinner. cbn [type_keys].
    specialize (Hfinal [] d eq_refl). rewrite app_nil_r in Hfinal. exact Hfinal.
  - cbn [app type_keys].
    rewrite insertText_quiet; [| reflexivity | intro; contradiction
                               | apply (quiet_single d P []); auto ].
    rewrite insertText_quiet; [| reflexivity | intro; contradiction
                               | rewrite <- app_assoc;
                                 apply (quiet_double d P [] 0); auto ].
    rewrite <- app_assoc. cbn [app].
    change (I ++ [d; d]) with (I ++ [d] ++ [d]).
    rewrite !type_keys_app, Hinner. cbn [type_keys].
    rewrite insertText_quiet; [| reflexivity | intro; contradiction
                               | rewrite <- !app_assoc;
                                 apply (quiet_double d P I 1); auto ].
    specialize (Hfinal [d] d eq_refl).
    rewrite <- !app_assoc. exact Hfinal.
Qed.

Lemma emphasis_shortcut_witness :
  type_keys (lit "*" ++ lit "world" ++ lit "*")
    (line [] [] "paragraph" None (lit "Hello ") no_marks 6 None)
  = MkEditor [paragraph [plain (lit "Hello ");
                         Text (lit "world") (MkMarks false true false)]]
             (Some (caret [0; 1] 5)) (Some no_marks).
Proof.
  apply (emphasis_shortcut [] [] (lit "*") Italic (lit "Hello ") (lit "world")).
  - right; right; left; reflexivity.
  - reflexivity.
  - reflexivity.
  - reflexivity.
  - discriminate.
  - discriminate.
  - intros [H _]. discriminate.
Defined.

(* ------------------------------------------------------------------ *)
(** ** The insertion interceptor: the order of the table *)

(** C8, as stated, fails: a text that ends in [**word**] need not
    resolve to the bold rule.  Typed after the letter [x], the stars
    open no pattern: no rule matches, and the last star is inserted as
    it is.  And on the line [x *y**word**] the bold pattern does not
    match, the italic one does, on [*y*]. *)
Lemma bold_before_italic_counterexample :
  inline_resolve INLINE_SHORTCUTS (lit "x**word**") = None
  /\ children (type_keys (lit "**word**") (one_paragraph (lit "x")))
     = [paragraph [plain (lit "x**word**")]]
  /\ option_map fst (inline_resolve INLINE_SHORTCUTS (lit "x *y**word**"))
     = Some italic_.
Proof. repeat split; vm_compute; reflexivity. Qed.

(** C8, amended.  On a leaf whose text before the caret ends in
    [**word*], where [word] is not empty and has no star and the two
    opening stars come at the start of the leaf or after white space,
    typing the last star resolves to the first entry of the table,
    the bold rule with stars, whatever comes before: the insertion is
    the emphasis branch for the bold mark, on a match of that entry. *)
Theorem bold_before_italic above below ty u m pending pre word :
  opens_word pre = true -> word <> [] -> ~ In c_star word ->
  let T := pre ++ lit "**" ++ word ++ lit "*" in
  let e := line above below ty u T m (List.length T) pending in
  exists res,
    match_ (T ++ [c_star]) (i_match (hd (MkInline Eps link_) INLINE_SHORTCUTS))
    = Some res
    /\ inline_resolve INLINE_SHORTCUTS (T ++ [c_star]) = Some (bold_, res)
    /\ Session.insertText [c_star] e
       = apply_mark Bold res (MkPoint [List.length above; 0] (List.length T)) e.
Proof.
  intros Hw Hne Hs T e.
  destruct (bold_matches pre word Hw Hne Hs) as [res Hres].
  assert (HT : T ++ [c_star] = pre ++ lit "**" ++ word ++ lit "**").
  { unfold T. now rewrite <- !app_assoc. }
  exists res. rewrite HT.
  assert (Hr : inline_resolve INLINE_SHORTCUTS (pre ++ lit "**" ++ word ++ lit "**")
               = Some (bold_, res)).
  { rewrite table_shape. cbn [inline_resolve i_match i_type]. now rewrite Hres. }
  split; [exact Hres|]. split; [exact Hr|].
  unfold Session.insertText, e.
  rewrite (insertText_caret _ _ _ [List.length above; 0] (List.length T))
    by reflexivity.
  change (str_eqb [c_star] [c_space]) with false. cbv iota.
  rewrite inline_loop_resolve, element_text_line, firstn_all, HT, Hr.
  reflexivity.
Qed.

Lemma bold_before_italic_witness :
  exists res,
    match_ (lit "see **word**") (i_match (hd (MkInline Eps link_) INLINE_SHORTCUTS))
    = Some res
    /\ inline_resolve INLINE_SHORTCUTS (lit "see **word**") = Some (bold_, res)
    /\ Session.insertText [c_star] (one_paragraph (lit "see **word*"))
       = apply_mark Bold res (MkPoint [0; 0] 11) (one_paragraph (lit "see **word*")).
Proof.
  apply (bold_before_italic [] [] "paragraph" None no_marks None
           (lit "see ") (lit "word")).
  - reflexivity.
  - discriminate.
  - cbn. intros [H|[H|[H|[H|[]]]]]; discriminate.
Defined.

(* ------------------------------------------------------------------ *)
(** ** The insertion interceptor: block shortcuts *)

(** Every entry of [BLOCK_SHORTCUTS] has its triggers. *)
Example block_triggers :
  map trigger_of
    [lit "*"; lit "-"; lit "+"; lit "1."; lit "2024."; lit ">";
     lit "#"; lit "##"; lit "###"]
  = [Some ("list-item", Some "bulleted-list"); Some ("list-item", Some "bulleted-list");
     Some ("list-item", Some "bulleted-list"); Some ("list-item", Some "numbered-list");
     Some ("list-item", Some "numbered-list"); Some ("block-quote", None);
     Some ("heading-one", None); Some ("heading-two", None);
     Some ("heading-three", None)]
  /\ map trigger_of [lit " #"; lit "# "; lit "####"; lit "1"; lit "."; lit "a."; lit "**"]
     = [None; None; None; None; None; None; None].
Proof. split; reflexivity. Qed.

(** C5.  The loop over [BLOCK_SHORTCUTS] resolves the text from the
    start of the block to the caret as the specification's table
    resolves the whole of it, and a pattern that matches covers that
    text from its first to its last character.  When the text is a
    trigger, typing it into an empty paragraph and then a space, one
    keystroke at a time, leaves the block with the type of the rule and
    an empty leaf (inside a new list for the list rules).  When it is
    not, because of a character before or after a trigger, the space
    makes no block shortcut run: the insertion is what the loop over
    the inline shortcuts gives, for a block of any type. *)
Theorem block_shortcut above below u m T :
  block_resolve BLOCK_SHORTCUTS T = trigger_of T
  /\ (forall sc res,
        In sc BLOCK_SHORTCUTS -> match_ T (b_match sc) = Some res ->
        r_index res = 0 /\ r_end res = List.length T)
  /\ match trigger_of T with
     | Some (type, listType) =>
         type_keys (T ++ [c_space])
           (line above below "paragraph" u [] m 0 None)
         = block_result above below type listType u m
     | None =>
         forall ty pending,
           isInline ty = false ->
           Session.insertText [c_space]
             (line above below ty u T m (List.length T) pending)
           = inline_loop Slate.insertText INLINE_SHORTCUTS (T ++ [c_space])
               [c_space] (MkPoint [List.length above; 0] (List.length T))
               (line above below ty u T m (List.length T) pending)
     end.
Proof.
  split; [apply block_resolve_trigger|].
  split; [intros sc res; apply block_match_whole|].
  destruct (trigger_of T) as [[type listType]|] eqn:HT.
  - rewrite type_keys_app.
    rewrite (type_trigger above below "paragraph" u m T (type, listType));
      auto.
    cbn [type_keys]. now apply insertText_trigger.
  - intros ty pending Hty. now apply insertText_no_trigger.
Qed.

(** C6.  After the space that completes a trigger in a paragraph that
    holds nothing else, a list rule leaves, where the paragraph was, one
    new element of the rule's list type, bulleted or numbered, with
    the retyped block as its only child; any other rule leaves the
    retyped block where the paragraph was, with no element around it.
    The blocks above and below are as they were. *)
Theorem list_container above below u m pending T type listType :
  trigger_of T = Some (type, listType) ->
  let e' := Session.insertText [c_space]
              (line above below "paragraph" u T m (List.length T) pending) in
  (type = "list-item" ->
     exists kind,
       listType = Some kind
       /\ (kind = "bulleted-list" \/ kind = "numbered-list")
       /\ children e'
          = above ++ Element kind None [Element "list-item" u [Text [] m]] :: below)
  /\ (type <> "list-item" ->
       listType = None
       /\ children e' = above ++ Element type u [Text [] m] :: below).
Proof.
  intros HT e'. unfold e'.
  rewrite (insertText_trigger above below "paragraph" u T m pending type listType)
    by auto.
  unfold trigger_of in HT.
  repeat match type of HT with
         | (if ?b then _ else _) = _ => destruct b
         end;
    inversion HT; subst; unfold block_result; cbn [String.eqb Ascii.eqb Bool.eqb children];
    split; intro H; try congruence; try discriminate;
    try (split; reflexivity);
    eexists; (split; [reflexivity|]); (split; [|reflexivity]); auto.
Qed.

Lemma list_container_witness :
  let e' := Session.insertText [c_space]
              (line [] [] "paragraph" None (lit "12.") no_marks 3 None) in
  ("list-item"%string = "list-item"%string ->
     exists kind,
       Some "numbered-list"%string = Some kind
       /\ (kind = "bulleted-list" \/ kind = "numbered-list")
       /\ children e'
          = [] ++ Element kind None
                    [Element "list-item" None [Text [] no_marks]] :: [])
  /\ ("list-item"%string <> "list-item"%string ->
       Some "numbered-list"%string = None
       /\ children e' = [] ++ Element "list-item" None [Text [] no_marks] :: []).
Proof.
  apply (list_container [] [] None no_marks None (lit "12.")
           "list-item" (Some "numbered-list"%string)).
  reflexivity.
Defined.

(** C10.  The block shortcuts do not look at the type of the block.
    Whatever the type of a block that holds nothing but a trigger (any
    type that is not inline, such as a heading), the space after the
    trigger gives the editor it gives for a paragraph: the block takes
    the type of the rule. *)
Theorem block_shortcut_any_type above below ty u m pending T type listType :
  isInline ty = false ->
  trigger_of T = Some (type, listType) ->
  Session.insertText [c_space] (line above below ty u T m (List.length T) pending)
  = block_result above below type listType u m
  /\ Session.insertText [c_space] (line above below ty u T m (List.length T) pending)
     = Session.insertText [c_space]
         (line above below "paragraph" u T m (List.length T) pending).
Proof.
  intros Hty HT.
  rewrite (insertText_trigger above below ty u T m pending type listType) by auto.
  rewrite (insertText_trigger above below "paragraph" u T m pending type listType)
    by auto.
  split; reflexivity.
Qed.

Lemma block_shortcut_any_type_witness :
  Session.insertText [c_space]
    (line [] [] "heading-one" None (lit ">") no_marks 1 None)
  = MkEditor [Element "block-quote" None [Text [] no_marks]]
             (Some (caret [0; 0] 0)) None
  /\ Session.insertText [c_space]
       (line [] [] "heading-one" None (lit ">") no_marks 1 None)
     = Session.insertText [c_space]
         (line [] [] "paragraph" None (lit ">") no_marks 1 None).
Proof.
  apply (block_shortcut_any_type [] [] "heading-one" None no_marks None
           (lit ">") "block-quote" None); reflexivity.
Defined.

(* ------------------------------------------------------------------ *)
(** ** The insertion interceptor: links *)




(* ------------------------------------------------------------------ *)
(** ** Further properties of the two methods and of [deleteText] *)

(** *** [deleteText] *)

(** X1.  [deleteText(editor, path, offset, length)] on a text leaf
    removes exactly the [length] characters that end at [offset]: on
    the leaf [L ++ M ++ R], called with the offset at the end of [M]
    and the length of [M], it leaves the leaf [L ++ R] and touches
    nothing else of the document.  With an empty [M] the two offsets
    are equal and nothing is deleted.  A caret of the leaf at or before
    [L] stays, a caret inside [M] goes to the end of [L], a caret after
    [M] moves back by the length of [M]. *)
Theorem deleteText_span above below ty u L M R m o pending :
  deleteText [List.length above; 0] (List.length (L ++ M)) (List.length M)
    (line above below ty u (L ++ M ++ R) m o pending)
  = line above below ty u (L ++ R) m
      (if Nat.leb o (List.length L) then o
       else if Nat.ltb o (List.length (L ++ M)) then List.length L
       else o - List.length M)
      pending.
Proof.
  rewrite length_app. unfold deleteText.
  replace (List.length L + List.length M - List.length M) with (List.length L) by lia.
  destruct (Nat.eqb_spec (List.length L) (List.length L + List.length M)) as [E|E].
  - assert (HM : M = []) by (destruct M; [reflexivity|simpl in E; lia]).
    subst M. cbn [app List.length]. rewrite Nat.add_0_r, Nat.sub_0_r.
    destruct (Nat.leb_spec o (List.length L)); [reflexivity|].
    destruct (Nat.ltb_spec o (List.length L)); [lia|reflexivity].
  - unfold delete_at, Range_edges, Point_compare. cbn [anchor focus path offset].
    rewrite Path_compare_refl.
    destruct (Nat.compare_spec (List.length L) (List.length L + List.length M)); try lia.
    cbn [path offset]. rewrite Path_equals_refl.
    unfold line, around. cbn [children selection marks option_map].
    rewrite splice_leaf. cbn [app]. unfold uncovered. cbn [path offset].
    rewrite Path_equals_refl.
    rewrite firstn_middle.
    replace (skipn (List.length L + List.length M) (L ++ M ++ R)) with R.
    2:{ rewrite app_assoc, <- length_app. now rewrite skipn_left. }
    unfold map_range, caret, move_point, Point_compare.
    cbn [anchor focus path offset].
    rewrite Path_equals_refl, Path_compare_refl. cbn [andb].
    destruct (Nat.leb_spec (List.length L + List.length M) o).
    + destruct (Nat.leb_spec o (List.length L)); [lia|].
      destruct (Nat.ltb_spec o (List.length L + List.length M)); [lia|].
      do 5 f_equal; lia.
    + destruct (Nat.compare_spec (List.length L) o);
        destruct (Nat.compare_spec o (List.length L + List.length M)); try lia;
        destruct (Nat.leb_spec o (List.length L)); try lia;
        destruct (Nat.ltb_spec o (List.length L + List.length M)); try lia;
        try reflexivity; subst; reflexivity.
Qed.

(** *** [insertText]: what a keystroke can bring about *)

(** X2.  A match that one typed character brings about ends on that
    character.  For every entry of [INLINE_SHORTCUTS]: when its pattern
    does not match the text [T] and matches [T] followed by the
    character [c], then [c] is a star, an underscore, a backtick or a
    closing parenthesis, the match ends at the end of [T ++ [c]], and
    the closing mark (the third group, the fifth for the link) ends with
    [c].  In that situation [endMark.length - 1] counts the characters
    of the closing mark that are in the editor. *)
Theorem match_ends_at_keystroke sc T c res :
  In sc INLINE_SHORTCUTS ->
  match_ T (i_match sc) = None ->
  match_ (T ++ [c]) (i_match sc) = Some res ->
  is_closer c = true
  /\ r_end res = List.length (T ++ [c])
  /\ exists D0, end_mark (i_type sc) res = D0 ++ [c].
Proof.
  intros Hin H0 H1.
  destruct (entry_shape _ Hin)
    as [[n [d [p [k [Hn [Em [Hk [_ [Hc _]]]]]]]]]|[Em Ety]];
    rewrite Em in *.
  - destruct (em_fresh _ _ _ _ _ _ Hn H0 H1)
      as [-> [A [J [_ [_ [_ [_ [He Hcaps]]]]]]]].
    split; auto. split; [rewrite length_app; exact He|].
    exists (repeat_char (n - 1) d). unfold end_mark. rewrite Hk.
    rewrite (group_caps _ 3 _ (repeat_char n d) Hcaps eq_refl).
    destruct Hn as [-> | ->]; reflexivity.
  - destruct (link_fresh _ _ _ H0 H1)
      as [-> [A [t [u [_ [_ [_ [_ [_ [_ [He Hcaps]]]]]]]]]]].
    split; auto. split; [rewrite length_app; exact He|].
    exists []. unfold end_mark. rewrite Ety. cbn [mark_of].
    now rewrite (group_caps _ 5 _ [c_rparen] Hcaps eq_refl).
Qed.

Lemma match_ends_at_keystroke_witness :
  is_closer c_star = true
  /\ r_end (Result 1 5 [(3, lit "*"); (2, lit "b"); (1, lit "*")])
     = List.length (lit "a *b" ++ [c_star])
  /\ exists D0,
       end_mark italic_ (Result 1 5 [(3, lit "*"); (2, lit "b"); (1, lit "*")])
       = D0 ++ [c_star].
Proof.
  apply (match_ends_at_keystroke (nth 2 INLINE_SHORTCUTS (MkInline Eps link_))
           (lit "a *b") c_star
           (Result 1 5 [(3, lit "*"); (2, lit "b"); (1, lit "*")])).
  - right; right; left; reflexivity.
  - vm_compute; reflexivity.
  - vm_compute; reflexivity.
Defined.

(** X3.  Ordinary typing is left alone.  On a line whose text [L]
    before the caret matches no inline pattern, keys that are no star,
    underscore, backtick or closing parenthesis, and of which no space
    comes right after a block trigger, are inserted at the caret one
    after the other, whatever text [R] follows the caret: the leaf
    becomes [L ++ K ++ R] with the caret after [K], and nothing else
    changes. *)
Theorem ordinary_typing above below ty u m R K : forall L,
  isInline ty = false ->
  inline_resolve INLINE_SHORTCUTS L = None ->
  ordinary_keys L K = true ->
  type_keys K (line above below ty u (L ++ R) m (List.length L) None)
  = line above below ty u (L ++ K ++ R) m (List.length (L ++ K)) None.
Proof.
  induction K as [|c K IH]; intros L Hty HL HK.
  - cbn [type_keys app]. now rewrite app_nil_r.
  - cbn [type_keys]. cbn [ordinary_keys] in HK.
    apply andb_prop in HK. destruct HK as [HK HK'].
    apply andb_prop in HK. destruct HK as [Hc Hs].
    apply negb_true_iff in Hc, Hs.
    assert (Hf : inline_resolve INLINE_SHORTCUTS (L ++ [c]) = None)
      by (now apply fresh_key).
    rewrite insertText_at; auto.
    + replace (L ++ [c] ++ R) with ((L ++ [c]) ++ R) by now rewrite <- app_assoc.
      rewrite (IH (L ++ [c])); auto. now rewrite <- !app_assoc.
    + intro Ec. inversion Ec; subst. rewrite block_resolve_trigger.
      rewrite char_eqb_refl in Hs. cbn [andb] in Hs.
      destruct (trigger_of L); [discriminate|reflexivity].
Qed.

Lemma ordinary_typing_witness :
  type_keys (lit "you soon")
    (line [] [] "paragraph" None (lit "see " ++ lit "!") no_marks
          (List.length (lit "see ")) None)
  = line [] [] "paragraph" None (lit "see " ++ lit "you soon" ++ lit "!") no_marks
         (List.length (lit "see " ++ lit "you soon")) None.
Proof.
  apply (ordinary_typing [] [] "paragraph" None no_marks (lit "!")
           (lit "you soon") (lit "see ")); reflexivity.
Defined.

(** X4.  Punctuation inside a word does nothing.  When the text before
    the caret together with the typed keys holds no white space and does
    not begin with a star, an underscore, a backtick or an opening
    bracket, every key is inserted as it is: an identifier such as
    snake_case_name or a product such as 2*3*4 is never formatted,
    since every inline pattern has to start at the start of the leaf or
    after white space. *)
Theorem word_typing above below ty u m R K : forall L,
  isInline ty = false ->
  no_space (L ++ K) = true ->
  starts_with_opener (L ++ K) = false ->
  type_keys K (line above below ty u (L ++ R) m (List.length L) None)
  = line above below ty u (L ++ K ++ R) m (List.length (L ++ K)) None.
Proof.
  induction K as [|c K IH]; intros L Hty Hs Ho.
  - cbn [type_keys app]. now rewrite app_nil_r.
  - cbn [type_keys].
    assert (E : L ++ c :: K = (L ++ [c]) ++ K) by now rewrite <- app_assoc.
    rewrite E in Hs, Ho.
    assert (Hs1 : no_space (L ++ [c]) = true).
    { unfold no_space in *. rewrite forallb_app in Hs.
      now apply andb_prop in Hs. }
    assert (Ho1 : starts_with_opener (L ++ [c]) = false).
    { destruct L; exact Ho. }
    rewrite insertText_at; auto.
    + replace (L ++ [c] ++ R) with ((L ++ [c]) ++ R) by now rewrite <- app_assoc.
      rewrite (IH (L ++ [c])); auto. now rewrite <- !app_assoc.
    + intro Ec. inversion Ec; subst. exfalso.
      unfold no_space in Hs1. rewrite forallb_app in Hs1.
      apply andb_prop in Hs1. destruct Hs1 as [_ Hs1]. discriminate.
    + now apply word_quiet.
Qed.

Lemma word_typing_witness :
  type_keys (lit "snake_case_")
    (line [] [] "paragraph" None (lit "my_" ++ []) no_marks
          (List.length (lit "my_")) None)
  = line [] [] "paragraph" None (lit "my_" ++ lit "snake_case_" ++ []) no_marks
         (List.length (lit "my_" ++ lit "snake_case_")) None.
Proof.
  apply (word_typing [] [] "paragraph" None no_marks [] (lit "snake_case_")
           (lit "my_")); reflexivity.
Defined.

(** *** [insertText]: the shortcuts on a line without a stale pattern *)

(** X5.  An emphasis or code shortcut on any line that holds no complete
    pattern yet.  When no inline pattern matches the text [T] of the
    leaf, the caret is at its end, the leaf does not carry the mark
    yet, and typing [c] makes the loop stop at an entry with that mark
    type, then [T] is [A], a delimiter [D0 ++ [c]]
    of the table, a non-empty inner text [J] and the delimiter less its
    last character, with [A] empty or ending in white space; and the
    keystroke removes exactly the two delimiters, sets the mark on
    exactly [J], keeps [A] as it was, inserts nothing, and leaves the
    caret after [J] with the mark off in the pending marks.  The rest
    of the document is untouched. *)
Theorem emphasis_on_fresh_line above below ty u T m c ity res k :
  inline_resolve INLINE_SHORTCUTS T = None ->
  inline_resolve INLINE_SHORTCUTS (T ++ [c]) = Some (ity, res) ->
  mark_of ity = Some k ->
  carries k m = false ->
  exists A D0 J,
    T = A ++ (D0 ++ [c]) ++ J ++ D0 /\
    In (D0 ++ [c], k) emphasis_rules /\
    opens_word A = true /\ J <> [] /\
    Session.insertText [c] (line above below ty u T m (List.length T) None)
    = after_emphasis above below ty u A J m k.
Proof.
  intros H0 H1 Hk Hfree.
  destruct (resolve_some _ _ _ _ H1) as [sc [Hin [Hty Hm]]].
  rewrite resolve_none in H0. specialize (H0 sc Hin).
  destruct (entry_shape _ Hin)
    as [[n [d [p [k' [Hn [Em [Hk' [Hr [Hc _]]]]]]]]]|[Em Ety]].
  2:{ rewrite <- Hty, Ety in Hk. discriminate. }
  rewrite Em in *. rewrite Hty, Hk in Hk'. inversion Hk'; subst k'.
  destruct (em_fresh _ _ _ _ _ _ Hn H0 Hm)
    as [-> [A [J [ET [HA [HJ [Hp [He Hcaps]]]]]]]].
  assert (En : repeat_char n d = repeat_char (n - 1) d ++ [d])
    by (destruct Hn as [-> | ->]; reflexivity).
  exists A, (repeat_char (n - 1) d), J. rewrite <- En.
  repeat split; auto.
  unfold Session.insertText.
  rewrite (insertText_caret _ _ _ [List.length above; 0] (List.length T))
    by reflexivity.
  rewrite (closer_not_space _ Hc).
  rewrite inline_loop_resolve, element_text_line, firstn_all, H1, Hk.
  rewrite ET.
  apply apply_mark_line; auto.
  - now rewrite (group_caps _ 1 _ (repeat_char n d) Hcaps eq_refl).
  - now rewrite (group_caps _ 2 _ J Hcaps eq_refl).
  - rewrite (group_caps _ 3 _ (repeat_char n d) Hcaps eq_refl).
    destruct Hn as [-> | ->]; reflexivity.
Qed.

Lemma emphasis_on_fresh_line_witness :
  exists A D0 J,
    lit "a_b *c" = A ++ (D0 ++ [c_star]) ++ J ++ D0 /\
    In (D0 ++ [c_star], Italic) emphasis_rules /\
    opens_word A = true /\ J <> [] /\
    Session.insertText [c_star]
      (line [] [] "paragraph" None (lit "a_b *c") no_marks
            (List.length (lit "a_b *c")) None)
    = after_emphasis [] [] "paragraph" None A J no_marks Italic.
Proof.
  apply (emphasis_on_fresh_line [] [] "paragraph" None (lit "a_b *c") no_marks
           c_star italic_
           (Result 3 7 [(3, lit "*"); (2, lit "c"); (1, lit "*")]) Italic).
  - vm_compute; reflexivity.
  - vm_compute; reflexivity.
  - reflexivity.
  - reflexivity.
Defined.

(** X6.  The link shortcut on any line that holds no complete pattern
    yet.  When no inline pattern matches the text [T] of the leaf, the
    caret is at its end, and typing [c] makes the loop stop at the link
    entry, then [c] is the closing parenthesis and [T] is [A], an
    opening bracket, a non-empty link text, a closing bracket and an
    opening parenthesis, and a non-empty address, with [A] empty or
    ending in white space; and the keystroke removes the brackets, the
    parenthesis and the address from the text, wraps exactly the link
    text in a link element that carries the address, keeps [A], and
    inserts nothing. *)
Theorem link_on_fresh_line above below ty u T m c res :
  inline_resolve INLINE_SHORTCUTS T = None ->
  inline_resolve INLINE_SHORTCUTS (T ++ [c]) = Some (link_, res) ->
  exists A t url,
    c = c_rparen /\
    T = A ++ [c_lbrack] ++ t ++ [c_rbrack; c_lparen] ++ url /\
    opens_word A = true /\ t <> [] /\ url <> [] /\
    Session.insertText [c] (line above below ty u T m (List.length T) None)
    = MkEditor (above ++ Element ty u (link_leaves A t url m) :: below)
        (Some (caret [List.length above; 1; 0] (List.length t))) None.
Proof.
  intros H0 H1.
  destruct (resolve_some _ _ _ _ H1) as [sc [Hin [Hty Hm]]].
  rewrite resolve_none in H0. specialize (H0 sc Hin).
  destruct (entry_shape _ Hin)
    as [[n [d [p [k' [Hn [Em [Hk' _]]]]]]]|[Em Ety]].
  1:{ rewrite Hty in Hk'. discriminate. }
  rewrite Em in *.
  destruct (link_fresh _ _ _ H0 Hm)
    as [-> [A [t [url [ET [HA [Ht [Hpt [Hu [Hpu [He Hcaps]]]]]]]]]]].
  exists A, t, url. repeat split; auto.
  unfold Session.insertText.
  rewrite (insertText_caret _ _ _ [List.length above; 0] (List.length T))
    by reflexivity.
  change (str_eqb [c_rparen] [c_space]) with false. cbv iota.
  rewrite inline_loop_resolve, element_text_line, firstn_all, H1.
  cbn [mark_of]. rewrite ET.
  apply (apply_link_line above below ty u A t url m None res); auto.
  - now rewrite (group_caps _ 1 _ [c_lbrack] Hcaps eq_refl).
  - now rewrite (group_caps _ 2 _ t Hcaps eq_refl).
  - now rewrite (group_caps _ 3 _ [c_rbrack; c_lparen] Hcaps eq_refl).
  - now rewrite (group_caps _ 4 _ url Hcaps eq_refl).
  - now rewrite (group_caps _ 5 _ [c_rparen] Hcaps eq_refl).
Qed.

Lemma link_on_fresh_line_witness :
  exists A t url,
    c_rparen = c_rparen /\
    lit "see [a](b" = A ++ [c_lbrack] ++ t ++ [c_rbrack; c_lparen] ++ url /\
    opens_word A = true /\ t <> [] /\ url <> [] /\
    Session.insertText [c_rparen]
      (line [] [] "paragraph" None (lit "see [a](b") no_marks
            (List.length (lit "see [a](b")) None)
    = MkEditor ([] ++ Element "paragraph" None (link_leaves A t url no_marks) :: [])
        (Some (caret [List.length (@nil Node); 1; 0] (List.length t))) None.
Proof.
  apply (link_on_fresh_line [] [] "paragraph" None (lit "see [a](b") no_marks
           c_rparen
           (Result 3 10 [(5, lit ")"); (4, lit "b"); (3, lit "](");
                         (2, lit "a"); (1, lit "[")])).
  - vm_compute; reflexivity.
  - vm_compute; reflexivity.
Defined.

(** *** [insertText]: the shortcuts with text after the caret *)

(** X7.  An emphasis or code shortcut in the middle of a line.  With
    the text [R] after the caret and a text [L] before it that no
    inline pattern matches, in a leaf that does not carry the mark
    yet, a key that makes the loop stop at an entry with that mark
    type removes exactly the two delimiters and sets the
    mark on exactly the inner text [J]; the text [A] before the opening
    delimiter and the text [R] after the caret keep their characters
    and their marks, [R] in a leaf of its own; the key is not
    inserted, the caret is at the start of [R], and the mark is off in
    the pending marks. *)
Theorem emphasis_keeps_rest above below ty u L R m c ity res k :
  isInline ty = false -> R <> [] ->
  inline_resolve INLINE_SHORTCUTS L = None ->
  inline_resolve INLINE_SHORTCUTS (L ++ [c]) = Some (ity, res) ->
  mark_of ity = Some k ->
  carries k m = false ->
  exists A D0 J,
    L = A ++ (D0 ++ [c]) ++ J ++ D0 /\
    In (D0 ++ [c], k) emphasis_rules /\
    opens_word A = true /\ J <> [] /\
    Session.insertText [c] (line above below ty u (L ++ R) m (List.length L) None)
    = MkEditor
        (above ++ Element ty u (marked_leaves A J m k ++ [Text R m]) :: below)
        (Some (caret [List.length above; S (marked_index A)] 0))
        (Some (set_mark k false (set_mark k true m))).
Proof.
  intros Hty HR H0 H1 Hk Hfree.
  destruct (resolve_some _ _ _ _ H1) as [sc [Hin [Hity Hm]]].
  rewrite resolve_none in H0. specialize (H0 sc Hin).
  destruct (entry_shape _ Hin)
    as [[n [d [p [k' [Hn [Em [Hk' [Hr [Hc _]]]]]]]]]|[Em Ety]].
  2:{ rewrite <- Hity, Ety in Hk. discriminate. }
  rewrite Em in *. rewrite Hity, Hk in Hk'. inversion Hk'; subst k'.
  destruct (em_fresh _ _ _ _ _ _ Hn H0 Hm)
    as [-> [A [J [ET [HA [HJ [Hp [He Hcaps]]]]]]]].
  assert (En : repeat_char n d = repeat_char (n - 1) d ++ [d])
    by (destruct Hn as [-> | ->]; reflexivity).
  exists A, (repeat_char (n - 1) d), J. rewrite <- En.
  repeat split; auto.
  unfold Session.insertText.
  rewrite (insertText_caret _ _ _ [List.length above; 0] (List.length L))
    by reflexivity.
  rewrite (closer_not_space _ Hc).
  rewrite inline_loop_resolve, element_text_line, firstn_middle, H1, Hk.
  rewrite ET.
  apply apply_mark_mid; auto.
  - now rewrite (group_caps _ 1 _ (repeat_char n d) Hcaps eq_refl).
  - now rewrite (group_caps _ 2 _ J Hcaps eq_refl).
  - rewrite (group_caps _ 3 _ (repeat_char n d) Hcaps eq_refl).
    destruct Hn as [-> | ->]; reflexivity.
Qed.

Lemma emphasis_keeps_rest_witness :
  exists A D0 J,
    lit "a **b*" = A ++ (D0 ++ [c_star]) ++ J ++ D0 /\
    In (D0 ++ [c_star], Bold) emphasis_rules /\
    opens_word A = true /\ J <> [] /\
    Session.insertText [c_star]
      (line [] [] "paragraph" None (lit "a **b*" ++ lit " c") no_marks
            (List.length (lit "a **b*")) None)
    = MkEditor
        ([] ++ Element "paragraph" None
                 (marked_leaves A J no_marks Bold ++ [Text (lit " c") no_marks]) :: [])
        (Some (caret [List.length (@nil Node); S (marked_index A)] 0))
        (Some (set_mark Bold false (set_mark Bold true no_marks))).
Proof.
  apply (emphasis_keeps_rest [] [] "paragraph" None (lit "a **b*") (lit " c")
           no_marks c_star bold_
           (Result 1 7 [(3, lit "**"); (2, lit "b"); (1, lit "**")]) Bold).
  - reflexivity.
  - discriminate.
  - vm_compute; reflexivity.
  - vm_compute; reflexivity.
  - reflexivity.
  - reflexivity.
Defined.

(** X8.  The link shortcut in the middle of a line.  With the text
    [R] after the caret and a text [L] before it that no inline pattern
    matches, a key that makes the loop stop at the link entry is the
    closing parenthesis; it removes the brackets, the parentheses and
    the address, wraps exactly the link text in a link element with
    that address, keeps the text before the opening bracket and the
    text [R] after the caret, and leaves the caret at the start of
    [R], outside the link. *)
Theorem link_keeps_rest above below ty u L R m c res :
  R <> [] ->
  inline_resolve INLINE_SHORTCUTS L = None ->
  inline_resolve INLINE_SHORTCUTS (L ++ [c]) = Some (link_, res) ->
  exists A t url,
    c = c_rparen /\
    L = A ++ [c_lbrack] ++ t ++ [c_rbrack; c_lparen] ++ url /\
    opens_word A = true /\ t <> [] /\ url <> [] /\
    Session.insertText [c] (line above below ty u (L ++ R) m (List.length L) None)
    = MkEditor (above ++ Element ty u (link_leaves_with A t url m R) :: below)
        (Some (caret [List.length above; 2] 0)) None.
Proof.
  intros HR H0 H1.
  destruct (resolve_some _ _ _ _ H1) as [sc [Hin [Hty Hm]]].
  rewrite resolve_none in H0. specialize (H0 sc Hin).
  destruct (entry_shape _ Hin)
    as [[n [d [p [k' [Hn [Em [Hk' _]]]]]]]|[Em Ety]].
  1:{ rewrite Hty in Hk'. discriminate. }
  rewrite Em in *.
  destruct (link_fresh _ _ _ H0 Hm)
    as [-> [A [t [url [ET [HA [Ht [Hpt [Hu [Hpu [He Hcaps]]]]]]]]]]].
  exists A, t, url. repeat split; auto.
  unfold Session.insertText.
  rewrite (insertText_caret _ _ _ [List.length above; 0] (List.length L))
    by reflexivity.
  change (str_eqb [c_rparen] [c_space]) with false. cbv iota.
  rewrite inline_loop_resolve, element_text_line, firstn_middle, H1.
  cbn [mark_of]. rewrite ET.
  apply (apply_link_mid above below ty u A t url R m None res); auto.
  - now rewrite (group_caps _ 1 _ [c_lbrack] Hcaps eq_refl).
  - now rewrite (group_caps _ 2 _ t Hcaps eq_refl).
  - now rewrite (group_caps _ 3 _ [c_rbrack; c_lparen] Hcaps eq_refl).
  - now rewrite (group_caps _ 4 _ url Hcaps eq_refl).
  - now rewrite (group_caps _ 5 _ [c_rparen] Hcaps eq_refl).
Qed.

Lemma link_keeps_rest_witness :
  exists A t url,
    c_rparen = c_rparen /\
    lit "[a](b" = A ++ [c_lbrack] ++ t ++ [c_rbrack; c_lparen] ++ url /\
    opens_word A = true /\ t <> [] /\ url <> [] /\
    Session.insertText [c_rparen]
      (line [] [] "paragraph" None (lit "[a](b" ++ lit " c") no_marks
            (List.length (lit "[a](b")) None)
    = MkEditor ([] ++ Element "paragraph" None
                        (link_leaves_with A t url no_marks (lit " c")) :: [])
        (Some (caret [List.length (@nil Node); 2] 0)) None.
Proof.
  apply (link_keeps_rest [] [] "paragraph" None (lit "[a](b") (lit " c") no_marks
           c_rparen
           (Result 0 6 [(5, lit ")"); (4, lit "b"); (3, lit "](");
                        (2, lit "a"); (1, lit "[")])).
  - discriminate.
  - vm_compute; reflexivity.
  - vm_compute; reflexivity.
Defined.

(** *** [insertText]: after a shortcut *)

(** X9.  After an emphasis shortcut typing goes on without the mark.
    In the state the shortcut leaves (the marked text [J] after [A],
    the caret at the end of [J], the mark taken off the pending marks
    by [removeMark]), a key on which no shortcut matches goes into a
    leaf of its own after the marked text, and that leaf does not carry
    the mark; the marked text and the text before it stay as they
    are. *)
Theorem typing_after_emphasis above below ty u A J m k c :
  isInline ty = false -> J <> [] ->
  (c = c_space -> trigger_of (A ++ J) = None) ->
  inline_resolve INLINE_SHORTCUTS (J ++ [c]) = None ->
  Session.insertText [c] (after_emphasis above below ty u A J m k)
  = MkEditor
      (above ++ Element ty u
         (marked_leaves A J m k ++ [Text [c] (set_mark k false (set_mark k true m))])
         :: below)
      (Some (caret [List.length above; S (marked_index A)] 1)) None.
Proof.
  intros Hty HJ Hb Hi. unfold after_emphasis.
  assert (HL : 0 < List.length J) by (destruct J; simpl; [congruence|lia]).
  unfold Session.insertText.
  rewrite (insertText_caret _ _ _ [List.length above; marked_index A] (List.length J))
    by reflexivity.
  rewrite block_loop_resolve, inline_loop_resolve.
  destruct A as [|a A]; cbn [marked_leaves marked_index].
  - (* the marked text starts the block *)
    change (MkEditor (above ++ Element ty u [Text J (set_mark k true m)] :: below)
              (Some (caret [List.length above; 0] (List.length J)))
              (Some (set_mark k false (set_mark k true m))))
      with (line above below ty u J (set_mark k true m) (List.length J)
              (Some (set_mark k false (set_mark k true m)))).
    rewrite before_range_line, before_text_line, element_text_line, firstn_all by auto.
    rewrite Hi, block_resolve_trigger.
    assert (Hh : (if str_eqb [c] [c_space]
                  then match trigger_of J with
                       | Some (ty0, lt) =>
                           Some (apply_block (MkBlock Eps ty0 lt)
                             (MkRange (MkPoint [List.length above; 0] (List.length J))
                                      (MkPoint [List.length above; 0] 0))
                             (line above below ty u J (set_mark k true m) (List.length J)
                                (Some (set_mark k false (set_mark k true m)))))
                       | None => None
                       end
                  else None) = None).
    { destruct (str_eqb [c] [c_space]) eqn:E; auto.
      apply str_eqb_eq in E. inversion E; subst.
      cbn [app] in Hb. now rewrite (Hb eq_refl). }
    rewrite Hh.
    unfold Slate.insertText, line, around, caret.
    cbn [selection]. unfold Range_isCollapsed, Point_equals.
    cbn [anchor focus path offset].
    rewrite Path_equals_refl, Nat.eqb_refl. cbn [andb selection].
    unfold Range_edges, Point_compare. cbn [anchor focus path offset].
    rewrite Path_compare_refl, Nat.compare_refl. cbn [fst path offset children marks].
    rewrite get_leaf, marks_differ, splice_leaf.
    destruct (Nat.ltb_spec 0 (List.length J)); [|lia].
    destruct (Nat.ltb_spec (List.length J) (List.length J)); [lia|].
    rewrite firstn_all. cbn [app Path_next List.length]. reflexivity.
  - (* after unmarked text *)
    assert (Eb : before_range
                   (MkEditor (above ++ Element ty u
                        [Text (a :: A) m; Text J (set_mark k true m)] :: below)
                      (Some (caret [List.length above; 1] (List.length J)))
                      (Some (set_mark k false (set_mark k true m))))
                   (MkPoint [List.length above; 1] (List.length J))
                 = MkRange (MkPoint [List.length above; 1] (List.length J))
                           (MkPoint [List.length above; 0] 0)).
    { unfold before_range. rewrite above_second by (simpl; now rewrite Hty).
      unfold start. cbn [children]. rewrite get_block. reflexivity. }
    rewrite Eb, (string_two _ _ _ _ _ _ _ _ _ _ _ 0) by lia.
    assert (Ee : element_text
                   (MkEditor (above ++ Element ty u
                        [Text (a :: A) m; Text J (set_mark k true m)] :: below)
                      (Some (caret [List.length above; 1] (List.length J)))
                      (Some (set_mark k false (set_mark k true m))))
                   (MkPoint [List.length above; 1] (List.length J)) [c]
                 = J ++ [c]).
    { unfold element_text, start. cbn [children path].
      rewrite get_second. cbn [first_leaf app].
      rewrite (string_two _ _ _ _ _ _ _ _ _ _ _ 1) by lia.
      cbn [Nat.eqb app]. now rewrite firstn_all. }
    rewrite Ee, Hi, block_resolve_trigger. cbn [Nat.eqb]. rewrite firstn_all.
    match goal with
    | |- match (if ?b then ?x else None) with _ => _ end = _ =>
        assert (Hh : (if b then x else None) = None)
    end.
    { destruct (str_eqb [c] [c_space]) eqn:E; auto.
      apply str_eqb_eq in E. inversion E; subst. now rewrite (Hb eq_refl). }
    rewrite Hh.
    unfold Slate.insertText, caret.
    cbn [selection]. unfold Range_isCollapsed, Point_equals.
    cbn [anchor focus path offset].
    rewrite Path_equals_refl, Nat.eqb_refl. cbn [andb selection].
    unfold Range_edges, Point_compare. cbn [anchor focus path offset].
    rewrite Path_compare_refl, Nat.compare_refl. cbn [fst path offset children marks].
    rewrite get_second, marks_differ, splice_second.
    destruct (Nat.ltb_spec 0 (List.length J)); [|lia].
    destruct (Nat.ltb_spec (List.length J) (List.length J)); [lia|].
    rewrite firstn_all. cbn [app Path_next List.length]. reflexivity.
Qed.

Lemma typing_after_emphasis_witness :
  Session.insertText [c_space]
    (after_emphasis [] [] "paragraph" None (lit "a ") (lit "b") no_marks Bold)
  = MkEditor
      ([] ++ Element "paragraph" None
         (marked_leaves (lit "a ") (lit "b") no_marks Bold
          ++ [Text [c_space] (set_mark Bold false (set_mark Bold true no_marks))])
         :: [])
      (Some (caret [List.length (@nil Node); S (marked_index (lit "a "))] 1)) None.
Proof.
  apply (typing_after_emphasis [] [] "paragraph" None (lit "a ") (lit "b")
           no_marks Bold c_space).
  - reflexivity.
  - discriminate.
  - intros _. reflexivity.
  - vm_compute; reflexivity.
Defined.

(** *** [insertText]: a line that holds a complete pattern *)

(** X10.  A complete pattern before the caret takes every insertion.
    When the text from the start of the caret's leaf to the caret
    matches an inline pattern, no call of [insertText] at that caret
    reaches the captured method, whatever text is inserted: the result
    is the same for every captured [insertText], since the patterns are
    not anchored at their end and go on matching once more text
    follows. *)
Theorem stale_leaf_swallows_text
    (ins1 ins2 : str -> Editor -> Editor) (e : Editor) (sel : Range) (text : str) :
  selection e = Some sel ->
  Range_isCollapsed sel = true ->
  inline_resolve INLINE_SHORTCUTS (element_text e (anchor sel) []) <> None ->
  AutoMarkdown.insertText ins1 text e = AutoMarkdown.insertText ins2 text e.
Proof.
  intros Hsel Hcol Hst. unfold AutoMarkdown.insertText.
  rewrite Hsel, Hcol. cbn [negb].
  match goal with |- match ?h with _ => _ end = _ => destruct h end; auto.
  rewrite !inline_loop_resolve.
  assert (E : element_text e (anchor sel) text
              = element_text e (anchor sel) [] ++ text).
  { unfold element_text. now rewrite app_nil_r. }
  rewrite E. apply (resolve_mono _ text) in Hst.
  destruct (inline_resolve INLINE_SHORTCUTS (element_text e (anchor sel) [] ++ text))
    as [[ity res]|]; [reflexivity|congruence].
Qed.

Lemma stale_leaf_swallows_text_witness :
  AutoMarkdown.insertText Slate.insertText (lit "x") stale_pattern_doc
  = AutoMarkdown.insertText (fun _ e => e) (lit "x") stale_pattern_doc.
Proof.
  apply (stale_leaf_swallows_text Slate.insertText (fun _ e => e)
           stale_pattern_doc (caret [0; 0] 7) (lit "x")).
  - reflexivity.
  - reflexivity.
  - vm_compute. discriminate.
Defined.

(** *** [insertText]: a block shortcut in front of text *)

(** X11.  A block shortcut keeps the text after the caret.  When the
    text of the leaf before the caret is a trigger and the text [R]
    follows the caret, a space removes the trigger only: the block gets
    the type of the shortcut (and, for a list item, its new container)
    and keeps [R], the space is not inserted, and the caret is at the
    start of [R].  So a trigger and a space typed in front of a line
    that already has text turn that line into the heading, quote or
    list item. *)
Theorem block_shortcut_keeps_rest above below ty u T R m pending ty' lt :
  isInline ty = false ->
  trigger_of T = Some (ty', lt) ->
  Session.insertText [c_space] (line above below ty u (T ++ R) m (List.length T) pending)
  = block_result_with above below ty' lt u R m.
Proof.
  intros Hty HT.
  assert (Hne : T <> []) by (intros ->; discriminate).
  unfold Session.insertText.
  rewrite (insertText_caret _ _ _ [List.length above; 0] (List.length T))
    by reflexivity.
  change (str_eqb [c_space] [c_space]) with true. cbv iota.
  rewrite before_range_line, before_text_line, firstn_middle by auto.
  rewrite block_loop_resolve, block_resolve_trigger, HT.
  now rewrite apply_block_at.
Qed.

Lemma block_shortcut_keeps_rest_witness :
  Session.insertText [c_space]
    (line [] [] "paragraph" None (lit "##" ++ lit "Title") no_marks
          (List.length (lit "##")) None)
  = block_result_with [] [] "heading-two" None None (lit "Title") no_marks.
Proof.
  apply (block_shortcut_keeps_rest [] [] "paragraph" None (lit "##") (lit "Title")
           no_marks None "heading-two" None); reflexivity.
Defined.

(** *** [deleteBackward]: after the outdent *)

(** X12.  The outdent happens once.  With a caret at the start of a
    block that is neither a paragraph nor a list item, the first
    backward deletion retypes the block and the second one, at the same
    caret, is the captured [deleteBackward] on the retyped document:
    the block found above the caret is now a paragraph, so the
    interceptor steps aside. *)
Theorem second_backspace_is_default
    (deleteBackward0 : Editor -> Editor) (e : Editor) (sel : Range)
    (ty : string) (u : option str) (cs : list Node) (q : Path) :
  selection e = Some sel ->
  Range_isCollapsed sel = true ->
  above isBlock e = Some (Element ty u cs, q) ->
  ty <> "paragraph" -> ty <> "list-item" ->
  Point_equals (anchor sel) (start e q) = true ->
  AutoMarkdown.deleteBackward deleteBackward0
    (AutoMarkdown.deleteBackward deleteBackward0 e)
  = deleteBackward0 (setNodes_type "paragraph" e).
Proof.
  intros Hsel Hcol Habove Hp Hl Hstart.
  assert (He : AutoMarkdown.deleteBackward deleteBackward0 e
               = setNodes_type "paragraph" e).
  { unfold AutoMarkdown.deleteBackward. rewrite Hsel, Hcol, Habove.
    unfold outdents. rewrite Hstart.
    apply String.eqb_neq in Hp, Hl. now rewrite Hp, Hl. }
  rewrite He.
  assert (Ha := above_set_type "paragraph" e ty u cs q eq_refl Habove).
  unfold AutoMarkdown.deleteBackward at 1.
  assert (Hs : selection (setNodes_type "paragraph" e) = Some sel).
  { unfold setNodes_type. now rewrite Habove. }
  rewrite Hs, Hcol, Ha. reflexivity.
Qed.

Lemma second_backspace_is_default_witness :
  AutoMarkdown.deleteBackward wipe (AutoMarkdown.deleteBackward wipe heading_doc)
  = wipe (setNodes_type "paragraph" heading_doc).
Proof.
  apply (second_backspace_is_default wipe heading_doc (caret [1; 0] 0)
           "heading-one" None [plain (lit "Title")] [1]);
    try reflexivity; discriminate.
Defined.

(** X13.  A backward deletion right after a block shortcut.  After a
    trigger and a space, the caret is at the start of the retyped
    block.  For a quote or a heading the next backward deletion is the
    outdent: the block is a paragraph again, with the text [R] that
    followed the trigger and without the trigger, and the captured
    [deleteBackward] is not called.  For a list item the interceptor
    steps aside and the captured [deleteBackward] runs on the list the
    shortcut built. *)
Theorem shortcut_then_backspace
    (deleteBackward0 : Editor -> Editor) above below ty u T R m pending ty' lt :
  isInline ty = false ->
  trigger_of T = Some (ty', lt) ->
  AutoMarkdown.deleteBackward deleteBackward0
    (Session.insertText [c_space]
       (line above below ty u (T ++ R) m (List.length T) pending))
  = if String.eqb ty' "list-item"
    then deleteBackward0 (block_result_with above below ty' lt u R m)
    else line above below "paragraph" u R m 0 None.
Proof.
  intros Hty HT.
  assert (Hne : T <> []) by (intros ->; discriminate).
  assert (E : Session.insertText [c_space]
                (line above below ty u (T ++ R) m (List.length T) pending)
              = block_result_with above below ty' lt u R m).
  { unfold Session.insertText.
    rewrite (insertText_caret _ _ _ [List.length above; 0] (List.length T))
      by reflexivity.
    change (str_eqb [c_space] [c_space]) with true. cbv iota.
    rewrite before_range_line, before_text_line, firstn_middle by auto.
    rewrite block_loop_resolve, block_resolve_trigger, HT.
    now rewrite apply_block_at. }
  rewrite E.
  assert (Hc : forall p, Range_isCollapsed (caret p 0) = true).
  { intro p. unfold caret, Range_isCollapsed, Point_equals.
    cbn [anchor focus path offset]. now rewrite Path_equals_refl. }
  destruct (trigger_types _ _ _ HT) as [[-> Hl]|[-> [Hin [Hp Hl]]]].
  - (* a list item: the interceptor steps aside *)
    cbn [String.eqb Ascii.eqb Bool.eqb]. unfold block_result_with.
    cbn [String.eqb Ascii.eqb Bool.eqb].
    unfold AutoMarkdown.deleteBackward at 1. cbn [selection]. rewrite Hc.
    rewrite (above_caret _ _ [0; 0] 0 None [List.length above]).
    cbn [app Path_ancestors_rev List.length Nat.sub List.seq map rev firstn lowest].
    cbn [get]. rewrite nth_error_middle. cbn [nth_error isBlock isInline].
    cbn [String.eqb Ascii.eqb Bool.eqb negb outdents andb]. reflexivity.
  - (* a quote or a heading: the outdent *)
    unfold block_result_with.
    apply String.eqb_neq in Hp, Hl. rewrite Hl.
    change (MkEditor (above ++ Element ty' u [Text R m] :: below)
              (Some (caret [List.length above; 0] 0)) None)
      with (around above below (Element ty' u [Text R m]) 0 None).
    unfold AutoMarkdown.deleteBackward.
    rewrite above_around by (simpl; now rewrite Hin).
    unfold around at 1. cbn [selection]. rewrite Hc. unfold outdents.
    rewrite Hp, Hl. cbn [negb andb].
    unfold start, around. cbn [children]. rewrite get_block. cbn [first_leaf app].
    unfold caret, Point_equals. cbn [anchor path offset].
    rewrite Path_equals_refl. cbn [Nat.eqb andb].
    unfold setNodes_type.
    change (MkEditor (above ++ Element ty' u [Text R m] :: below)
              (Some (MkRange (MkPoint [List.length above; 0] 0)
                             (MkPoint [List.length above; 0] 0))) None)
      with (around above below (Element ty' u [Text R m]) 0 None).
    rewrite above_around by (simpl; now rewrite Hin).
    unfold around, line. cbn [children selection marks]. now rewrite splice_block.
Qed.

Lemma shortcut_then_backspace_witness :
  AutoMarkdown.deleteBackward wipe
    (Session.insertText [c_space]
       (line [] [] "paragraph" None (lit "##" ++ lit "Title") no_marks
             (List.length (lit "##")) None))
  = if String.eqb "heading-two" "list-item"
    then wipe (block_result_with [] [] "heading-two" None None (lit "Title") no_marks)
    else line [] [] "paragraph" None (lit "Title") no_marks 0 None.
Proof.
  apply (shortcut_then_backspace wipe [] [] "paragraph" None (lit "##")
           (lit "Title") no_marks None "heading-two" None); reflexivity.
Defined.
